(** * Itinerary planning by a genetic algorithm (server/ga.py)

    A shallow embedding of the evolutionary engine of [server/ga.py]:
    fitness evaluation, population factory, tournament selection,
    crossover with its repair pass, mutation, and the generational driver.

    Modelling decisions, all visible in the definitions below.
    - Python [int]s are [Z]; list indices and slice bounds keep Python's
      treatment of negative values.
    - Edge weights and mutation rates are exact rationals ([Q]); the
      missing-edge sentinel [float('inf')] is the constructor [Inf].
      Rounding of binary floating point is not modelled.
    - Exceptions are values of [exn]; a computation that may raise
      returns a [result].
    - The module [random] and the iteration order of a Python [set] are
      both read from one oracle, a tape of integers that is threaded
      through the code in the order the source makes its draws. Every
      outcome of a draw is produced by some tape.
    - Paths are immutable values. The source mutates lists in place only
      on a child that [Crossover] has just allocated, so no list that is
      reachable from the population or from [bestPath] is ever updated.
    - The [debug] flag of [run_genetic_algorithm] only prints; it is left
      out.
    - [create_graph_with_manhattan_distances] reads three attributes of
      the objects it is given; a place is a record of the three. *)

From Stdlib Require Import QArith Qabs Lqa.
From stdpp Require Import gmap strings list.

Open Scope Z_scope.

(** ** Exceptions and the two monads *)

Inductive exn := ValueError | IndexError | KeyError | ZeroDivisionError.

Inductive result (A : Type) :=
| Ok (a : A)
| Raise (e : exn).
Arguments Ok {A} a.
Arguments Raise {A} e.

#[global] Instance result_ret : MRet result := λ A a, Ok a.
#[global] Instance result_bind : MBind result := λ A B f c,
  match c with
  | Ok a => f a
  | Raise e => Raise e
  end.

(** The oracle: the integers that [random] and set iteration will consume.
    An exhausted tape keeps answering [0]. *)
Definition tape := list Z.

Definition M (A : Type) : Type := tape → result (A * tape).

Definition retM {A} (a : A) : M A := λ t, Ok (a, t).
Definition raiseM {A} (e : exn) : M A := λ _, Raise e.
Definition bindM {A B} (c : M A) (k : A → M B) : M B := λ t,
  match c t with
  | Ok (a, t') => k a t'
  | Raise e => Raise e
  end.
Definition lift {A} (r : result A) : M A := λ t,
  match r with
  | Ok a => Ok (a, t)
  | Raise e => Raise e
  end.

Notation "x <- c ;; k" := (bindM c (λ x, k))
  (at level 100, c at next level, right associativity).

Definition next : M Z := λ t,
  match t with
  | [] => Ok (0, [])
  | r :: t' => Ok (r, t')
  end.

Fixpoint foldM {A B} (f : A → B → M A) (l : list B) (a : A) : M A :=
  match l with
  | [] => retM a
  | b :: l' => a' <- f a b ;; foldM f l' a'
  end.

Fixpoint foldR {A B} (f : A → B → result A) (l : list B) (a : A) : result A :=
  match l with
  | [] => Ok a
  | b :: l' => a' ← f a b; foldR f l' a'
  end.

(** ** Python lists *)

Section pylist.
Context {A : Type}.
Implicit Types (l v : list A) (i lo hi : Z).

Definition len l : Z := Z.of_nat (length l).

(** [l[i]], with [l[-1]] the last element. *)
Definition getitem l i : result A :=
  let j := if i <? 0 then len l + i else i in
  if j <? 0 then Raise IndexError
  else match l !! Z.to_nat j with
       | Some x => Ok x
       | None => Raise IndexError
       end.

(** [l[i] = x]. *)
Definition setitem l i (x : A) : result (list A) :=
  let j := if i <? 0 then len l + i else i in
  if (j <? 0) || (len l <=? j) then Raise IndexError
  else Ok (<[Z.to_nat j := x]> l).

(** A slice bound, brought into [0 .. len l] as Python does. *)
Definition clip l i : nat :=
  Z.to_nat (if i <? 0 then Z.max 0 (len l + i) else Z.min i (len l)).

(** [l[lo:hi]], [l[:hi]], [l[lo:]] and [l[lo:hi] = v]. *)
Definition slice l lo hi : list A :=
  take (clip l hi - clip l lo)%nat (drop (clip l lo) l).
Definition slice_to l hi : list A := take (clip l hi) l.
Definition slice_from l lo : list A := drop (clip l lo) l.
Definition slice_assign l lo hi v : list A :=
  take (clip l lo) l ++ v ++ drop (clip l lo `max` clip l hi)%nat l.

(** [l.pop()]: the last element and the list without it. *)
Definition pop l : result (A * list A) :=
  match last l with
  | Some x => Ok (x, removelast l)
  | None => Raise IndexError
  end.
End pylist.

(** [range(n)] and [range(a, b)]. *)
Definition range (n : Z) : list Z := Z.of_nat <$> seq 0 (Z.to_nat n).
Definition range2 (a b : Z) : list Z := (λ k, a + Z.of_nat k) <$> seq 0 (Z.to_nat (b - a)).

(** ** The module [random] *)

(** [random.randint(a, b)]: an integer of [a .. b]; an empty range raises. *)
Definition randint (a b : Z) : M Z :=
  if b <? a then raiseM ValueError
  else r <- next ;; retM (a + r `mod` (b - a + 1)).

(** [random.choice(seq)]. *)
Definition choice {A} (l : list A) : M A :=
  match l with
  | [] => raiseM IndexError
  | _ => r <- next ;; lift (getitem l (r `mod` len l))
  end.

(** [k] successive draws without replacement. *)
Fixpoint draw {A} (k : nat) (l : list A) : M (list A) :=
  match k with
  | O => retM []
  | S k' =>
      r <- next ;;
      let i := Z.to_nat (r `mod` len l) in
      x <- lift (getitem l (Z.of_nat i)) ;;
      rest <- draw k' (delete i l) ;;
      retM (x :: rest)
  end.

(** [random.sample(population, k)]. *)
Definition sample {A} (l : list A) (k : Z) : M (list A) :=
  if (k <? 0) || (len l <? k) then raiseM ValueError
  else draw (Z.to_nat k) l.

(** [random.random()]: a multiple of [2^-53] in [[0, 1)]. *)
Definition random : M Q :=
  r <- next ;; retM (Qmake (r `mod` 2 ^ 53) (2 ^ 53)%positive).

(** ** Nodes, sets, weights and graphs *)

Abbreviation Node := string (only parsing).
Abbreviation Path := (list string) (only parsing).

(** [list(s)] for a set [s]: its elements in an order chosen by the oracle. *)
Definition list_of_set (s : gset Node) : M (list Node) :=
  draw (length (elements s)) (elements s).

Inductive weight :=
| Fin (q : Q)
| Inf.

Definition wadd (a b : weight) : weight :=
  match a, b with
  | Fin x, Fin y => Fin (x + y)
  | _, _ => Inf
  end.

(** [a < b] on weights, as a test and as a proposition. *)
Definition wltb (a b : weight) : bool :=
  match a, b with
  | Fin x, Fin y => negb (Qle_bool y x)
  | Fin _, Inf => true
  | Inf, _ => false
  end.

Definition wlt (a b : weight) : Prop :=
  match a, b with
  | Fin x, Fin y => (x < y)%Q
  | Fin _, Inf => True
  | Inf, _ => False
  end.

Definition wle (a b : weight) : Prop :=
  match a, b with
  | Fin x, Fin y => (x <= y)%Q
  | _, Inf => True
  | Inf, Fin _ => False
  end.

Abbreviation Graph := (gmap string (gmap string Q)) (only parsing).

(** [graph[a]] raises [KeyError] on a missing key; [row.get(b, inf)] does not. *)
Definition subscript (graph : Graph) (a : Node) : result (gmap string Q) :=
  match graph !! a with
  | Some row => Ok row
  | None => Raise KeyError
  end.

Definition get_or_inf (row : gmap string Q) (b : Node) : weight :=
  match row !! b with
  | Some w => Fin w
  | None => Inf
  end.

(** ** calculate_path_distance *)

Definition calculate_path_distance (graph : Graph) (path : Path) : result weight :=
  foldR (λ total_distance i,
           a ← getitem path i;
           row ← subscript graph a;
           b ← getitem path (i + 1);
           Ok (wadd total_distance (get_or_inf row b)))
        (range (len path - 1)) (Fin 0).

(** calculate_distance_attraction: the lookup that never raises. *)
Definition calculate_distance_attraction (graph : Graph) (attraction1 attraction2 : Node) : weight :=
  get_or_inf (default ∅ (graph !! attraction1)) attraction2.

(** ** CreateInitialPopulation *)

Definition CreateInitialPopulation (size : Z) (graph : Graph)
    (start_attraction end_attraction : Node) (final_path_size : Z)
    (all_start_end_points : list Node) : M (list Path) :=
  let attractions :=
    filter (λ attraction, attraction ∉ all_start_end_points) (elements (dom graph)) in
  foldM (λ initial_population _,
           let remaining_attractions : gset Node :=
             list_to_set attractions ∖ {[start_attraction; end_attraction]} in
           candidates <- list_of_set remaining_attractions ;;
           interior <- sample candidates (Z.min (len candidates) (final_path_size - 2)) ;;
           let path := [start_attraction] ++ interior ++ [end_attraction] in
           retM (if bool_decide (path ∈ initial_population)
                 then initial_population
                 else initial_population ++ [path]))
        (range size) [].

(** ** CreateMatingPool *)

(** [min(tournament, key=lambda item: item[1])]: the first entry of least
    fitness; [min] of an empty list raises. *)
Definition min_by_fitness (tournament : list (Z * weight)) : result (Z * weight) :=
  match tournament with
  | [] => Raise ValueError
  | item :: rest =>
      Ok (fold_left (λ best y, if wltb (snd y) (snd best) then y else best) rest item)
  end.

Definition CreateMatingPool (population : list Path) (RankList : list (Z * weight))
    (tournament_size : Z) : M (list Path) :=
  foldM (λ matingPool _,
           tournament <- sample RankList tournament_size ;;
           winner <- lift (min_by_fitness tournament) ;;
           chosen <- lift (getitem population (fst winner)) ;;
           retM (matingPool ++ [chosen]))
        (range (len population)) [].

(** ** Crossover *)

(** [child.count(x)]. *)
Definition count (x : Node) (child : Path) : Z :=
  len (filter (λ y, y = x) child).

(** The repair loop over [range(1, len(child) - 1)], entered with a
    non-empty list of missing attractions. *)
Fixpoint repair (all_start_end_points : list Node) (indices : list Z)
    (child : Path) (missing_attractions : list Node) : result Path :=
  match indices with
  | [] => Ok child
  | i :: indices' =>
      c ← getitem child i;
      if bool_decide (c ∈ all_start_end_points) || (1 <? count c child) then
        '(m, missing_attractions') ← pop missing_attractions;
        child' ← setitem child i m;
        match missing_attractions' with
        | [] => Ok child'
        | _ => repair all_start_end_points indices' child' missing_attractions'
        end
      else repair all_start_end_points indices' child missing_attractions
  end.

(** The child before the repair pass. *)
Definition splice (Parent1 Parent2 : Path) (Start_Index End_Index : Z) : Path :=
  let Start_Index := Z.max Start_Index 1 in
  let End_Index := Z.min End_Index (len Parent1 - 2) in
  let p1_section := slice Parent1 Start_Index (End_Index + 1) in
  let remainder := filter (λ attraction, attraction ∉ p1_section) Parent2 in
  slice_to remainder Start_Index ++ p1_section ++ slice_from remainder Start_Index.

Definition Crossover (Parent1 Parent2 : Path) (Start_Index End_Index : Z)
    (all_start_end_points : list Node) : M Path :=
  let child := splice Parent1 Parent2 Start_Index End_Index in
  let all_attractions : gset Node :=
    list_to_set Parent1 ∖ list_to_set all_start_end_points in
  let child_attractions : gset Node := list_to_set child in
  missing_attractions <- list_of_set (all_attractions ∖ child_attractions) ;;
  match missing_attractions with
  | [] => retM child
  | _ => lift (repair all_start_end_points (range2 1 (len child - 1)) child
                 missing_attractions)
  end.

(** ** Mutate *)

Definition Mutate (Child : Path) (graph : Graph) (all_start_end_points : list Node)
    : M Path :=
  mutation_type <- choice ["reverse"; "replace"] ;;
  if bool_decide (mutation_type = "reverse") then
    if 3 <? len Child then
      start_index <- randint 1 (len Child - 3) ;;
      end_index <- randint start_index (len Child - 2) ;;
      retM (slice_assign Child start_index (end_index + 1)
              (reverse (slice Child start_index (end_index + 1))))
    else retM Child
  else if bool_decide (mutation_type = "replace") then
    if 2 <? len Child then
      let possible_replacements : gset Node :=
        dom graph ∖ list_to_set Child ∖ list_to_set all_start_end_points in
      if bool_decide (possible_replacements = ∅) then retM Child
      else
        index_to_replace <- randint 1 (len Child - 2) ;;
        replacements <- list_of_set possible_replacements ;;
        replacement_attraction <- choice replacements ;;
        lift (setitem Child index_to_replace replacement_attraction)
    else retM Child
  else retM Child.

(** ** run_genetic_algorithm *)

(** [RankList.sort(key=lambda item: item[1])]: a stable sort on fitness. *)
Fixpoint insert_by_fitness (x : Z * weight) (l : list (Z * weight)) : list (Z * weight) :=
  match l with
  | [] => [x]
  | y :: l' => if wltb (snd y) (snd x) then y :: insert_by_fitness x l' else x :: y :: l'
  end.

Definition sort_by_fitness (l : list (Z * weight)) : list (Z * weight) :=
  foldr insert_by_fitness [] l.

(** [[(i, calculate_path_distance(graph, path)) for i, path in enumerate(population)]] *)
Definition rank (graph : Graph) (population : list Path) : result (list (Z * weight)) :=
  foldR (λ acc ip, d ← calculate_path_distance graph ip.2; Ok (acc ++ [(ip.1, d)]))
        (imap (λ i path, (Z.of_nat i, path)) population) [].

Definition Qltb (x y : Q) : bool := negb (Qle_bool y x).

(** [max(a, b)] of Python: [b] only when it is strictly greater. *)
Definition pymax (a b : Q) : Q := if Qltb a b then b else a.

(** The state the driver carries from one generation to the next. *)
Record driver := Driver {
  population : list Path;
  bestPath : Path;
  bestFitness : weight
}.

(** One pass of the inner loop: two parents, a window, a child. *)
Definition breed (graph : Graph) (all_start_end_points : list Node) (mutation_rate : Q)
    (matingPool : list Path) : M Path :=
  i1 <- randint 0 (len matingPool - 1) ;;
  Parent1 <- lift (getitem matingPool i1) ;;
  i2 <- randint 0 (len matingPool - 1) ;;
  Parent2 <- lift (getitem matingPool i2) ;;
  start_index <- randint 1 (len Parent1 - 2) ;;
  end_index <- randint start_index (len Parent1 - 2) ;;
  child <- Crossover Parent1 Parent2 start_index end_index all_start_end_points ;;
  u <- random ;;
  if Qltb u mutation_rate then Mutate child graph all_start_end_points
  else retM child.

(** The record of the best path after this generation's ranking. *)
Definition record_best (st : driver) (RankList : list (Z * weight)) : result driver :=
  top ← getitem RankList 0;
  let currentBestFitness := top.2 in
  if wltb currentBestFitness (bestFitness st) then
    p ← getitem (population st) top.1;
    Ok (Driver (population st) p currentBestFitness)
  else Ok st.

(** The body of [for generation in range(generations)]. *)
Definition generation_body (graph : Graph) (initial_mutation_rate minimum_mutation_rate : Q)
    (all_start_end_points : list Node) (decay_rate : Q)
    (st : driver) (generation : Z) : M driver :=
  RankList <- lift (rank graph (population st)) ;;
  let RankList := sort_by_fitness RankList in
  let mutation_rate := (initial_mutation_rate - inject_Z generation * decay_rate)%Q in
  let mutation_rate := pymax mutation_rate minimum_mutation_rate in
  st <- lift (record_best st RankList) ;;
  matingPool <- CreateMatingPool (population st) RankList 3 ;;
  let size := len (population st) in
  newPopulation <-
    foldM (λ newPopulation _,
             child <- breed graph all_start_end_points mutation_rate matingPool ;;
             retM (newPopulation ++ [child]))
          (range (size `div` 2)) [] ;;
  let newPopulation := newPopulation ++ slice_to (population st) (size `div` 2) in
  retM (Driver newPopulation (bestPath st) (bestFitness st)).

(** [a / b] on numbers: division by zero raises. *)
Definition divide (a : Q) (b : Z) : result Q :=
  if b =? 0 then Raise ZeroDivisionError else Ok (a / inject_Z b)%Q.

(** The part of the run that precedes the loop over generations. *)
Definition initialise (graph : Graph) (initial_pop_size : Z)
    (start_attraction end_attraction : Node) (final_path_size generations : Z)
    (initial_mutation_rate minimum_mutation_rate : Q)
    (all_start_end_points : list Node) : M (Q * driver) :=
  let bestPath := [] in
  let bestFitness := Inf in
  decay_rate <- lift (divide (initial_mutation_rate - minimum_mutation_rate) generations) ;;
  population <- CreateInitialPopulation initial_pop_size graph start_attraction
                  end_attraction final_path_size all_start_end_points ;;
  retM (decay_rate, Driver population bestPath bestFitness).

Definition run_genetic_algorithm (graph : Graph) (initial_pop_size : Z)
    (start_attraction end_attraction : Node) (final_path_size generations : Z)
    (initial_mutation_rate minimum_mutation_rate : Q)
    (all_start_end_points : list Node) : M (Path * weight) :=
  init <- initialise graph initial_pop_size start_attraction end_attraction
            final_path_size generations initial_mutation_rate minimum_mutation_rate
            all_start_end_points ;;
  st <- foldM (generation_body graph initial_mutation_rate minimum_mutation_rate
                 all_start_end_points init.1)
              (range generations) init.2 ;;
  retM (bestPath st, bestFitness st).

(** ** Definitions used to state the properties *)

(** The consecutive pairs [(path[i], path[i+1])] of a path. *)
Definition segments (path : Path) : list (Node * Node) := zip path (tail path).

(** The cost of a path in the words of the specification: the sum, taken
    from left to right, of the weights of its consecutive pairs, where a
    pair without an edge weighs [Inf]. *)
Definition path_cost (graph : Graph) (path : Path) : weight :=
  fold_left (λ total ab, wadd total (calculate_distance_attraction graph ab.1 ab.2))
            (segments path) (Fin 0).

(** The nodes between the two ends of a path. *)
Definition interior (path : Path) : Path := removelast (tail path).

(** The nodes a path may hold in its interior: the nodes of the graph,
    minus the anchor set, minus the two ends. *)
Definition interior_universe (graph : Graph) (all_start_end_points : list Node)
    (start_attraction end_attraction : Node) : gset Node :=
  dom graph ∖ list_to_set all_start_end_points ∖ {[start_attraction; end_attraction]}.

(** [winner] is an entry of least fitness of a tournament of
    [tournament_size] entries drawn without replacement from the rank list. *)
Definition wins_tournament (RankList : list (Z * weight)) (tournament_size : Z)
    (winner : Z * weight) : Prop :=
  ∃ tournament,
    len tournament = tournament_size ∧
    tournament ⊆+ RankList ∧
    winner ∈ tournament ∧
    ∀ item, item ∈ tournament → wle winner.2 item.2.

(** A valid candidate path for a start, an end and an anchor set: the start
    at position 0, the end at the last position and, between the two,
    pairwise distinct nodes none of which is an anchor. *)
Definition valid_path (start_attraction end_attraction : Node)
    (all_start_end_points : list Node) (path : Path) : Prop :=
  (2 ≤ length path)%nat ∧
  head path = Some start_attraction ∧
  last path = Some end_attraction ∧
  NoDup (interior path) ∧
  Forall (λ x, x ∉ all_start_end_points) (interior path).

(** The driver states at the entry of each generation of the loop
    [for generation in range(generations)], in order: the states whose
    population is evaluated. The state left by the last generation is the
    result of [foldM] on the same body. *)
Fixpoint trace (body : driver → Z → M driver) (gens : list Z) (st : driver)
    : M (list driver) :=
  match gens with
  | [] => retM []
  | g :: gens' =>
      st' <- body st g ;;
      rest <- trace body gens' st' ;;
      retM (st :: rest)
  end.

(** How the best-so-far record of [st'] stands to that of [st] and to the
    population of [st], after the generation that leads from [st] to [st']:
    no path of the population is fitter than the record, the recorded
    fitness has not grown, and the record is either untouched or replaced
    by a strictly fitter path of the population. *)
Definition records_best (graph : Graph) (st st' : driver) : Prop :=
  (∀ path, path ∈ population st →
           ∃ d, calculate_path_distance graph path = Ok d ∧ wle (bestFitness st') d) ∧
  wle (bestFitness st') (bestFitness st) ∧
  ((bestPath st' = bestPath st ∧ bestFitness st' = bestFitness st) ∨
   (wlt (bestFitness st') (bestFitness st) ∧
    bestPath st' ∈ population st ∧
    calculate_path_distance graph (bestPath st') = Ok (bestFitness st'))).

(** A path the driver can evaluate and breed from: no node twice, at
    least three nodes, every node a key of the graph. *)
Definition breedable (graph : Graph) (path : Path) : Prop :=
  NoDup path ∧ (3 ≤ length path)%nat ∧ Forall (λ x, x ∈ dom graph) path.

(** A driver state from which a generation runs to its end: at least four
    paths, all of them breedable. *)
Definition viable (graph : Graph) (st : driver) : Prop :=
  (4 ≤ length (population st))%nat ∧ Forall (breedable graph) (population st).

#[global] Instance valid_path_dec s e anchors path :
  Decision (valid_path s e anchors path).
Proof. unfold valid_path. apply _. Defined.

#[global] Instance breedable_dec graph path : Decision (breedable graph path).
Proof. unfold breedable. apply _. Defined.

#[global] Instance viable_dec graph st : Decision (viable graph st).
Proof. unfold viable. apply _. Defined.

(** ** Worked examples *)

(** Five attractions; [A] and [D] serve as the two ends. *)
Definition example_graph : Graph :=
  list_to_map
    [("A", list_to_map [("B", 1); ("C", 5); ("E", 2); ("D", 10)]);
     ("B", list_to_map [("A", 1); ("C", 1); ("E", 1); ("D", 1)]);
     ("C", list_to_map [("A", 5); ("B", 1); ("E", 1); ("D", 7)]);
     ("E", list_to_map [("A", 2); ("B", 1); ("C", 1); ("D", 3)]);
     ("D", list_to_map [("A", 10); ("B", 1); ("C", 7); ("E", 3)])]%Q.

(** The same attractions with no road out of [A] but the one to [B]. *)
Definition sparse_graph : Graph :=
  <["A" := {["B" := 1%Q]}]> example_graph.

(** The same attractions with no road at all. *)
Definition roadless_graph : Graph :=
  list_to_map ((λ a, (a, ∅)) <$> ["A"; "B"; "C"; "D"; "E"]).

(** Four paths of fitness 9, 7, 5 and 4, the worst ones first. *)
Definition example_population : list Path :=
  [["A"; "B"; "C"; "D"]; ["A"; "C"; "B"; "D"]; ["A"; "B"; "E"; "D"]; ["A"; "E"; "B"; "D"]].

(** An outcome of the draws for which the population factory, asked for
    four paths of length 5, makes four different ones. *)
Definition example_tape : tape :=
  [0; 0; 0; 0; 0; 0; 0; 0; 0; 1; 0; 0; 0; 0; 0; 2; 0; 0; 0; 0; 0; 0; 1; 0;
   3; 1; 2; 5; 7; 1; 2; 2; 0; 1; 4; 4503599627370496; 1; 1; 1; 1; 1; 0; 3;
   2; 1; 5; 4; 3; 2; 1].

(** An outcome of the draws for which the factory makes four different
    paths when four nodes are available for three interior positions. *)
Definition wide_tape : tape :=
  [0; 0; 0; 0; 0; 0; 0; 0; 0; 0; 0; 1; 0; 0; 0; 0; 0; 0; 2; 0; 0; 0; 0; 0; 0;
   3; 0; 0].

(** ** create_graph_with_manhattan_distances *)

(** A place: the three attributes the source reads, [name], [lat], [lon]. *)
Record place := Place {
  name : string;
  lat : Q;
  lon : Q
}.

(** [enumerate(l)]. *)
Definition enumerate {A} (l : list A) : list (nat * A) := imap (λ i x, (i, x)) l.

(** The graph is built row by row. Line 19 binds the name of [place1] to a
    fresh empty row, dropping any row an earlier place of the same name had;
    line 25 then writes into that row, so the subscript [graph[attraction1]]
    finds it and [alter] models the update. *)
Definition create_graph_with_manhattan_distances (places : list place) : Graph :=
  fold_left
    (λ graph ip1,
       let attraction1 := name ip1.2 in
       let graph := <[attraction1 := ∅]> graph in
       fold_left
         (λ graph jp2,
            let attraction2 := name jp2.2 in
            if bool_decide (ip1.1 ≠ jp2.1) then
              let distance :=
                (Qabs (lat ip1.2 - lat jp2.2) + Qabs (lon ip1.2 - lon jp2.2))%Q in
              alter (insert attraction2 distance) attraction1 graph
            else graph)
         (enumerate places) graph)
    (enumerate places) ∅.

(** ** The mutation rate of a generation *)

(** Lines 48, 55 and 56 of [run_genetic_algorithm]: the rate that
    [generation_body] hands to [breed], with the decay rate written out. *)
Definition mutation_rate (initial_mutation_rate minimum_mutation_rate : Q)
    (generations generation : Z) : Q :=
  let decay_rate :=
    ((initial_mutation_rate - minimum_mutation_rate) / inject_Z generations)%Q in
  let mutation_rate := (initial_mutation_rate - inject_Z generation * decay_rate)%Q in
  pymax mutation_rate minimum_mutation_rate.

(** ** Further definitions used to state properties *)

(** The Manhattan distance between two places. *)
Definition manhattan (p q : place) : Q :=
  (Qabs (lat p - lat q) + Qabs (lon p - lon q))%Q.

(** The weight of the edge from [a] to [b], if the graph has one. *)
Definition edge (graph : Graph) (a b : Node) : option Q :=
  graph !! a ≫= λ row, row !! b.

(** A path from [s] to [e] that visits every node of [universe] once and
    nothing else in between. *)
Definition full_tour (s e : Node) (universe : gset Node) (path : Path) : Prop :=
  (2 ≤ length path)%nat ∧
  head path = Some s ∧
  last path = Some e ∧
  interior path ≡ₚ elements universe.

(** What the inner loop of [create_graph_with_manhattan_distances] leaves in
    the row of the place at index [ip1.1]: one entry for every place at
    another index. *)
Definition row_of (places : list place) (ip1 : nat * place) : gmap string Q :=
  fold_left (λ row jp2, <[name jp2.2 := manhattan ip1.2 jp2.2]> row)
            (filter (λ jp2, ip1.1 ≠ jp2.1) (enumerate places)) ∅.

(** Four places on a grid. *)
Definition example_places : list place :=
  [Place "A" 0 0; Place "B" 3 4; Place "C" 1 1; Place "D" 6 0]%Q.

(** Three places, two of which bear the same name. *)
Definition homonymous_places : list place :=
  [Place "A" 0 0; Place "B" 3 4; Place "A" 1 1]%Q.

(** An outcome of the draws for which a run over [example_graph] with six
    paths of four nodes returns: three attractions compete for the two
    interior positions of a path. *)
Definition general_tape : tape :=
  [0; 0; 0; 0; 0; 0; 1; 0; 0; 0; 0; 0; 2; 1; 0; 0; 1; 0; 1; 2; 0; 0; 2; 1; 1; 2;
   0; 0; 3; 1; 2; 5; 7; 1; 2; 2; 0; 1; 4; 4503599627370496; 1; 1; 1; 1; 1; 0; 3;
   2; 1; 5; 4; 3; 2; 1; 7; 3; 9; 2; 8; 1; 0; 4; 6; 5; 3; 2; 7; 1; 9; 8; 4; 4; 2;
   1; 3; 5].

(** * Verification *)

(** ** The monads *)

Lemma bindM_Ok {A B} (c : M A) (k : A → M B) t b t' :
  bindM c k t = Ok (b, t') ↔ ∃ a t1, c t = Ok (a, t1) ∧ k a t1 = Ok (b, t').
Proof.
  unfold bindM. split.
  - destruct (c t) as [[a t1]|e]; [eauto | discriminate].
  - intros (a & t1 & -> & Hk). exact Hk.
Qed.

Lemma bindM_step {A B} (c : M A) (k : A → M B) t a t1 :
  c t = Ok (a, t1) → bindM c k t = k a t1.
Proof. unfold bindM. intros ->. reflexivity. Qed.

Lemma bindM_Raise {A B} (c : M A) (k : A → M B) t e :
  c t = Raise e → bindM c k t = Raise e.
Proof. unfold bindM. intros ->. reflexivity. Qed.

Lemma lift_Ok {A} (r : result A) t a t' :
  lift r t = Ok (a, t') ↔ r = Ok a ∧ t' = t.
Proof.
  unfold lift. destruct r; split; try discriminate; try (intros [? _]; discriminate).
  - intros [= -> ->]. done.
  - intros [[= ->] ->]. done.
Qed.

Lemma retM_Ok {A} (a b : A) t t' : retM a t = Ok (b, t') ↔ b = a ∧ t' = t.
Proof. unfold retM. split; [intros [= -> ->]; done | intros [-> ->]; done]. Qed.

Lemma next_total t : ∃ r t', next t = Ok (r, t').
Proof. destruct t; simpl; eauto. Qed.

(** Decompose a hypothesis saying that a monadic computation returned. *)
Ltac inv_M H :=
  match type of H with
  | bindM _ _ _ = Ok _ =>
      let a := fresh "a" in let t := fresh "t" in
      let H1 := fresh "Hc" in let H2 := fresh "Hk" in
      apply bindM_Ok in H; destruct H as (a & t & H1 & H2);
      try inv_M H1; cbv beta in H2; try inv_M H2
  | lift _ _ = Ok _ =>
      let H1 := fresh "Hr" in
      apply lift_Ok in H; destruct H as [H1 ->]
  | retM _ _ = Ok _ => apply retM_Ok in H; destruct H as [-> ->]
  | raiseM _ _ = Ok _ => discriminate H
  end.

(** A fold that preserves an invariant at every step preserves it overall;
    the invariant may mention the number of steps taken so far. *)
Lemma foldM_invariant_at {A B} (I : nat → A → Prop) (f : A → B → M A) l :
  (∀ k a b t a' t', b ∈ l → I k a → f a b t = Ok (a', t') → I (S k) a') →
  ∀ k a t a' t', I k a → foldM f l a t = Ok (a', t') → I (k + length l)%nat a'.
Proof.
  induction l as [|b l IH]; intros Hstep k a t a' t' Ha H; simpl in H.
  - inv_M H. simpl. by rewrite Nat.add_0_r.
  - apply bindM_Ok in H as (a1 & t1 & H1 & H2). simpl.
    replace (k + S (length l))%nat with (S k + length l)%nat by lia.
    eapply IH; [| |exact H2].
    + intros. eapply Hstep; eauto. by right.
    + eapply Hstep; eauto. by left.
Qed.

Lemma foldM_invariant {A B} (I : A → Prop) (f : A → B → M A) l :
  (∀ a b t a' t', b ∈ l → I a → f a b t = Ok (a', t') → I a') →
  ∀ a t a' t', I a → foldM f l a t = Ok (a', t') → I a'.
Proof.
  intros Hstep a t a' t' Ha H.
  apply (foldM_invariant_at (λ _, I) f l) with (k := 0%nat) in H; eauto.
Qed.

(** A fold whose every step returns on states satisfying the invariant returns. *)
Lemma foldM_total_at {A B} (I : nat → A → Prop) (f : A → B → M A) l :
  (∀ k a b t, b ∈ l → I k a → ∃ a' t', f a b t = Ok (a', t') ∧ I (S k) a') →
  ∀ k a t, I k a → ∃ a' t', foldM f l a t = Ok (a', t') ∧ I (k + length l)%nat a'.
Proof.
  induction l as [|b l IH]; intros Hstep k a t Ha; simpl.
  - eexists _, _. split; [reflexivity | by rewrite Nat.add_0_r].
  - destruct (Hstep k a b t) as (a1 & t1 & H1 & Ha1); [by left | done |].
    rewrite (bindM_step _ _ _ _ _ H1).
    replace (k + S (length l))%nat with (S k + length l)%nat by lia.
    apply IH; [|done]. intros. apply Hstep; [by right | done].
Qed.

Lemma foldM_total {A B} (I : A → Prop) (f : A → B → M A) l :
  (∀ a b t, b ∈ l → I a → ∃ a' t', f a b t = Ok (a', t') ∧ I a') →
  ∀ a t, I a → ∃ a' t', foldM f l a t = Ok (a', t') ∧ I a'.
Proof.
  intros Hstep a t Ha.
  apply (foldM_total_at (λ _, I) f l) with (k := 0%nat); eauto.
Qed.

(** A fold whose first step raises, raises. *)
Lemma foldM_first_raises {A B} (f : A → B → M A) b l a t e :
  f a b t = Raise e → foldM f (b :: l) a t = Raise e.
Proof. intros H. simpl. by apply bindM_Raise. Qed.

(** ** Python lists *)

Section pylist_facts.
Context {A : Type}.
Implicit Types (l v : list A) (i lo hi : Z).

Lemma len_nonneg l : 0 ≤ len l.
Proof. unfold len. lia. Qed.

Lemma getitem_lookup l (n : nat) x :
  l !! n = Some x → getitem l (Z.of_nat n) = Ok x.
Proof.
  intros H. unfold getitem.
  destruct (Z.ltb_spec (Z.of_nat n) 0) as [|_]; [lia|].
  destruct (Z.ltb_spec (Z.of_nat n) 0) as [|_]; [lia|].
  rewrite Nat2Z.id, H. reflexivity.
Qed.

Lemma getitem_nonneg l i x :
  0 ≤ i → getitem l i = Ok x ↔ l !! Z.to_nat i = Some x.
Proof.
  intros Hi. unfold getitem.
  destruct (Z.ltb_spec i 0) as [|_]; [lia|].
  destruct (Z.ltb_spec i 0) as [|_]; [lia|].
  destruct (l !! Z.to_nat i); split; congruence.
Qed.

Lemma getitem_elem_of l i x : getitem l i = Ok x → x ∈ l.
Proof.
  unfold getitem. destruct (_ <? 0); [discriminate|].
  destruct (l !! _) eqn:E; [|discriminate].
  intros [= <-]. by eapply list_elem_of_lookup_2.
Qed.

Lemma getitem_in_range l i :
  0 ≤ i < len l → ∃ x, getitem l i = Ok x ∧ l !! Z.to_nat i = Some x.
Proof.
  intros Hi. unfold len in Hi.
  destruct (lookup_lt_is_Some_2 l (Z.to_nat i)) as [x Hx]; [lia|].
  exists x. split; [|done]. apply getitem_nonneg; [lia | done].
Qed.

Lemma getitem_valid l i : - len l ≤ i < len l → ∃ x, getitem l i = Ok x ∧ x ∈ l.
Proof.
  intros Hi. unfold getitem.
  destruct (Z.ltb_spec i 0).
  - destruct (Z.ltb_spec (len l + i) 0); [lia|].
    destruct (lookup_lt_is_Some_2 l (Z.to_nat (len l + i))) as [x Hx].
    { unfold len in *. lia. }
    rewrite Hx. exists x. split; [done|]. by eapply list_elem_of_lookup_2.
  - destruct (Z.ltb_spec i 0); [lia|].
    destruct (lookup_lt_is_Some_2 l (Z.to_nat i)) as [x Hx].
    { unfold len in *. lia. }
    rewrite Hx. exists x. split; [done|]. by eapply list_elem_of_lookup_2.
Qed.

Lemma setitem_nonneg l i x :
  0 ≤ i < len l → setitem l i x = Ok (<[Z.to_nat i := x]> l).
Proof.
  intros Hi. unfold setitem.
  destruct (Z.ltb_spec i 0); [lia|].
  destruct (Z.ltb_spec i 0); [lia|].
  destruct (Z.leb_spec (len l) i); [lia|]. reflexivity.
Qed.

Lemma clip_inside l i : 0 ≤ i ≤ len l → clip l i = Z.to_nat i.
Proof.
  intros Hi. unfold clip.
  destruct (Z.ltb_spec i 0); [lia|]. f_equal. lia.
Qed.

Lemma clip_nonneg l i : 0 ≤ i → clip l i = (Z.to_nat i `min` length l)%nat.
Proof. intros Hi. unfold clip, len. destruct (Z.ltb_spec i 0); lia. Qed.

Lemma clip_upper l i : i ≤ len l - 1 → (clip l i ≤ length l - 1)%nat.
Proof. unfold clip, len. intros. destruct (Z.ltb_spec i 0); lia. Qed.
End pylist_facts.

Lemma range_length n : length (range n) = Z.to_nat n.
Proof. unfold range. by rewrite length_fmap, length_seq. Qed.

Lemma range_nonempty n : 0 < n → ∃ l, range n = 0 :: l.
Proof.
  intros Hn. unfold range. destruct (Z.to_nat n) as [|k] eqn:E; [lia|].
  simpl. eauto.
Qed.

Lemma range_empty n : n ≤ 0 → range n = [].
Proof. intros Hn. unfold range. by replace (Z.to_nat n) with 0%nat by lia. Qed.

(** ** Weights *)

Lemma wadd_Inf_r w : wadd w Inf = Inf.
Proof. by destruct w. Qed.

Lemma sum_from_Inf {B} (f : B → weight) l :
  fold_left (λ total x, wadd total (f x)) l Inf = Inf.
Proof. induction l as [|x l IH]; simpl; [done | exact IH]. Qed.

Lemma sum_with_Inf {B} (f : B → weight) l x total :
  x ∈ l → f x = Inf → fold_left (λ total x, wadd total (f x)) l total = Inf.
Proof.
  intros Hin Hx. revert total.
  induction Hin as [x l | x y l Hin IH]; intros total; simpl.
  - rewrite Hx, wadd_Inf_r. apply sum_from_Inf.
  - apply IH, Hx.
Qed.

Lemma wltb_true a b : wltb a b = true → wlt a b.
Proof.
  destruct a as [x|], b as [y|]; simpl; try done.
  intros H%negb_true_iff. apply Qnot_le_lt. intros Hle%Qle_bool_iff. congruence.
Qed.

Lemma wltb_false a b : wltb a b = false → wle b a.
Proof.
  destruct a as [x|], b as [y|]; simpl; try done.
  intros H%negb_false_iff. by apply Qle_bool_iff.
Qed.

Lemma wlt_wle a b : wlt a b → wle a b.
Proof. destruct a, b; simpl; try done. apply Qlt_le_weak. Qed.

Lemma wle_refl a : wle a a.
Proof. destruct a; simpl; [apply Qle_refl | done]. Qed.

Lemma wle_trans a b c : wle a b → wle b c → wle a c.
Proof. destruct a, b, c; simpl; try done. apply Qle_trans. Qed.

(** ** calculate_path_distance *)

Lemma result_bind_Ok {A B} (f : A → result B) (a : A) : Ok a ≫= f = f a.
Proof. reflexivity. Qed.

Lemma subscript_Some (graph : Graph) a row :
  graph !! a = Some row → subscript graph a = Ok row.
Proof. unfold subscript. by intros ->. Qed.

Lemma segments_lookup (path : Path) i a b :
  path !! i = Some a → path !! S i = Some b → segments path !! i = Some (a, b).
Proof.
  intros Ha Hb. unfold segments.
  apply lookup_zip_with_Some. exists a, b. by rewrite lookup_tail.
Qed.

Lemma segments_length (path : Path) : length (segments path) = (length path - 1)%nat.
Proof. unfold segments. rewrite length_zip_with. destruct path; cbn [length tail]; lia. Qed.

Lemma removelast_lookup {A} (l : list A) i a :
  (i + 1 < length l)%nat → l !! i = Some a → a ∈ removelast l.
Proof.
  intros Hi Ha. rewrite removelast_firstn_len.
  apply list_elem_of_lookup. exists i. rewrite lookup_take_lt; [done | lia].
Qed.

(** The loop of [calculate_path_distance], started at index [s] with the
    running total [total]. *)
Lemma distance_loop (graph : Graph) (path : Path) n s total :
  (s + n = length path - 1)%nat →
  Forall (λ a, is_Some (graph !! a)) (removelast path) →
  foldR (λ total_distance i,
           a ← getitem path i;
           row ← subscript graph a;
           b ← getitem path (i + 1);
           Ok (wadd total_distance (get_or_inf row b)))
        (Z.of_nat <$> seq s n) total
  = Ok (fold_left (λ total ab, wadd total (calculate_distance_attraction graph ab.1 ab.2))
          (drop s (segments path)) total).
Proof.
  intros Hn Hkeys. revert s total Hn.
  induction n as [|n IH]; intros s total Hn; simpl.
  - rewrite drop_ge; [done | rewrite segments_length; lia].
  - destruct (lookup_lt_is_Some_2 path s) as [a Ha]; [lia|].
    destruct (lookup_lt_is_Some_2 path (S s)) as [b Hb]; [lia|].
    assert (is_Some (graph !! a)) as [row Hrow].
    { eapply (proj1 (Forall_forall _ _) Hkeys), removelast_lookup; [|exact Ha]. lia. }
    cbn [seq fmap list_fmap foldR].
    rewrite (getitem_lookup _ _ _ Ha), (result_bind_Ok _ a).
    rewrite (subscript_Some _ _ _ Hrow), (result_bind_Ok _ row).
    replace (Z.of_nat s + 1) with (Z.of_nat (S s)) by lia.
    rewrite (getitem_lookup _ _ _ Hb), !result_bind_Ok.
    rewrite IH by lia.
    rewrite (drop_S _ (a, b) s) by (by apply segments_lookup).
    cbn [fold_left fst snd].
    do 3 f_equal. unfold calculate_distance_attraction. by rewrite Hrow.
Qed.

Lemma calculate_path_distance_total (graph : Graph) (path : Path) :
  Forall (λ a, is_Some (graph !! a)) (removelast path) →
  calculate_path_distance graph path = Ok (path_cost graph path).
Proof.
  intros Hkeys. unfold calculate_path_distance, range, path_cost.
  rewrite (distance_loop graph path _ 0 (Fin 0)); [done | | done].
  unfold len. lia.
Qed.

(** C7. When every node of the path but the last is a key of the graph,
    [calculate_path_distance] raises nothing and returns the sum over the
    consecutive pairs [(path[i], path[i+1])] of the weight of their edge,
    a pair without an edge counting for +infinity; so one such pair makes
    the fitness of the whole path +infinity. The function is pure: its
    result is a value, and neither the graph nor the path is part of it. *)
Theorem calculate_path_distance_sums_edges (graph : Graph) (path : Path) :
  Forall (λ a, is_Some (graph !! a)) (removelast path) →
  calculate_path_distance graph path = Ok (path_cost graph path) ∧
  (∀ a b, (a, b) ∈ segments path →
          calculate_distance_attraction graph a b = Inf →
          calculate_path_distance graph path = Ok Inf).
Proof.
  intros Hkeys.
  pose proof (calculate_path_distance_total graph path Hkeys) as Heq.
  split; [exact Heq|].
  intros a b Hin Hinf. rewrite Heq. f_equal. unfold path_cost.
  by apply (sum_with_Inf (λ ab, calculate_distance_attraction graph ab.1 ab.2) _ (a, b)).
Qed.

(** ** The module [random] *)

Lemma randint_total a b t : a ≤ b → ∃ z t', randint a b t = Ok (z, t') ∧ a ≤ z ≤ b.
Proof.
  intros Hab. unfold randint. destruct (Z.ltb_spec b a) as [|_]; [lia|].
  destruct (next_total t) as (r & t' & Hr).
  rewrite (bindM_step _ _ _ _ _ Hr). eexists _, _. split; [reflexivity|].
  pose proof (Z.mod_pos_bound r (b - a + 1)). lia.
Qed.

Lemma choice_total {A} (l : list A) t : l ≠ [] → ∃ x t', choice l t = Ok (x, t') ∧ x ∈ l.
Proof.
  intros Hl. unfold choice. destruct l as [|y l]; [done|].
  destruct (next_total t) as (r & t' & Hr). rewrite (bindM_step _ _ _ _ _ Hr).
  destruct (getitem_in_range (y :: l) (r `mod` len (y :: l))) as (x & Hx & Hx').
  { apply Z.mod_pos_bound. unfold len. simpl. lia. }
  exists x, t'. unfold lift. rewrite Hx. split; [done|].
  by eapply list_elem_of_lookup_2.
Qed.

Lemma submseteq_NoDup {A} (l k : list A) : l ⊆+ k → NoDup k → NoDup l.
Proof.
  intros [k' Hk]%submseteq_Permutation. rewrite Hk, NoDup_app. tauto.
Qed.

Lemma draw_Ok {A} k (l : list A) t r t' :
  draw k l t = Ok (r, t') → length r = k ∧ r ⊆+ l.
Proof.
  revert l t r t'. induction k as [|k IH]; intros l t r t' H; simpl in H.
  - inv_M H. split; [done | apply submseteq_nil_l].
  - inv_M H.
    apply (getitem_nonneg _ _ _ (Nat2Z.is_nonneg _)) in Hr. rewrite Nat2Z.id in Hr.
    apply IH in Hc0 as [Hlen Hsub]. split; [simpl; lia|].
    rewrite (delete_Permutation _ _ _ Hr). by apply submseteq_skip.
Qed.

Lemma draw_total {A} k (l : list A) t :
  (k ≤ length l)%nat → ∃ r t', draw k l t = Ok (r, t').
Proof.
  revert l t. induction k as [|k IH]; intros l t Hk; simpl.
  - by eexists _, _.
  - destruct (next_total t) as (r & t1 & Hr). rewrite (bindM_step _ _ _ _ _ Hr).
    destruct (getitem_in_range l (r `mod` len l)) as (x & Hx & Hx').
    { apply Z.mod_pos_bound. unfold len. lia. }
    rewrite Z2Nat.id by (apply Z.mod_pos_bound; unfold len; lia).
    erewrite (bindM_step (lift _)); [|unfold lift; by rewrite Hx].
    destruct (IH (delete (Z.to_nat (r `mod` len l)) l) t1) as (rest & t2 & Hrest).
    { rewrite length_delete by eauto. lia. }
    rewrite (bindM_step _ _ _ _ _ Hrest). by eexists _, _.
Qed.

(** The oracle is adequate: every integer of the range is an outcome of
    [randint], and every selection without replacement is an outcome of
    [draw], hence every sample and every order of a set. *)
Lemma randint_reaches a b z t' :
  a ≤ z ≤ b → ∃ t, randint a b (t ++ t') = Ok (z, t').
Proof.
  intros Hz. exists [z - a]. unfold randint.
  destruct (Z.ltb_spec b a) as [|_]; [lia|]. simpl. unfold bindM, retM. simpl.
  rewrite Z.mod_small by lia. do 2 f_equal. lia.
Qed.

Lemma draw_reaches {A} (r l : list A) t' :
  r ⊆+ l → ∃ t, draw (length r) l (t ++ t') = Ok (r, t').
Proof.
  revert l. induction r as [|x r IH]; intros l Hsub; [by exists []|].
  apply submseteq_cons_l in Hsub as (k & Hk & Hsub).
  assert (x ∈ l) as [i Hi]%list_elem_of_lookup by (rewrite Hk; by left).
  assert (r ⊆+ delete i l) as Hrest.
  { rewrite (delete_Permutation _ _ _ Hi) in Hk.
    apply Permutation_cons_inv in Hk. by rewrite Hk. }
  destruct (IH _ Hrest) as [t Ht]. exists (Z.of_nat i :: t).
  pose proof (lookup_lt_Some _ _ _ Hi) as Hlt.
  cbn [length draw app].
  rewrite (bindM_step next _ _ (Z.of_nat i) (t ++ t')) by reflexivity.
  rewrite Z.mod_small by (unfold len; lia). rewrite Nat2Z.id.
  erewrite (bindM_step (lift _)); [|unfold lift; by rewrite (getitem_lookup _ _ _ Hi)].
  by rewrite (bindM_step _ _ _ _ _ Ht).
Qed.

Lemma sample_Ok {A} (l : list A) k t r t' :
  sample l k t = Ok (r, t') → 0 ≤ k ≤ len l ∧ len r = k ∧ r ⊆+ l.
Proof.
  unfold sample.
  destruct (Z.ltb_spec k 0); [discriminate|].
  destruct (Z.ltb_spec (len l) k); [discriminate|]. simpl.
  intros [Hlen Hsub]%draw_Ok. unfold len. split; [unfold len in *; lia|].
  split; [lia | done].
Qed.

Lemma sample_total {A} (l : list A) k t :
  0 ≤ k ≤ len l → ∃ r t', sample l k t = Ok (r, t').
Proof.
  intros Hk. unfold sample.
  destruct (Z.ltb_spec k 0); [lia|].
  destruct (Z.ltb_spec (len l) k); [lia|]. simpl.
  apply draw_total. unfold len in Hk. lia.
Qed.

Lemma sample_zero {A} (l : list A) t : sample l 0 t = Ok ([], t).
Proof.
  unfold sample. destruct (Z.ltb_spec (len l) 0) as [H|_]; [|done].
  pose proof (len_nonneg l). lia.
Qed.

Lemma sample_invalid {A} (l : list A) k t :
  k < 0 ∨ len l < k → sample l k t = Raise ValueError.
Proof.
  intros Hk. unfold sample.
  destruct (Z.ltb_spec k 0); [done|].
  destruct (Z.ltb_spec (len l) k); [done | lia].
Qed.

Lemma list_of_set_Ok (s : gset Node) t l t' :
  list_of_set s t = Ok (l, t') → l ≡ₚ elements s.
Proof.
  unfold list_of_set. intros [Hlen Hsub]%draw_Ok.
  apply submseteq_length_Permutation; [done | lia].
Qed.

Lemma list_of_set_total (s : gset Node) t :
  ∃ l t', list_of_set s t = Ok (l, t') ∧ l ≡ₚ elements s.
Proof.
  destruct (draw_total (length (elements s)) (elements s) t) as (l & t' & H); [done|].
  exists l, t'. split; [exact H|]. by eapply list_of_set_Ok.
Qed.

(** ** Mutate *)

(** Replacing the segment [a .. b) of a list by as many elements, strictly
    inside the list, keeps its length and its two ends. *)
Lemma replace_segment_frame {A} (l v : list A) (a b : nat) :
  (0 < a)%nat → (a ≤ b)%nat → (b < length l)%nat → length v = (b - a)%nat →
  let l' := take a l ++ v ++ drop b l in
  length l' = length l ∧ head l' = head l ∧ last l' = last l.
Proof.
  intros Ha Hab Hb Hv l'.
  assert (length l' = length l) as Hlen.
  { unfold l'. rewrite !length_app, length_take, length_drop. lia. }
  split; [exact Hlen|]. split.
  - unfold l'. rewrite !head_lookup, lookup_app_l by (rewrite length_take; lia).
    apply lookup_take_lt. lia.
  - rewrite !last_lookup, Hlen. unfold l'.
    rewrite lookup_app_r by (rewrite length_take; lia).
    rewrite lookup_app_r by (rewrite length_take; lia).
    rewrite lookup_drop, length_take. f_equal. lia.
Qed.

Lemma insert_frame {A} (l : list A) (i : nat) x :
  (0 < i)%nat → (i + 1 < length l)%nat →
  length (<[i:=x]> l) = length l ∧ head (<[i:=x]> l) = head l ∧
  last (<[i:=x]> l) = last l.
Proof.
  intros Hi Hl. rewrite !head_lookup, !last_lookup, length_insert.
  split; [done|]. split; apply list_lookup_insert_ne; lia.
Qed.

(** The three things [Mutate] can do: nothing, reverse a segment strictly
    inside the path, or write a node that is new to the path at a position
    strictly inside it. *)
Lemma Mutate_cases (Child : Path) (graph : Graph) (all_start_end_points : list Node)
    (t : tape) :
  ∃ Child' t',
    Mutate Child graph all_start_end_points t = Ok (Child', t') ∧
    (Child' = Child ∨
     (∃ a b : nat,
        (0 < a)%nat ∧ (a ≤ b)%nat ∧ (b < length Child)%nat ∧
        Child' = take a Child ++ reverse (take (b - a) (drop a Child)) ++ drop b Child) ∨
     (∃ (i : nat) (x : Node),
        (0 < i)%nat ∧ (i + 1 < length Child)%nat ∧
        x ∈ dom graph ∧ (x ∉ Child) ∧ (x ∉ all_start_end_points) ∧
        Child' = <[i:=x]> Child)).
Proof.
  unfold Mutate.
  destruct (choice_total ["reverse"; "replace"] t) as (m & t1 & Hm & Hin); [done|].
  rewrite (bindM_step _ _ _ _ _ Hm).
  case_bool_decide as Hrev.
  - (* reversal of an interior segment *)
    destruct (Z.ltb_spec 3 (len Child)) as [Hlen|_]; [|eexists _, _; eauto].
    destruct (randint_total 1 (len Child - 3) t1) as (s & t2 & Hs & Hs'); [lia|].
    rewrite (bindM_step _ _ _ _ _ Hs).
    destruct (randint_total s (len Child - 2) t2) as (e & t3 & He & He'); [lia|].
    rewrite (bindM_step _ _ _ _ _ He).
    eexists _, _. split; [reflexivity|]. right. left.
    exists (Z.to_nat s), (Z.to_nat (e + 1)).
    unfold slice_assign, slice. rewrite !clip_inside by lia.
    rewrite Nat.max_r by lia. unfold len in *.
    split; [lia|]. split; [lia|]. split; [lia | done].
  - case_bool_decide as Hrep; [|eexists _, _; eauto].
    (* replacement of one interior node *)
    destruct (Z.ltb_spec 2 (len Child)) as [Hlen|_]; [|eexists _, _; eauto].
    case_bool_decide as Hnone; [eexists _, _; eauto|].
    destruct (randint_total 1 (len Child - 2) t1) as (i & t2 & Hi & Hi'); [lia|].
    rewrite (bindM_step _ _ _ _ _ Hi).
    match goal with |- context [list_of_set ?s] =>
      destruct (list_of_set_total s t2) as (l & t3 & Hl & Hperm) end.
    rewrite (bindM_step _ _ _ _ _ Hl).
    destruct (choice_total l t3) as (x & t4 & Hx & Hxl).
    { intros ->. apply Hnone, leibniz_equiv, elements_empty_inv.
      symmetry in Hperm. by apply Permutation_nil_r in Hperm. }
    rewrite (bindM_step _ _ _ _ _ Hx).
    unfold lift. rewrite setitem_nonneg by lia.
    eexists _, _. split; [reflexivity|]. right. right.
    exists (Z.to_nat i), x.
    rewrite Hperm, elem_of_elements, !elem_of_difference, !elem_of_list_to_set in Hxl.
    unfold len in *. split; [lia|]. split; [lia|]. tauto.
Qed.

(** C9. Whatever the random draws, [Mutate] returns a path, and that path
    has the length of its argument, the same node at position 0 and the
    same node at the last position. *)
Theorem Mutate_keeps_length_and_ends (Child : Path) (graph : Graph)
    (all_start_end_points : list Node) (t : tape) :
  ∃ Child' t',
    Mutate Child graph all_start_end_points t = Ok (Child', t') ∧
    length Child' = length Child ∧
    head Child' = head Child ∧
    last Child' = last Child.
Proof.
  destruct (Mutate_cases Child graph all_start_end_points t)
    as (Child' & t' & Hrun & Hcase).
  exists Child', t'. split; [exact Hrun|].
  destruct Hcase as [->|[(a & b & Ha & Hab & Hb & ->)|(i & x & Hi & Hi' & _ & _ & _ & ->)]].
  - done.
  - apply replace_segment_frame; [done..|].
    rewrite length_reverse, length_take, length_drop. lia.
  - by apply insert_frame.
Qed.

(** ** CreateInitialPopulation *)

Lemma interior_shape (s e : Node) (i : Path) : interior (s :: i ++ [e]) = i.
Proof. unfold interior. simpl. apply removelast_last. Qed.

Lemma remaining_attractions_universe (graph : Graph) (anchors : list Node) (s e : Node) :
  list_to_set (filter (λ a, a ∉ anchors) (elements (dom graph))) ∖ {[s; e]}
  = interior_universe graph anchors s e.
Proof.
  unfold interior_universe. apply set_eq. intros x.
  rewrite !elem_of_difference, elem_of_list_to_set, list_elem_of_filter.
  rewrite elem_of_elements, elem_of_list_to_set. tauto.
Qed.

(** What each path of the initial population looks like. *)
Lemma CreateInitialPopulation_total (pop_size : Z) (graph : Graph)
    (start_attraction end_attraction : Node) (final_path_size : Z)
    (all_start_end_points : list Node) (t : tape) :
  2 ≤ final_path_size →
  let universe :=
    interior_universe graph all_start_end_points start_attraction end_attraction in
  ∃ initial_population t',
    CreateInitialPopulation pop_size graph start_attraction end_attraction
      final_path_size all_start_end_points t = Ok (initial_population, t') ∧
    (length initial_population ≤ Z.to_nat pop_size)%nat ∧
    Forall (λ path,
              len path = Z.min final_path_size (Z.of_nat (size universe) + 2) ∧
              head path = Some start_attraction ∧
              last path = Some end_attraction ∧
              Forall (λ x, x ∈ universe) (interior path) ∧
              NoDup (interior path))
           initial_population.
Proof.
  intros Hfps universe. unfold CreateInitialPopulation.
  rewrite remaining_attractions_universe. fold universe.
  match goal with |- ∃ _ _, foldM ?f ?l ?a0 ?t0 = _ ∧ _ ∧ Forall ?good _ =>
    assert (∃ pop t', foldM f l a0 t0 = Ok (pop, t') ∧
              (length pop ≤ 0 + length l)%nat ∧ Forall good pop)
      as (pop & t' & Hrun & Hsize & Hgood);
    [apply (foldM_total_at (λ k pop, (length pop ≤ k)%nat ∧ Forall good pop) f l)|]
  end.
  - intros k acc i t0 _ [Hk Hacc].
    destruct (list_of_set_total universe t0) as (cand & t1 & Hcand & Hperm).
    rewrite (bindM_step _ _ _ _ _ Hcand).
    destruct (sample_total cand (Z.min (len cand) (final_path_size - 2)) t1)
      as (inner & t2 & Hinner).
    { pose proof (len_nonneg cand). lia. }
    rewrite (bindM_step _ _ _ _ _ Hinner).
    apply sample_Ok in Hinner as (_ & Hlen & Hsub).
    eexists _, _. split; [reflexivity|].
    assert (len cand = Z.of_nat (size universe)) as Hsize.
    { unfold len. by rewrite Hperm. }
    case_bool_decide; [split; [lia | done]|].
    rewrite length_app. split; [simpl; lia|].
    apply Forall_app. split; [done|]. apply Forall_singleton.
    change ([start_attraction] ++ inner ++ [end_attraction])
      with (start_attraction :: inner ++ [end_attraction]).
    rewrite interior_shape. split; [|split; [done|split; [|split]]].
    + unfold len in *. simpl. rewrite length_app. simpl. lia.
    + by rewrite last_cons, last_snoc.
    + apply Forall_forall. intros x Hx.
      apply elem_of_elements. rewrite <- Hperm. by eapply elem_of_submseteq.
    + eapply submseteq_NoDup; [exact Hsub|]. rewrite Hperm. apply NoDup_elements.
  - split; [simpl; lia | apply Forall_nil_2].
  - exists pop, t'. rewrite range_length in Hsize. done.
Qed.

(** C6. For a requested path length of at least 2, [CreateInitialPopulation]
    returns a population, and each of its paths has length
    [min(final_path_size, |universe| + 2)], where the universe is the set
    of graph nodes minus the anchor set minus the two ends; it starts with
    the start attraction, ends with the end attraction, holds only nodes
    of the universe in between, and holds none of them twice. *)
Theorem CreateInitialPopulation_paths (pop_size : Z) (graph : Graph)
    (start_attraction end_attraction : Node) (final_path_size : Z)
    (all_start_end_points : list Node) (t : tape) :
  2 ≤ final_path_size →
  let universe :=
    interior_universe graph all_start_end_points start_attraction end_attraction in
  ∃ initial_population t',
    CreateInitialPopulation pop_size graph start_attraction end_attraction
      final_path_size all_start_end_points t = Ok (initial_population, t') ∧
    Forall (λ path,
              len path = Z.min final_path_size (Z.of_nat (size universe) + 2) ∧
              head path = Some start_attraction ∧
              last path = Some end_attraction ∧
              Forall (λ x, x ∈ universe) (interior path) ∧
              NoDup (interior path))
           initial_population.
Proof.
  intros Hfps universe.
  destruct (CreateInitialPopulation_total pop_size graph start_attraction
              end_attraction final_path_size all_start_end_points t Hfps)
    as (pop & t' & Hrun & _ & Hgood).
  by exists pop, t'.
Qed.

(** ** CreateMatingPool *)

Lemma min_scan (rest : list (Z * weight)) (best : Z * weight) :
  let w := fold_left (λ best y, if wltb (snd y) (snd best) then y else best) rest best in
  (w = best ∨ w ∈ rest) ∧ wle w.2 best.2 ∧ ∀ item, item ∈ rest → wle w.2 item.2.
Proof.
  revert best. induction rest as [|y rest IH]; intros best; simpl.
  - split; [by left|]. split; [apply wle_refl|]. intros item Hin. by apply elem_of_nil in Hin.
  - set (best' := if wltb y.2 best.2 then y else best).
    destruct (IH best') as (Hw & Hbest & Hrest).
    assert (wle best'.2 best.2 ∧ wle best'.2 y.2 ∧ (best' = best ∨ best' = y))
      as (Hb & Hy & Hcase).
    { unfold best'. destruct (wltb y.2 best.2) eqn:E.
      - split; [by apply wlt_wle, wltb_true|]. split; [apply wle_refl | by right].
      - split; [apply wle_refl|]. split; [by apply wltb_false | by left]. }
    split; [|split].
    + destruct Hw as [->|Hw]; [|right; by right].
      destruct Hcase as [->| ->]; [by left | right; by left].
    + by eapply wle_trans.
    + intros item [->|Hin]%elem_of_cons; [by eapply wle_trans | by apply Hrest].
Qed.

Lemma min_by_fitness_Ok (tournament : list (Z * weight)) :
  tournament ≠ [] →
  ∃ winner, min_by_fitness tournament = Ok winner ∧ winner ∈ tournament ∧
            ∀ item, item ∈ tournament → wle winner.2 item.2.
Proof.
  destruct tournament as [|x rest]; [done|]. intros _.
  eexists. split; [reflexivity|].
  destruct (min_scan rest x) as (Hw & Hbest & Hrest).
  split.
  - destruct Hw as [->|Hw]; [by left | by right].
  - intros item [->|Hin]%elem_of_cons; [done | by apply Hrest].
Qed.

(** One tournament: the body of the loop of [CreateMatingPool]. *)
Lemma tournament_step (population : list Path) (RankList : list (Z * weight))
    (tournament_size : Z) (matingPool : list Path) (t : tape) :
  Forall (λ item, - len population ≤ item.1 < len population) RankList →
  1 ≤ tournament_size ≤ len RankList →
  ∃ winner chosen t',
    (tournament <- sample RankList tournament_size ;;
     winner <- lift (min_by_fitness tournament) ;;
     chosen <- lift (getitem population (fst winner)) ;;
     retM (matingPool ++ [chosen])) t = Ok (matingPool ++ [chosen], t') ∧
    wins_tournament RankList tournament_size winner ∧
    getitem population winner.1 = Ok chosen ∧
    chosen ∈ population.
Proof.
  intros Hidx Hk.
  destruct (sample_total RankList tournament_size t) as (tournament & t' & Hs); [lia|].
  rewrite (bindM_step _ _ _ _ _ Hs).
  apply sample_Ok in Hs as (_ & Hlen & Hsub).
  destruct (min_by_fitness_Ok tournament) as (winner & Hmin & Hin & Hleast).
  { intros ->. unfold len in Hlen. simpl in Hlen. lia. }
  erewrite (bindM_step (lift _)); [|unfold lift; by rewrite Hmin].
  destruct (getitem_valid population winner.1) as (chosen & Hget & Hmem).
  { eapply (proj1 (Forall_forall _ _) Hidx), elem_of_submseteq; eauto. }
  erewrite (bindM_step (lift _)); [|unfold lift; by rewrite Hget].
  exists winner, chosen, t'. split; [reflexivity|].
  split; [by exists tournament | done].
Qed.

Lemma CreateMatingPool_total (population : list Path) (RankList : list (Z * weight))
    (tournament_size : Z) (t : tape) :
  len RankList = len population →
  Forall (λ item, - len population ≤ item.1 < len population) RankList →
  1 ≤ tournament_size ≤ len population →
  ∃ matingPool t',
    CreateMatingPool population RankList tournament_size t = Ok (matingPool, t') ∧
    len matingPool = len population ∧
    Forall (λ path,
              path ∈ population ∧
              ∃ winner, wins_tournament RankList tournament_size winner ∧
                        getitem population winner.1 = Ok path)
           matingPool.
Proof.
  intros Hlen Hidx Hk. unfold CreateMatingPool.
  pose (good := λ path : list string,
          path ∈ population ∧
          ∃ winner, wins_tournament RankList tournament_size winner ∧
                    getitem population winner.1 = Ok path).
  match goal with |- ∃ _ _, foldM ?f ?l ?a0 ?t0 = _ ∧ _ =>
    assert (∃ pool t', foldM f l a0 t0 = Ok (pool, t') ∧
              length pool = (0 + length l)%nat ∧ Forall good pool)
      as (pool & t' & Hrun & Hsize & Hgood);
    [apply (foldM_total_at (λ k pool, length pool = k ∧ Forall good pool) f l)|]
  end.
  - intros k pool i t0 _ [Hsize Hgood].
    destruct (tournament_step population RankList tournament_size pool t0)
      as (winner & chosen & t' & Hstep & Hwin & Hget & Hmem); [done | lia |].
    eexists _, _. split; [exact Hstep|].
    rewrite length_app, Forall_app, Forall_singleton. simpl.
    split; [lia|]. split; [done|]. split; [done|]. by exists winner.
  - split; [reflexivity | apply Forall_nil_2].
  - exists pool, t'. split; [exact Hrun|].
    rewrite range_length in Hsize. simpl in Hsize.
    split; [unfold len in *; lia | exact Hgood].
Qed.

Lemma CreateMatingPool_raises (population : list Path) (RankList : list (Z * weight))
    (tournament_size : Z) (t : tape) :
  1 ≤ len population →
  len RankList < tournament_size ∨ tournament_size ≤ 0 →
  CreateMatingPool population RankList tournament_size t = Raise ValueError.
Proof.
  intros Hn Hk. unfold CreateMatingPool.
  destruct (range_nonempty (len population)) as [l ->]; [lia|].
  apply foldM_first_raises.
  destruct Hk as [Hk|Hk].
  - apply bindM_Raise, sample_invalid. lia.
  - destruct (Z.eq_dec tournament_size 0) as [->|Hne].
    + by rewrite (bindM_step _ _ _ _ _ (sample_zero RankList t)).
    + apply bindM_Raise, sample_invalid. lia.
Qed.

Lemma CreateMatingPool_empty (RankList : list (Z * weight)) (tournament_size : Z)
    (t : tape) :
  CreateMatingPool [] RankList tournament_size t = Ok ([], t).
Proof. reflexivity. Qed.

(** C8, as the code has it. For a non-empty population of [n] paths, a rank
    list of [n] entries whose indices are valid for the population, and
    [1 <= tournament_size <= n], [CreateMatingPool] returns exactly [n]
    paths, each a member of the population and the path of an entry of
    least fitness of a tournament of [tournament_size] entries drawn from
    the rank list. For a non-empty population, a tournament size above [n]
    or below 1 raises [ValueError]. For the empty population the loop body
    never runs and the empty pool is returned, whatever the tournament size. *)
Theorem CreateMatingPool_selects (population : list Path) (RankList : list (Z * weight))
    (tournament_size : Z) (t : tape) :
  len RankList = len population →
  Forall (λ item, - len population ≤ item.1 < len population) RankList →
  (1 ≤ tournament_size ≤ len population →
   ∃ matingPool t',
     CreateMatingPool population RankList tournament_size t = Ok (matingPool, t') ∧
     len matingPool = len population ∧
     Forall (λ path,
               path ∈ population ∧
               ∃ winner, wins_tournament RankList tournament_size winner ∧
                         getitem population winner.1 = Ok path)
            matingPool) ∧
  (1 ≤ len population →
   len population < tournament_size ∨ tournament_size ≤ 0 →
   CreateMatingPool population RankList tournament_size t = Raise ValueError) ∧
  (len population = 0 →
   CreateMatingPool population RankList tournament_size t = Ok ([], t)).
Proof.
  intros Hlen Hidx. split; [|split].
  - by apply CreateMatingPool_total.
  - intros Hn Hk. apply CreateMatingPool_raises; [done|]. by rewrite Hlen.
  - intros Hn. destruct population; [apply CreateMatingPool_empty|].
    unfold len in Hn. simpl in Hn. lia.
Qed.

(** C8 as stated fails at the two ends of its range. With an empty
    population and the default tournament size 3, which exceeds the
    population size, no error is raised; and with a tournament size of 0,
    which does not exceed the population size, no pool is returned. *)
Lemma CreateMatingPool_degenerate :
  CreateMatingPool [] [] 3 [] = Ok ([], []) ∧
  CreateMatingPool [["A"; "B"]] [(0, Fin 1)] 0 [] = Raise ValueError.
Proof. split; reflexivity. Qed.

(** ** Crossover: the construction step *)

Lemma slice_sublist {A} (l : list A) lo hi : slice l lo hi `sublist_of` l.
Proof.
  unfold slice. etrans; [apply sublist_take | apply sublist_drop].
Qed.

(** The child before repair is the donor segment inserted into the remainder. *)
Lemma splice_Permutation (Parent1 Parent2 : Path) (Start_Index End_Index : Z) :
  let p1_section :=
    slice Parent1 (Z.max Start_Index 1) (Z.min End_Index (len Parent1 - 2) + 1) in
  splice Parent1 Parent2 Start_Index End_Index
  ≡ₚ p1_section ++ filter (λ attraction, attraction ∉ p1_section) Parent2.
Proof.
  intros p1_section. unfold splice. fold p1_section.
  unfold slice_to, slice_from.
  set (remainder := filter (λ attraction, attraction ∉ p1_section) Parent2).
  set (k := clip remainder (Z.max Start_Index 1)).
  trans (p1_section ++ take k remainder ++ drop k remainder).
  - rewrite !app_assoc. apply Permutation_app_tail, Permutation_app_comm.
  - by rewrite take_drop.
Qed.

(** A duplicate-free list holds as many elements of a duplicate-free
    segment as the segment has, when it holds them all. *)
Lemma filter_section_Permutation (section l : Path) :
  NoDup section → NoDup l → (∀ x, x ∈ section → x ∈ l) →
  filter (λ x, x ∈ section) l ≡ₚ section.
Proof.
  intros Hs Hl Hsub. apply NoDup_Permutation; [by apply NoDup_filter | done |].
  intros x. rewrite list_elem_of_filter. split; [tauto | auto].
Qed.

Lemma splice_same_nodes (Parent1 Parent2 : Path) (Start_Index End_Index : Z) :
  NoDup Parent1 → NoDup Parent2 → (∀ x, x ∈ Parent1 ↔ x ∈ Parent2) →
  splice Parent1 Parent2 Start_Index End_Index ≡ₚ Parent2.
Proof.
  intros H1 H2 Hsame. rewrite splice_Permutation.
  set (p1_section := slice Parent1 _ _).
  assert (p1_section `sublist_of` Parent1) as Hsub by apply slice_sublist.
  rewrite <- (filter_app_complement (λ x, x ∈ p1_section) Parent2) at 2.
  apply Permutation_app_tail. symmetry.
  apply filter_section_Permutation; [exact (sublist_NoDup _ _ H1 Hsub) | done |].
  intros x Hx. apply Hsame. by eapply elem_of_sublist.
Qed.

Lemma list_of_set_empty t : list_of_set ∅ t = Ok ([], t).
Proof. unfold list_of_set. by rewrite elements_empty. Qed.

(** C10. For parents without repeated nodes that hold the same set of
    nodes, [Crossover] returns a child of the parents' length, for every
    pair of crossover indices and every outcome of the oracle; the child
    is a rearrangement of the second parent. *)
Theorem Crossover_preserves_length (Parent1 Parent2 : Path) (Start_Index End_Index : Z)
    (all_start_end_points : list Node) (t : tape) :
  NoDup Parent1 → NoDup Parent2 → (∀ x, x ∈ Parent1 ↔ x ∈ Parent2) →
  ∃ child t',
    Crossover Parent1 Parent2 Start_Index End_Index all_start_end_points t
      = Ok (child, t') ∧
    length child = length Parent1 ∧ length child = length Parent2 ∧
    child ≡ₚ Parent2.
Proof.
  intros H1 H2 Hsame.
  pose proof (splice_same_nodes _ _ Start_Index End_Index H1 H2 Hsame) as Hperm.
  exists (splice Parent1 Parent2 Start_Index End_Index), t.
  assert (Parent1 ≡ₚ Parent2) as H12 by by apply NoDup_Permutation.
  split; [|by rewrite Hperm, H12].
  unfold Crossover.
  replace (_ ∖ _ ∖ _) with (∅ : gset string).
  - by rewrite (bindM_step _ _ _ _ _ (list_of_set_empty t)).
  - symmetry. apply set_eq. intros x.
    rewrite !elem_of_difference, !elem_of_list_to_set, Hperm, Hsame, elem_of_empty.
    tauto.
Qed.

(** ** Crossover on valid parents *)

Lemma valid_path_shape (s e : Node) (anchors : list Node) (path : Path) :
  valid_path s e anchors path ↔
  ∃ inner, path = s :: inner ++ [e] ∧ NoDup inner ∧ Forall (λ x, x ∉ anchors) inner.
Proof.
  split.
  - intros (Hlen & Hhead & Hlast & Hnd & Hna).
    destruct path as [|x [|y rest]]; simpl in Hlen; try lia.
    injection Hhead as ->.
    rewrite last_cons_cons in Hlast. apply last_Some in Hlast as [inner Hinner].
    exists inner. unfold interior in *. cbn [tail] in *. rewrite Hinner in *.
    rewrite removelast_last in *. done.
  - intros (inner & -> & Hnd & Hna). unfold valid_path.
    rewrite interior_shape. simpl. rewrite length_app. simpl.
    split; [lia|]. split; [done|]. by rewrite last_cons, last_snoc.
Qed.

(** The donor segment of a path with two ends lies between the ends, and a
    non-empty one stops short of the last position. *)
Lemma section_of_interior (s e : Node) (inner : Path) (Start_Index End_Index : Z) :
  let Parent1 := s :: inner ++ [e] in
  let p1_section :=
    slice Parent1 (Z.max Start_Index 1) (Z.min End_Index (len Parent1 - 2) + 1) in
  p1_section `sublist_of` inner ∧
  (p1_section ≠ [] → Z.max Start_Index 1 + len p1_section ≤ len Parent1 - 1).
Proof.
  intros Parent1 p1_section.
  assert (length Parent1 = S (S (length inner))) as HlenP.
  { unfold Parent1. simpl. rewrite length_app. simpl. lia. }
  pose proof (clip_nonneg Parent1 (Z.max Start_Index 1) ltac:(lia)) as Hlo.
  pose proof (clip_upper Parent1 (Z.min End_Index (len Parent1 - 2) + 1) ltac:(lia)) as Hhi.
  unfold p1_section, slice.
  set (lo := clip Parent1 (Z.max Start_Index 1)) in *.
  set (hi := clip Parent1 (Z.min End_Index (len Parent1 - 2) + 1)) in *.
  destruct lo as [|c] eqn:Elo; [lia|].
  unfold Parent1 at 1 3. cbn [drop].
  rewrite drop_app, take_app_le by (rewrite length_drop; lia).
  split.
  - etrans; [apply sublist_take | apply sublist_drop].
  - intros Hne. unfold len. rewrite length_take, length_drop.
    destruct (decide (hi ≤ S c)%nat) as [Hle|Hgt].
    { exfalso. apply Hne. by replace (hi - S c)%nat with 0%nat by lia. }
    lia.
Qed.

Lemma filter_section_length (section l : Path) :
  NoDup l → (length l ≤ length (filter (λ x, x ∉ section) l) + length section)%nat.
Proof.
  intros Hl.
  rewrite <- (filter_app_complement (λ x, x ∈ section) l) at 1.
  rewrite length_app.
  assert (length (filter (λ x, x ∈ section) l) ≤ length section)%nat; [|lia].
  apply submseteq_length, NoDup_submseteq; [by apply NoDup_filter|].
  intros x Hx. by apply list_elem_of_filter in Hx as [? _].
Qed.

(** The construction step on valid parents of one length yields a valid
    path: the ends of the second parent stay where they are, the donor
    segment and what is left of the second parent's interior lie between. *)
Lemma splice_valid (s e : Node) (anchors : list Node) (Parent1 Parent2 : Path)
    (Start_Index End_Index : Z) :
  s ∈ anchors → e ∈ anchors →
  valid_path s e anchors Parent1 → valid_path s e anchors Parent2 →
  length Parent1 = length Parent2 →
  valid_path s e anchors (splice Parent1 Parent2 Start_Index End_Index).
Proof.
  intros Hs He (i1 & -> & Hnd1 & Hna1)%valid_path_shape
    (i2 & -> & Hnd2 & Hna2)%valid_path_shape Hlen.
  destruct (section_of_interior s e i1 Start_Index End_Index) as [Hsub Hbound].
  unfold splice.
  set (sec := slice (s :: i1 ++ [e]) _ _) in *.
  assert (NoDup sec) as Hndsec by exact (sublist_NoDup _ _ Hnd1 Hsub).
  assert (Forall (λ x, x ∉ anchors) sec) as Hnasec.
  { apply Forall_forall. intros x Hx.
    eapply (proj1 (Forall_forall _ _) Hna1), elem_of_sublist; eauto. }
  assert (∀ x, x ∈ anchors → x ∉ sec) as Hanchor.
  { intros x Hx Hin. by eapply (proj1 (Forall_forall _ _) Hnasec). }
  rewrite filter_cons_True, filter_app, (filter_cons_True _ e), filter_nil by auto.
  set (r2 := filter (λ a, a ∉ sec) i2).
  assert (NoDup r2) as Hndr2 by (by apply NoDup_filter).
  assert (Forall (λ x, x ∉ anchors) r2) as Hnar2.
  { apply Forall_forall. intros x [_ Hx]%list_elem_of_filter.
    by eapply (proj1 (Forall_forall _ _) Hna2). }
  assert (length i2 ≤ length r2 + length sec)%nat as Hcount
    by (by apply filter_section_length).
  assert (length i1 = length i2) as Hlen'.
  { simpl in Hlen. rewrite !length_app in Hlen. simpl in Hlen. lia. }
  unfold slice_to, slice_from.
  rewrite clip_nonneg by lia.
  set (k := (Z.to_nat (Z.max Start_Index 1) `min` length (s :: r2 ++ [e]))%nat).
  assert (length (s :: r2 ++ [e]) = S (S (length r2))) as Hrem.
  { simpl. rewrite length_app. simpl. lia. }
  apply valid_path_shape.
  destruct (decide (k ≤ S (length r2))%nat) as [Hk|Hk].
  - destruct k as [|k'] eqn:Ek; [lia|].
    exists (take k' r2 ++ sec ++ drop k' r2).
    split; [|split].
    + cbn [take drop]. rewrite take_app_le, drop_app_le by lia.
      simpl. by rewrite <- !app_assoc.
    + rewrite (Permutation_app_comm sec), app_assoc, take_drop.
      apply NoDup_app. split; [done|]. split; [|done].
      intros x [Hx _]%list_elem_of_filter. done.
    + rewrite !Forall_app. split; [by apply Forall_take|]. split; [done|].
      by apply Forall_drop.
  - assert (sec = []) as ->.
    { destruct sec as [|x sec'] eqn:Esec; [done|]. exfalso.
      assert (x :: sec' ≠ []) as Hne by done. apply Hbound in Hne.
      unfold len in Hne. rewrite !length_cons, length_app in Hne.
      rewrite length_cons in Hcount. unfold k in Hk. rewrite Hrem in Hk.
      simpl in Hne. lia. }
    exists r2. rewrite take_ge, drop_ge by lia. simpl. rewrite app_nil_r.
    done.
Qed.

(** ** Crossover: the repair pass *)

Lemma range2_elem i a b : i ∈ range2 a b ↔ a ≤ i < b.
Proof.
  unfold range2. rewrite list_elem_of_fmap. split.
  - intros (k & -> & Hk). apply elem_of_seq in Hk. lia.
  - intros Hi. exists (Z.to_nat (i - a)). split; [lia|]. apply elem_of_seq. lia.
Qed.

(** The repair loop writes only at the indices it is given; given interior
    indices, it keeps the length and both ends of the child. *)
Lemma repair_frame (anchors : list Node) (indices : list Z) (child : Path)
    (missing : list Node) (child' : Path) :
  (∀ i, i ∈ indices → 1 ≤ i ≤ len child - 2) →
  repair anchors indices child missing = Ok child' →
  length child' = length child ∧ head child' = head child ∧ last child' = last child.
Proof.
  revert child missing.
  induction indices as [|i indices IH]; intros child missing Hidx H; simpl in H.
  - by injection H as ->.
  - assert (1 ≤ i ≤ len child - 2) as Hi by (apply Hidx; by left).
    assert (∀ j, j ∈ indices → 1 ≤ j ≤ len child - 2) as Hidx'
      by (intros; apply Hidx; right; done).
    destruct (getitem child i) as [c|]; [|discriminate]. simpl in H.
    destruct (bool_decide (c ∈ anchors) || (1 <? count c child)).
    + destruct (pop missing) as [[m missing']|]; [|discriminate]. simpl in H.
      rewrite setitem_nonneg in H by lia. simpl in H.
      destruct (insert_frame child (Z.to_nat i) m) as (Hl & Hh & Ht);
        [unfold len in Hi; lia..|].
      destruct missing'.
      * by injection H as <-.
      * apply IH in H as (Hl' & Hh' & Ht').
        -- by rewrite Hl', Hh', Ht'.
        -- unfold len. rewrite Hl. exact Hidx'.
    + by apply IH in H.
Qed.

(** The repair loop leaves a child alone when no inspected position holds
    an anchor or a node that occurs twice. *)
Lemma repair_noop (anchors : list Node) (indices : list Z) (child : Path)
    (missing : list Node) :
  (∀ i, i ∈ indices →
        ∃ c, getitem child i = Ok c ∧ (c ∉ anchors) ∧ count c child ≤ 1) →
  repair anchors indices child missing = Ok child.
Proof.
  induction indices as [|i indices IH]; intros Hidx; simpl; [done|].
  destruct (Hidx i) as (c & -> & Hc & Hcount); [by left|]. simpl.
  rewrite bool_decide_eq_false_2 by done.
  destruct (Z.ltb_spec 1 (count c child)); [lia|]. simpl.
  apply IH. intros. apply Hidx. by right.
Qed.

Lemma count_absent (x : Node) (l : Path) : x ∉ l → filter (λ y, y = x) l = [].
Proof.
  induction l as [|y l IH]; [done|]. intros [Hne Hl]%not_elem_of_cons.
  rewrite filter_cons_False by congruence. by apply IH.
Qed.

Lemma count_NoDup (x : Node) (l : Path) : NoDup l → count x l ≤ 1.
Proof.
  unfold count, len. induction 1 as [|y l Hy Hl IH]; simpl; [lia|].
  destruct (decide (y = x)) as [->|Hne].
  - rewrite filter_cons_True, count_absent by done. simpl. lia.
  - by rewrite filter_cons_False.
Qed.

Lemma count_between (x s e : Node) (inner : Path) :
  x ≠ s → x ≠ e → count x (s :: inner ++ [e]) = count x inner.
Proof.
  intros Hs He. unfold count.
  rewrite filter_cons_False, filter_app, filter_cons_False by congruence.
  by rewrite filter_nil, app_nil_r.
Qed.

(** Nothing is left to repair in a valid path. *)
Lemma repair_valid (s e : Node) (anchors : list Node) (child : Path)
    (missing : list Node) :
  s ∈ anchors → e ∈ anchors → valid_path s e anchors child →
  repair anchors (range2 1 (len child - 1)) child missing = Ok child.
Proof.
  intros Hs He (inner & -> & Hnd & Hna)%valid_path_shape.
  apply repair_noop. intros i Hi%range2_elem.
  unfold len in Hi. rewrite length_cons, length_app in Hi. simpl in Hi.
  destruct (lookup_lt_is_Some_2 inner (Z.to_nat (i - 1))) as [c Hc]; [lia|].
  assert (c ∉ anchors) as Hca.
  { eapply (proj1 (Forall_forall _ _) Hna), list_elem_of_lookup_2, Hc. }
  exists c. split; [|split; [done|]].
  - apply getitem_nonneg; [lia|].
    replace (Z.to_nat i) with (S (Z.to_nat (i - 1))) by lia.
    simpl. rewrite lookup_app_l; [done|]. by eapply lookup_lt_Some.
  - rewrite count_between by (intros ->; done). by apply count_NoDup.
Qed.

(** C3. For valid parents of one length over one anchor set, [Crossover]
    returns a child, whatever the indices and the oracle; in that child
    every node that is not an anchor occurs at most once, the start is at
    position 0, the end is at the last position and no anchor lies between
    them. The construction step leaves at both ends what the second
    parent has there, and the repair pass, on any child and with any
    missing list, returns a child of the same length with the same two ends. *)
Theorem Crossover_keeps_anchors_and_uniqueness (start_attraction end_attraction : Node)
    (all_start_end_points : list Node) (Parent1 Parent2 : Path)
    (Start_Index End_Index : Z) (t : tape) :
  start_attraction ∈ all_start_end_points →
  end_attraction ∈ all_start_end_points →
  valid_path start_attraction end_attraction all_start_end_points Parent1 →
  valid_path start_attraction end_attraction all_start_end_points Parent2 →
  length Parent1 = length Parent2 →
  (∃ child t',
     Crossover Parent1 Parent2 Start_Index End_Index all_start_end_points t
       = Ok (child, t') ∧
     (∀ x, x ∉ all_start_end_points → count x child ≤ 1) ∧
     head child = Some start_attraction ∧
     last child = Some end_attraction ∧
     Forall (λ x, x ∉ all_start_end_points) (interior child)) ∧
  (head (splice Parent1 Parent2 Start_Index End_Index) = head Parent2 ∧
   last (splice Parent1 Parent2 Start_Index End_Index) = last Parent2) ∧
  (∀ child missing_attractions child',
     repair all_start_end_points (range2 1 (len child - 1)) child missing_attractions
       = Ok child' →
     length child' = length child ∧ head child' = head child ∧
     last child' = last child).
Proof.
  intros Hs He Hv1 Hv2 Hlen.
  pose proof (splice_valid _ _ _ _ _ Start_Index End_Index Hs He Hv1 Hv2 Hlen) as Hv.
  split; [|split].
  - exists (splice Parent1 Parent2 Start_Index End_Index).
    assert (∃ t', Crossover Parent1 Parent2 Start_Index End_Index
                    all_start_end_points t
                  = Ok (splice Parent1 Parent2 Start_Index End_Index, t')) as [t' Ht'].
    { unfold Crossover.
      match goal with |- context [list_of_set ?m] =>
        destruct (list_of_set_total m t) as (missing & t' & Hm & _) end.
      exists t'. rewrite (bindM_step _ _ _ _ _ Hm).
      destruct missing; [done|]. unfold lift.
      by rewrite (repair_valid start_attraction end_attraction). }
    exists t'. split; [exact Ht'|].
    pose proof Hv as (_ & Hhead & Hlast & _ & Hna).
    split; [|done].
    intros x Hx.
    apply valid_path_shape in Hv as (inner & -> & Hnd & _).
    rewrite count_between by (intros ->; done). by apply count_NoDup.
  - destruct Hv as (_ & -> & -> & _), Hv2 as (_ & -> & -> & _). done.
  - intros child missing child'. apply repair_frame.
    intros i Hi%range2_elem. lia.
Qed.

(** ** Ranking *)

Lemma insert_by_fitness_Permutation x l : insert_by_fitness x l ≡ₚ x :: l.
Proof.
  induction l as [|y l IH]; simpl; [done|].
  destruct (wltb y.2 x.2); [|done]. rewrite IH. apply Permutation_swap.
Qed.

Lemma sort_by_fitness_Permutation l : sort_by_fitness l ≡ₚ l.
Proof.
  induction l as [|x l IH]; simpl; [done|].
  by rewrite insert_by_fitness_Permutation, IH.
Qed.

(** The first entry of the sorted rank list has the least fitness. *)
Lemma sort_by_fitness_least l top :
  head (sort_by_fitness l) = Some top →
  top ∈ l ∧ ∀ item, item ∈ l → wle top.2 item.2.
Proof.
  revert top. induction l as [|x l IH]; intros top; simpl; [done|].
  destruct (sort_by_fitness l) as [|y sorted] eqn:E; simpl.
  - intros [= <-].
    assert (l = []) as -> by (apply Permutation_nil_r; by rewrite <- E, sort_by_fitness_Permutation).
    split; [by left|]. intros item ->%list_elem_of_singleton. apply wle_refl.
  - destruct (IH y eq_refl) as [Hy Hleast].
    destruct (wltb y.2 x.2) eqn:Hyx; simpl; intros [= <-].
    + split; [by right|].
      intros item [->|Hin]%elem_of_cons; [by apply wlt_wle, wltb_true | by apply Hleast].
    + split; [by left|].
      intros item [->|Hin]%elem_of_cons; [apply wle_refl|].
      eapply wle_trans; [by apply wltb_false | by apply Hleast].
Qed.

(** [rank] pairs every index of the population with the fitness of its path. *)
Lemma rank_from (graph : Graph) (population : list Path) (k : nat) acc R :
  foldR (λ acc ip, d ← calculate_path_distance graph ip.2; Ok (acc ++ [(ip.1, d)]))
        (imap (λ i path, (Z.of_nat (k + i), path)) population) acc = Ok R →
  ∃ R', R = acc ++ R' ∧ length R' = length population ∧
        ∀ i path, population !! i = Some path →
                  ∃ d, calculate_path_distance graph path = Ok d ∧
                       R' !! i = Some (Z.of_nat (k + i), d).
Proof.
  revert k acc. induction population as [|p population IH]; intros k acc; simpl.
  - intros [= <-]. exists []. by rewrite app_nil_r.
  - destruct (calculate_path_distance graph p) as [d|] eqn:Hd; [|discriminate].
    simpl. intros H.
    rewrite (imap_ext _ (λ i path, (Z.of_nat (S k + i), path))) in H
      by (intros; simpl; do 2 f_equal; lia).
    apply IH in H as (R' & -> & Hlen & HR').
    exists ((Z.of_nat (k + 0), d) :: R'). split; [by rewrite <- app_assoc|].
    split; [simpl; lia|].
    intros [|i] path Hp; simpl in *.
    + injection Hp as <-. eauto.
    + destruct (HR' i path Hp) as (d' & Hd' & Hi).
      exists d'. split; [done|]. rewrite Hi. do 3 f_equal. lia.
Qed.

Lemma rank_Ok (graph : Graph) (population : list Path) R :
  rank graph population = Ok R →
  length R = length population ∧
  ∀ i path, population !! i = Some path →
            ∃ d, calculate_path_distance graph path = Ok d ∧
                 R !! i = Some (Z.of_nat i, d).
Proof.
  intros H. apply (rank_from graph population 0 []) in H as (R' & -> & Hlen & HR').
  done.
Qed.

Lemma rank_entry (graph : Graph) (population : list Path) R item :
  rank graph population = Ok R → item ∈ R →
  0 ≤ item.1 < len population ∧
  ∃ path, population !! Z.to_nat item.1 = Some path ∧
          calculate_path_distance graph path = Ok item.2.
Proof.
  intros [Hlen HR]%rank_Ok [i Hi]%list_elem_of_lookup.
  destruct (lookup_lt_is_Some_2 population i) as [path Hpath].
  { rewrite <- Hlen. by eapply lookup_lt_Some. }
  destruct (HR i path Hpath) as (d & Hd & Hi'). rewrite Hi in Hi'.
  injection Hi' as ->. simpl. rewrite Nat2Z.id.
  split; [|eauto]. apply lookup_lt_Some in Hpath. unfold len. lia.
Qed.

(** ** One generation *)

Lemma getitem_0 {A} (l : list A) x : getitem l 0 = Ok x ↔ head l = Some x.
Proof. rewrite head_lookup. by apply getitem_nonneg. Qed.

Lemma record_best_Ok (st : driver) (RankList : list (Z * weight)) (st1 : driver) :
  record_best st RankList = Ok st1 →
  ∃ top, head RankList = Some top ∧
         population st1 = population st ∧
         ((wltb top.2 (bestFitness st) = true ∧
           bestFitness st1 = top.2 ∧
           getitem (population st) top.1 = Ok (bestPath st1)) ∨
          (wltb top.2 (bestFitness st) = false ∧ st1 = st)).
Proof.
  unfold record_best.
  destruct (getitem RankList 0) as [top|] eqn:Htop; [|discriminate]. simpl.
  apply getitem_0 in Htop. intros H. exists top. split; [done|].
  destruct (wltb top.2 (bestFitness st)) eqn:Hlt.
  - destruct (getitem (population st) top.1) as [p|] eqn:Hp; [|discriminate].
    simpl in H. injection H as <-. simpl. split; [done|]. left. done.
  - injection H as <-. split; [done|]. by right.
Qed.

Lemma half_len {A} (l : list A) : Z.to_nat (len l `div` 2) = (length l / 2)%nat.
Proof.
  unfold len. change 2 with (Z.of_nat 2).
  by rewrite <- Nat2Z.inj_div, Nat2Z.id.
Qed.

Lemma slice_to_half {A} (l : list A) :
  slice_to l (len l `div` 2) = take (length l / 2) l.
Proof.
  unfold slice_to. f_equal.
  pose proof (len_nonneg l).
  rewrite clip_inside; [apply half_len|].
  split; [by apply Z.div_pos|]. apply Z.div_le_upper_bound; lia.
Qed.

(** What a generation that completes has done: ranked the population,
    recorded the best entry, and put [size // 2] children in front of the
    first [size // 2] paths of the population it started from. *)
Lemma generation_body_Ok (graph : Graph) (initial_mutation_rate minimum_mutation_rate : Q)
    (anchors : list Node) (decay_rate : Q) (st : driver) (generation : Z)
    (t : tape) (st' : driver) (t' : tape) :
  generation_body graph initial_mutation_rate minimum_mutation_rate anchors decay_rate
    st generation t = Ok (st', t') →
  ∃ RankList st1 matingPool children,
    rank graph (population st) = Ok RankList ∧
    record_best st (sort_by_fitness RankList) = Ok st1 ∧
    length matingPool = length (population st) ∧
    Forall (λ path, path ∈ population st) matingPool ∧
    length children = (length (population st) / 2)%nat ∧
    population st' = children ++ take (length (population st) / 2) (population st) ∧
    bestPath st' = bestPath st1 ∧
    bestFitness st' = bestFitness st1.
Proof.
  unfold generation_body. intros H.
  apply bindM_Ok in H as (RankList & t1 & Hrank & H). apply lift_Ok in Hrank as [Hrank ->].
  apply bindM_Ok in H as (st1 & t1 & Hbest & H). apply lift_Ok in Hbest as [Hbest ->].
  apply bindM_Ok in H as (matingPool & t2 & Hpool & H).
  apply bindM_Ok in H as (children & t3 & Hchildren & H).
  apply retM_Ok in H as [-> ->].
  destruct (record_best_Ok _ _ _ Hbest) as (top & _ & Hpop & _).
  exists RankList, st1, matingPool, children. rewrite Hpop in *.
  split; [done|]. split; [done|].
  assert (length matingPool = length (population st) ∧
          Forall (λ path, path ∈ population st) matingPool) as [Hplen Hpmem].
  { unfold CreateMatingPool in Hpool.
    apply (foldM_invariant_at
             (λ k pool, length pool = k ∧ Forall (λ path, path ∈ population st) pool))
      with (k := 0%nat) in Hpool.
    - rewrite range_length in Hpool. unfold len in Hpool.
      by rewrite Nat2Z.id in Hpool.
    - intros k pool i t0 pool' t0' _ [Hk Hmem] Hstep.
      apply bindM_Ok in Hstep as (tournament & t4 & _ & Hstep).
      apply bindM_Ok in Hstep as (winner & t5 & _ & Hstep).
      apply bindM_Ok in Hstep as (chosen & t6 & Hchosen & Hstep).
      apply lift_Ok in Hchosen as [Hchosen ->].
      apply retM_Ok in Hstep as [-> ->].
      rewrite length_app, Forall_app, Forall_singleton. simpl.
      split; [lia|]. split; [done|]. by eapply getitem_elem_of.
    - split; [done | apply Forall_nil_2]. }
  split; [done|]. split; [done|].
  assert (length children = (length (population st) / 2)%nat) as Hclen.
  { apply (foldM_invariant_at (λ k acc, length acc = k)) with (k := 0%nat) in Hchildren.
    - by rewrite range_length, Nat.add_0_l, half_len in Hchildren.
    - intros k acc i t0 acc' t0' _ Hk Hstep.
      apply bindM_Ok in Hstep as (child & t4 & _ & Hstep).
      apply retM_Ok in Hstep as [-> ->]. rewrite length_app. simpl. lia.
    - done. }
  split; [done|]. simpl. by rewrite slice_to_half.
Qed.

Section Driver.
Context (graph : Graph) (initial_mutation_rate minimum_mutation_rate : Q)
        (all_start_end_points : list Node) (decay_rate : Q).

Local Abbreviation body :=
  (generation_body graph initial_mutation_rate minimum_mutation_rate
              all_start_end_points decay_rate).

(** A generation that completes leaves a record that dominates the
    population it evaluated. *)
Lemma generation_records_best (st : driver) (generation : Z) (t : tape)
    (st' : driver) (t' : tape) :
  body st generation t = Ok (st', t') → records_best graph st st'.
Proof.
  intros H. apply generation_body_Ok in H
    as (R & st1 & pool & children & HR & Hbest & _ & _ & _ & _ & Hpath & Hfit).
  apply record_best_Ok in Hbest as (top & Htop & Hpop & Hcase).
  apply sort_by_fitness_least in Htop as [Htop Hleast].
  unfold records_best. rewrite Hpath, Hfit.
  assert (wle (bestFitness st1) top.2 ∧ wle (bestFitness st1) (bestFitness st))
    as [Hle1 Hle2].
  { destruct Hcase as [(Hlt & Hfit1 & _)|[Hge Hst1]].
    - rewrite Hfit1. split; [apply wle_refl | by apply wlt_wle, wltb_true].
    - rewrite Hst1. split; [by apply wltb_false | apply wle_refl]. }
  split; [|split; [done|]].
  - intros path [i Hi]%list_elem_of_lookup.
    destruct (proj2 (rank_Ok _ _ _ HR) i path Hi) as (d & Hd & Hitem).
    exists d. split; [done|].
    eapply wle_trans; [exact Hle1|].
    apply (Hleast (Z.of_nat i, d)). by eapply list_elem_of_lookup_2.
  - destruct Hcase as [(Hlt & Hfit1 & Hget)|[Hge Hst1]]; [right | left; by rewrite Hst1].
    destruct (rank_entry _ _ _ _ HR Htop) as (Hrange & path & Hpath' & Hd).
    apply getitem_nonneg in Hget; [|lia].
    rewrite Hpath' in Hget. injection Hget as <-.
    rewrite Hfit1. split; [by apply wltb_true|].
    split; [by eapply list_elem_of_lookup_2 | done].
Qed.

(** The loop and its trace: the record left by the loop dominates every
    population the loop evaluated. *)
Lemma loop_records_best (gens : list Z) (st : driver) (t : tape)
    (final : driver) (t' : tape) :
  foldM body gens st t = Ok (final, t') →
  ∃ states,
    trace body gens st t = Ok (states, t') ∧
    length states = length gens ∧
    head (states ++ [final]) = Some st ∧
    (∀ i a b, (states ++ [final]) !! i = Some a →
              (states ++ [final]) !! S i = Some b → records_best graph a b) ∧
    (∀ s path, s ∈ states → path ∈ population s →
               ∃ d, calculate_path_distance graph path = Ok d ∧
                    wle (bestFitness final) d) ∧
    wle (bestFitness final) (bestFitness st) ∧
    ((bestPath final = bestPath st ∧ bestFitness final = bestFitness st) ∨
     (∃ s, s ∈ states ∧ bestPath final ∈ population s ∧
           calculate_path_distance graph (bestPath final) = Ok (bestFitness final))).
Proof.
  revert st t. induction gens as [|g gens IH]; intros st t H; simpl in H.
  - apply retM_Ok in H as [-> ->]. exists []. simpl.
    split; [done|]. split; [done|]. split; [done|].
    split; [intros [|i] a b; simpl; intros; done|].
    split; [intros s path Hs; by apply elem_of_nil in Hs|].
    split; [apply wle_refl | by left].
  - apply bindM_Ok in H as (st1 & t1 & Hstep & H).
    pose proof (generation_records_best _ _ _ _ _ Hstep) as (Hmin & Hle & Hcase).
    destruct (IH _ _ H) as (states & Htrace & Hlen & Hhead & Hadj & Hall & Hle' & Hcase').
    exists (st :: states). simpl.
    rewrite (bindM_step _ _ _ _ _ Hstep), (bindM_step _ _ _ _ _ Htrace).
    split; [done|]. split; [by rewrite Hlen|]. split; [done|].
    split; [|split; [|split]].
    + intros [|i] a b Ha Hb; simpl in Ha, Hb.
      * injection Ha as <-. rewrite <- head_lookup, Hhead in Hb. injection Hb as <-.
        by eapply generation_records_best.
      * by eapply Hadj.
    + intros s path [->|Hs]%elem_of_cons Hpath; [|by eapply Hall].
      destruct (Hmin path Hpath) as (d & Hd & Hle1).
      exists d. split; [done|]. by eapply wle_trans.
    + by eapply wle_trans.
    + destruct Hcase' as [[Hp Hf]|(s & Hs & Hin & Hd)].
      * rewrite Hp, Hf.
        destruct Hcase as [?|(_ & Hin & Hd)]; [by left|].
        right. exists st. split; [by left | done].
      * right. exists s. split; [by right | done].
Qed.
End Driver.

(** ** run_genetic_algorithm: what a run that returns has computed *)

Lemma run_returns_best_observed (graph : Graph) (initial_pop_size : Z)
    (start_attraction end_attraction : Node) (final_path_size generations : Z)
    (initial_mutation_rate minimum_mutation_rate : Q)
    (all_start_end_points : list Node) (t : tape)
    (path : Path) (fitness : weight) (t' : tape) :
  run_genetic_algorithm graph initial_pop_size start_attraction end_attraction
    final_path_size generations initial_mutation_rate minimum_mutation_rate
    all_start_end_points t = Ok ((path, fitness), t') →
  ∃ decay_rate st0 t0 states final,
    initialise graph initial_pop_size start_attraction end_attraction
      final_path_size generations initial_mutation_rate minimum_mutation_rate
      all_start_end_points t = Ok ((decay_rate, st0), t0) ∧
    bestPath st0 = [] ∧ bestFitness st0 = Inf ∧
    trace (generation_body graph initial_mutation_rate minimum_mutation_rate
             all_start_end_points decay_rate) (range generations) st0 t0
      = Ok (states, t') ∧
    foldM (generation_body graph initial_mutation_rate minimum_mutation_rate
             all_start_end_points decay_rate) (range generations) st0 t0
      = Ok (final, t') ∧
    length states = Z.to_nat generations ∧
    path = bestPath final ∧ fitness = bestFitness final ∧
    (∀ s p, s ∈ states → p ∈ population s →
            ∃ d, calculate_path_distance graph p = Ok d ∧ wle fitness d) ∧
    ((fitness = Inf ∧ path = []) ∨
     (∃ s, s ∈ states ∧ path ∈ population s ∧
           calculate_path_distance graph path = Ok fitness)) ∧
    (∀ i a b, (states ++ [final]) !! i = Some a →
              (states ++ [final]) !! S i = Some b →
              wle (bestFitness b) (bestFitness a) ∧
              ((bestPath b = bestPath a ∧ bestFitness b = bestFitness a) ∨
               wlt (bestFitness b) (bestFitness a))).
Proof.
  unfold run_genetic_algorithm. intros H.
  apply bindM_Ok in H as ([decay_rate st0] & t0 & Hinit & H).
  apply bindM_Ok in H as (final & t1 & Hloop & H).
  apply retM_Ok in H as [[= -> ->] ->]. simpl in Hloop.
  assert (bestPath st0 = [] ∧ bestFitness st0 = Inf) as [Hp0 Hf0].
  { unfold initialise in Hinit.
    apply bindM_Ok in Hinit as (d & t2 & _ & Hinit).
    apply bindM_Ok in Hinit as (pop & t3 & _ & Hinit).
    apply retM_Ok in Hinit as [Hinit _]. by injection Hinit as _ ->. }
  destruct (loop_records_best _ _ _ _ _ _ _ _ _ _ Hloop)
    as (states & Htrace & Hlen & _ & Hadj & Hall & _ & Hcase).
  exists decay_rate, st0, t0, states, final.
  rewrite range_length in Hlen.
  do 8 (split; [done|]). split; [|split]; [done| |].
  - destruct Hcase as [[Hp Hf]|?]; [left | by right].
    by rewrite Hp, Hf.
  - intros i a b Ha Hb. destruct (Hadj i a b Ha Hb) as (_ & Hle & Hcase').
    split; [done|]. destruct Hcase' as [?|(? & _)]; [by left | by right].
Qed.

(** ** Runs that do not raise *)

Lemma breedable_distance (graph : Graph) (path : Path) :
  breedable graph path → ∃ d, calculate_path_distance graph path = Ok d.
Proof.
  intros (_ & _ & Hdom). eexists. apply calculate_path_distance_total.
  apply Forall_forall. intros a Ha. apply elem_of_dom.
  apply (proj1 (Forall_forall _ _) Hdom).
  eapply elem_of_sublist; [exact Ha|].
  rewrite removelast_firstn_len. apply sublist_take.
Qed.

Lemma rank_total_from (graph : Graph) (population : list Path) (k : nat) acc :
  Forall (λ path, ∃ d, calculate_path_distance graph path = Ok d) population →
  ∃ R, foldR (λ acc ip, d ← calculate_path_distance graph ip.2; Ok (acc ++ [(ip.1, d)]))
             (imap (λ i path, (Z.of_nat (k + i), path)) population) acc = Ok R.
Proof.
  intros Hall. revert k acc.
  induction Hall as [|p population [d Hd] _ IH]; intros k acc; simpl; [eauto|].
  rewrite Hd. simpl.
  rewrite (imap_ext _ (λ i path, (Z.of_nat (S k + i), path)))
    by (intros; simpl; do 2 f_equal; lia).
  apply IH.
Qed.

Lemma rank_total (graph : Graph) (population : list Path) :
  Forall (breedable graph) population → ∃ R, rank graph population = Ok R.
Proof.
  intros Hall. apply (rank_total_from graph population 0 []).
  eapply Forall_impl; [exact Hall|]. apply breedable_distance.
Qed.

Lemma sorted_rank_indices (graph : Graph) (population : list Path) R :
  rank graph population = Ok R →
  Forall (λ item, - len population ≤ item.1 < len population) (sort_by_fitness R).
Proof.
  intros HR. rewrite sort_by_fitness_Permutation. apply Forall_forall.
  intros item Hitem. destruct (rank_entry _ _ _ _ HR Hitem) as [Hrange _]. lia.
Qed.

Lemma record_best_total (graph : Graph) (st : driver) R :
  rank graph (population st) = Ok R → population st ≠ [] →
  ∃ st1, record_best st (sort_by_fitness R) = Ok st1.
Proof.
  intros HR Hne. unfold record_best.
  destruct (sort_by_fitness R) as [|top sorted] eqn:E.
  { exfalso. apply Hne, length_zero_iff_nil.
    rewrite <- (proj1 (rank_Ok _ _ _ HR)), <- sort_by_fitness_Permutation, E. done. }
  change (getitem (top :: sorted) 0) with (Ok (A:=Z * weight) top). simpl.
  destruct (wltb top.2 (bestFitness st)); [|eauto].
  destruct (rank_entry graph (population st) R top HR) as (Hrange & _).
  { rewrite <- sort_by_fitness_Permutation, E. by left. }
  destruct (getitem_in_range (population st) top.1 Hrange) as (p & -> & _).
  simpl. eauto.
Qed.

Lemma NoDup_insert_fresh (l : Path) (i : nat) (m : Node) :
  NoDup l → m ∉ l → NoDup (<[i:=m]> l).
Proof.
  intros Hl Hm. destruct (decide (i < length l)%nat) as [Hi|Hi].
  - destruct (lookup_lt_is_Some_2 l i Hi) as [x Hx].
    rewrite insert_take_drop by done.
    rewrite <- (take_drop_middle l i x Hx) in Hl, Hm.
    rewrite NoDup_app, NoDup_cons in *.
    rewrite elem_of_app, elem_of_cons in Hm.
    destruct Hl as (H1 & H2 & H3 & H4). split; [done|]. split.
    + intros y Hy [->|Hy']%elem_of_cons; [tauto|].
      apply (H2 y Hy). by right.
    + split; [tauto | done].
  - by rewrite list_insert_ge by lia.
Qed.

Lemma insert_elem_of (l : Path) (i : nat) (m x : Node) :
  x ∈ <[i:=m]> l → x = m ∨ x ∈ l.
Proof.
  intros [j Hj]%list_elem_of_lookup.
  apply list_lookup_insert_Some in Hj as [(-> & -> & _)|[_ Hj]]; [by left|].
  right. by eapply list_elem_of_lookup_2.
Qed.

(** On a child without repeated nodes the repair pass runs to its end, and
    what it writes are nodes the child did not hold. *)
Lemma repair_total (P : Node → Prop) (anchors : list Node) (indices : list Z)
    (child : Path) (missing : list Node) :
  (∀ i, i ∈ indices → 1 ≤ i ≤ len child - 2) →
  missing ≠ [] → NoDup child → NoDup missing →
  (∀ m, m ∈ missing → m ∉ child) →
  Forall P child → Forall P missing →
  ∃ child', repair anchors indices child missing = Ok child' ∧
            NoDup child' ∧ length child' = length child ∧ Forall P child'.
Proof.
  revert child missing.
  induction indices as [|i indices IH];
    intros child missing Hidx Hne Hndc Hndm Hfresh HPc HPm; simpl; [eauto|].
  assert (1 ≤ i ≤ len child - 2) as Hi by (apply Hidx; by left).
  destruct (getitem_in_range child i) as (c & -> & _); [lia|]. simpl.
  destruct (bool_decide (c ∈ anchors) || (1 <? count c child)).
  - assert (∃ missing' m, missing = missing' ++ [m]) as (missing' & m & ->).
    { destruct (last missing) as [m|] eqn:E.
      - apply last_Some in E as [l' ->]. eauto.
      - by apply last_None in E. }
    unfold pop. rewrite last_snoc, removelast_last. simpl.
    rewrite setitem_nonneg by lia. simpl.
    apply NoDup_app in Hndm as (Hndm' & Hm & _).
    apply Forall_app in HPm as [HPm' HPm].
    apply (proj1 (Forall_singleton P m)) in HPm.
    assert (NoDup (<[Z.to_nat i:=m]> child)) as Hnd'.
    { apply NoDup_insert_fresh; [done|]. apply Hfresh, elem_of_app. right. by left. }
    assert (Forall P (<[Z.to_nat i:=m]> child)) as HP' by (by apply Forall_insert).
    destruct missing' as [|m' rest].
    + eexists. split; [reflexivity|]. by rewrite length_insert.
    + destruct (IH (<[Z.to_nat i:=m]> child) (m' :: rest))
        as (child' & Hrun & Hnd'' & Hlen & HP''); try done.
      * unfold len. rewrite length_insert. intros j Hj. apply Hidx. by right.
      * intros x Hx [->|Hin]%insert_elem_of.
        -- apply (Hm m Hx). by left.
        -- apply (Hfresh x); [|done]. apply elem_of_app. by left.
      * exists child'. rewrite Hrun.
        split; [done|]. split; [done|]. by rewrite Hlen, length_insert.
  - apply IH; try done. intros j Hj. apply Hidx. by right.
Qed.

Lemma Crossover_breedable (graph : Graph) (Parent1 Parent2 : Path)
    (Start_Index End_Index : Z) (anchors : list Node) (t : tape) :
  breedable graph Parent1 → breedable graph Parent2 →
  ∃ child t',
    Crossover Parent1 Parent2 Start_Index End_Index anchors t = Ok (child, t') ∧
    breedable graph child.
Proof.
  intros (Hnd1 & Hlen1 & Hdom1) (Hnd2 & Hlen2 & Hdom2).
  pose proof (splice_Permutation Parent1 Parent2 Start_Index End_Index) as Hperm.
  simpl in Hperm.
  set (sec := slice Parent1 _ _) in Hperm.
  assert (sec `sublist_of` Parent1) as Hsub by apply slice_sublist.
  set (child := splice Parent1 Parent2 Start_Index End_Index) in *.
  assert (breedable graph child) as (Hndc & Hlenc & Hdomc).
  { unfold breedable. rewrite Hperm, length_app. split; [|split].
    - apply NoDup_app. split; [exact (sublist_NoDup _ _ Hnd1 Hsub)|].
      split; [|by apply NoDup_filter].
      intros x Hx [Hx' _]%list_elem_of_filter. done.
    - pose proof (filter_section_length sec Parent2 Hnd2). lia.
    - apply Forall_app. split.
      + apply Forall_forall. intros x Hx.
        eapply (proj1 (Forall_forall _ _) Hdom1), elem_of_sublist; eauto.
      + apply Forall_forall. intros x [_ Hx]%list_elem_of_filter.
        by apply (proj1 (Forall_forall _ _) Hdom2). }
  unfold Crossover. fold child.
  match goal with |- context [list_of_set ?m] =>
    destruct (list_of_set_total m t) as (missing & t' & Hm & Hmperm) end.
  rewrite (bindM_step _ _ _ _ _ Hm).
  destruct (decide (missing = [])) as [->|Hmne]; [by exists child, t'|].
  destruct (repair_total (λ x, x ∈ dom graph) anchors
              (range2 1 (len child - 1)) child missing)
    as (child' & Hrun & Hnd' & Hlen' & Hdom'); try done.
  - intros i Hi%range2_elem. lia.
  - rewrite Hmperm. apply NoDup_elements.
  - intros m. rewrite Hmperm, elem_of_elements, !elem_of_difference,
      !elem_of_list_to_set. tauto.
  - apply Forall_forall. intros m.
    rewrite Hmperm, elem_of_elements, !elem_of_difference, !elem_of_list_to_set.
    intros [[Hin _] _]. by apply (proj1 (Forall_forall _ _) Hdom1).
  - exists child', t'. unfold lift. rewrite Hrun.
    split; [by destruct missing|]. split; [done|]. split; [lia | done].
Qed.

Lemma reverse_segment_Permutation {A} (l : list A) (a b : nat) :
  (a ≤ b)%nat → take a l ++ reverse (take (b - a) (drop a l)) ++ drop b l ≡ₚ l.
Proof.
  intros Hab. rewrite reverse_Permutation.
  replace (drop b l) with (drop (b - a) (drop a l))
    by (rewrite drop_drop; f_equal; lia).
  by rewrite take_drop, take_drop.
Qed.

Lemma Mutate_breedable (graph : Graph) (Child : Path) (anchors : list Node) (t : tape) :
  breedable graph Child →
  ∃ Child' t', Mutate Child graph anchors t = Ok (Child', t') ∧ breedable graph Child'.
Proof.
  intros (Hnd & Hlen & Hdom).
  destruct (Mutate_cases Child graph anchors t) as (Child' & t' & Hrun & Hcase).
  exists Child', t'. split; [exact Hrun|].
  destruct Hcase as [->|[(a & b & Ha & Hab & Hb & ->)|(i & x & Hi & Hi' & Hx & Hfresh & _ & ->)]].
  - done.
  - unfold breedable. by rewrite (reverse_segment_Permutation Child a b Hab).
  - split; [by apply NoDup_insert_fresh|].
    split; [by rewrite length_insert | by apply Forall_insert].
Qed.

Lemma random_total t : ∃ u t', random t = Ok (u, t').
Proof.
  unfold random. destruct (next_total t) as (r & t' & Hr).
  rewrite (bindM_step _ _ _ _ _ Hr). by eexists _, _.
Qed.

Lemma breed_total (graph : Graph) (anchors : list Node) (mutation_rate : Q)
    (matingPool : list Path) (t : tape) :
  matingPool ≠ [] → Forall (breedable graph) matingPool →
  ∃ child t', breed graph anchors mutation_rate matingPool t = Ok (child, t') ∧
              breedable graph child.
Proof.
  intros Hne Hpool. unfold breed.
  assert (0 < len matingPool) as Hlen.
  { unfold len. destruct matingPool; [done | simpl; lia]. }
  assert (∀ t, ∃ i parent t',
            randint 0 (len matingPool - 1) t = Ok (i, t') ∧
            getitem matingPool i = Ok parent ∧ breedable graph parent) as Hpick.
  { intros t0. destruct (randint_total 0 (len matingPool - 1) t0)
      as (i & t1 & Hi & Hrange); [lia|].
    destruct (getitem_in_range matingPool i) as (parent & Hget & Hlook); [lia|].
    exists i, parent, t1. split; [done|]. split; [done|].
    eapply (proj1 (Forall_forall _ _) Hpool), list_elem_of_lookup_2, Hlook. }
  destruct (Hpick t) as (i1 & Parent1 & t1 & Hi1 & Hget1 & Hb1).
  rewrite (bindM_step _ _ _ _ _ Hi1).
  erewrite (bindM_step (lift _)); [|unfold lift; by rewrite Hget1].
  destruct (Hpick t1) as (i2 & Parent2 & t2 & Hi2 & Hget2 & Hb2).
  rewrite (bindM_step _ _ _ _ _ Hi2).
  erewrite (bindM_step (lift _)); [|unfold lift; by rewrite Hget2].
  assert (3 ≤ len Parent1) as Hlen1 by (destruct Hb1 as (_ & ? & _); unfold len; lia).
  destruct (randint_total 1 (len Parent1 - 2) t2) as (s & t3 & Hs & Hs'); [lia|].
  rewrite (bindM_step _ _ _ _ _ Hs).
  destruct (randint_total s (len Parent1 - 2) t3) as (e & t4 & He & He'); [lia|].
  rewrite (bindM_step _ _ _ _ _ He).
  destruct (Crossover_breedable graph Parent1 Parent2 s e anchors t4 Hb1 Hb2)
    as (child & t5 & Hchild & Hbc).
  rewrite (bindM_step _ _ _ _ _ Hchild).
  destruct (random_total t5) as (u & t6 & Hu).
  rewrite (bindM_step _ _ _ _ _ Hu).
  destruct (Qltb u mutation_rate).
  - by apply Mutate_breedable.
  - by exists child, t6.
Qed.

Section Totality.
Context (graph : Graph) (initial_mutation_rate minimum_mutation_rate : Q)
        (all_start_end_points : list Node) (decay_rate : Q).

Local Abbreviation body :=
  (generation_body graph initial_mutation_rate minimum_mutation_rate
              all_start_end_points decay_rate).

(** A generation started from a viable state completes in a viable state. *)
Lemma generation_total (st : driver) (generation : Z) (t : tape) :
  viable graph st → ∃ st' t', body st generation t = Ok (st', t') ∧ viable graph st'.
Proof.
  intros [Hsize Hpop]. unfold generation_body.
  destruct (rank_total graph (population st) Hpop) as [R HR].
  erewrite (bindM_step (lift _)); [|unfold lift; by rewrite HR].
  destruct (record_best_total graph st R HR) as [st1 Hst1].
  { intros E. rewrite E in Hsize. simpl in Hsize. lia. }
  erewrite (bindM_step (lift _)); [|unfold lift; by rewrite Hst1].
  destruct (record_best_Ok _ _ _ Hst1) as (_ & _ & Hsame & _).
  rewrite Hsame.
  destruct (CreateMatingPool_total (population st) (sort_by_fitness R) 3 t)
    as (pool & t1 & Hpool & Hplen & Hpmem).
  { unfold len. by rewrite sort_by_fitness_Permutation, (proj1 (rank_Ok _ _ _ HR)). }
  { by eapply sorted_rank_indices. }
  { unfold len. lia. }
  rewrite (bindM_step _ _ _ _ _ Hpool).
  assert (pool ≠ []) as Hne.
  { intros ->. unfold len in Hplen. simpl in Hplen. lia. }
  assert (Forall (breedable graph) pool) as Hbpool.
  { apply Forall_forall. intros p Hp.
    apply (proj1 (Forall_forall _ _) Hpmem) in Hp as [Hp _].
    by apply (proj1 (Forall_forall _ _) Hpop). }
  match goal with |- context [foldM ?f ?l ?a0] =>
    destruct (foldM_total_at
                (λ k acc, length acc = k ∧ Forall (breedable graph) acc) f l)
      with (k := 0%nat) (a := a0) (t := t1)
      as (children & t2 & Hchildren & Hclen & Hcb)
  end.
  - intros k acc i t0 _ [Hk Hacc].
    destruct (breed_total graph all_start_end_points
                (pymax (initial_mutation_rate - inject_Z generation * decay_rate)
                   minimum_mutation_rate) pool t0 Hne Hbpool)
      as (child & t0' & Hchild & Hbc).
    rewrite (bindM_step _ _ _ _ _ Hchild).
    eexists _, _. split; [reflexivity|].
    rewrite length_app, Forall_app, Forall_singleton. simpl.
    split; [lia | done].
  - split; [done | apply Forall_nil_2].
  - rewrite (bindM_step _ _ _ _ _ Hchildren).
    eexists _, _. split; [reflexivity|].
    rewrite range_length, half_len in Hclen.
    unfold viable. simpl. rewrite slice_to_half, length_app, length_take, Forall_app.
    assert (2 ≤ length (population st) / 2)%nat
      by (apply Nat.div_le_lower_bound; lia).
    pose proof (Nat.Div0.div_le_upper_bound (length (population st)) 2
                  (length (population st))).
    split; [lia|]. split; [done | by apply Forall_take].
Qed.

Lemma loop_total (gens : list Z) (st : driver) (t : tape) :
  viable graph st → ∃ final t', foldM body gens st t = Ok (final, t').
Proof.
  intros Hst.
  destruct (foldM_total (viable graph) body gens) with (a := st) (t := t)
    as (final & t' & H & _); [|done|by exists final, t'].
  intros a g t0 _ Ha. by apply generation_total.
Qed.
End Totality.

Lemma path_shape (s e : Node) (path : Path) :
  (2 ≤ length path)%nat → head path = Some s → last path = Some e →
  path = s :: interior path ++ [e].
Proof.
  intros Hlen Hhead Hlast.
  destruct path as [|x [|y rest]]; simpl in Hlen; try lia.
  injection Hhead as ->.
  rewrite last_cons_cons in Hlast. apply last_Some in Hlast as [inner Hinner].
  unfold interior. cbn [tail]. rewrite Hinner. by rewrite removelast_last.
Qed.

(** With two distinct ends that are keys of the graph, a requested length
    of at least 3 and a non-empty universe, the population factory only
    makes breedable paths. *)
Lemma initial_population_breedable (pop_size : Z) (graph : Graph)
    (start_attraction end_attraction : Node) (final_path_size : Z)
    (all_start_end_points : list Node) (t : tape) pop t' :
  start_attraction ≠ end_attraction →
  start_attraction ∈ dom graph → end_attraction ∈ dom graph →
  3 ≤ final_path_size →
  interior_universe graph all_start_end_points start_attraction end_attraction ≠ ∅ →
  CreateInitialPopulation pop_size graph start_attraction end_attraction
    final_path_size all_start_end_points t = Ok (pop, t') →
  Forall (breedable graph) pop.
Proof.
  intros Hse Hs He Hfps Hne Hrun.
  destruct (CreateInitialPopulation_total pop_size graph start_attraction
              end_attraction final_path_size all_start_end_points t)
    as (pop' & t'' & Hrun' & _ & Hshape); [lia|].
  rewrite Hrun in Hrun'. injection Hrun' as <- <-.
  eapply Forall_impl; [exact Hshape|]. simpl.
  intros path (Hlen & Hhead & Hlast & Hin & Hnd).
  set (universe := interior_universe _ _ _ _) in *.
  assert (0 < size universe)%nat as Hsize.
  { destruct (size universe) eqn:E; [|lia].
    exfalso. by apply Hne, leibniz_equiv, size_empty_iff. }
  assert (3 ≤ length path)%nat as Hlen' by (unfold len in Hlen; lia).
  rewrite (path_shape start_attraction end_attraction path) by (done || lia).
  assert (∀ x, x ∈ interior path →
               x ∈ dom graph ∧ x ≠ start_attraction ∧ x ≠ end_attraction) as Hint.
  { intros x Hx. apply (proj1 (Forall_forall _ _) Hin) in Hx.
    unfold universe, interior_universe in Hx.
    rewrite !elem_of_difference, elem_of_union, !elem_of_singleton in Hx. tauto. }
  split; [|split].
  - apply NoDup_cons. split.
    + intros [Hx| ->%list_elem_of_singleton]%elem_of_app; [|done].
      by apply Hint in Hx as (_ & ? & _).
    + apply NoDup_app. split; [done|]. split; [|apply NoDup_singleton].
      intros x Hx ->%list_elem_of_singleton. by apply Hint in Hx as (_ & _ & ?).
  - rewrite <- (path_shape start_attraction end_attraction path) by (done || lia). done.
  - apply Forall_cons. split; [done|]. apply Forall_app. split.
    + apply Forall_forall. intros x Hx. by apply Hint in Hx as (? & _).
    + by apply Forall_singleton.
Qed.

(** A run from a configuration as above, whose de-duplicated initial
    population holds at least four paths, returns. *)
Lemma run_total (graph : Graph) (initial_pop_size : Z)
    (start_attraction end_attraction : Node) (final_path_size generations : Z)
    (initial_mutation_rate minimum_mutation_rate : Q)
    (all_start_end_points : list Node) (t : tape) :
  start_attraction ≠ end_attraction →
  start_attraction ∈ dom graph → end_attraction ∈ dom graph →
  3 ≤ final_path_size →
  interior_universe graph all_start_end_points start_attraction end_attraction ≠ ∅ →
  generations ≠ 0 →
  ∃ decay_rate st0 t0,
    initialise graph initial_pop_size start_attraction end_attraction
      final_path_size generations initial_mutation_rate minimum_mutation_rate
      all_start_end_points t = Ok ((decay_rate, st0), t0) ∧
    ((4 ≤ length (population st0))%nat →
     ∃ path fitness t',
       run_genetic_algorithm graph initial_pop_size start_attraction end_attraction
         final_path_size generations initial_mutation_rate minimum_mutation_rate
         all_start_end_points t = Ok ((path, fitness), t')).
Proof.
  intros Hse Hs He Hfps Hne Hgen.
  destruct (CreateInitialPopulation_total initial_pop_size graph start_attraction
              end_attraction final_path_size all_start_end_points t)
    as (pop & t0 & Hpop & _ & _); [lia|].
  assert (initialise graph initial_pop_size start_attraction end_attraction
            final_path_size generations initial_mutation_rate minimum_mutation_rate
            all_start_end_points t
          = Ok (((initial_mutation_rate - minimum_mutation_rate)
                 / inject_Z generations)%Q, Driver pop [] Inf, t0)) as Hinit.
  { unfold initialise, divide.
    destruct (Z.eqb_spec generations 0) as [|_]; [done|].
    by rewrite (bindM_step _ _ _ _ _ (eq_refl : lift (Ok _) t = Ok (_, t))),
      (bindM_step _ _ _ _ _ Hpop). }
  eexists _, _, _. split; [exact Hinit|]. simpl. intros Hsize.
  unfold run_genetic_algorithm. rewrite (bindM_step _ _ _ _ _ Hinit). simpl.
  destruct (loop_total graph initial_mutation_rate minimum_mutation_rate
              all_start_end_points
              ((initial_mutation_rate - minimum_mutation_rate) / inject_Z generations)%Q
              (range generations) (Driver pop [] Inf) t0) as (final & t' & Hloop).
  { split; [exact Hsize|]. simpl. by eapply initial_population_breedable. }
  rewrite (bindM_step _ _ _ _ _ Hloop). by eexists _, _, _.
Qed.

(** C1, as the code has it. Whenever a run returns, the fitness it returns
    is the least fitness computed for any member of any population the
    run evaluated; the path it returns is a member of an evaluated
    population with that fitness, unless no fitness below +infinity was
    ever computed, in which case the returned path is the empty list and
    the returned fitness +infinity; from each generation to the next the
    recorded fitness does not grow, and the record changes only when it
    becomes strictly smaller. A run need not return: the loop raises when
    a population has fewer than three paths. It does return when the two
    ends are distinct keys of the graph, the requested length is at least
    3, some node is available for the interior, the number of generations
    is not 0 and the initial population holds at least four paths. *)
Theorem run_genetic_algorithm_best_so_far (graph : Graph) (initial_pop_size : Z)
    (start_attraction end_attraction : Node) (final_path_size generations : Z)
    (initial_mutation_rate minimum_mutation_rate : Q)
    (all_start_end_points : list Node) (t : tape) :
  (∀ path fitness t',
     run_genetic_algorithm graph initial_pop_size start_attraction end_attraction
       final_path_size generations initial_mutation_rate minimum_mutation_rate
       all_start_end_points t = Ok ((path, fitness), t') →
     ∃ decay_rate st0 t0 states final,
       initialise graph initial_pop_size start_attraction end_attraction
         final_path_size generations initial_mutation_rate minimum_mutation_rate
         all_start_end_points t = Ok ((decay_rate, st0), t0) ∧
       bestPath st0 = [] ∧ bestFitness st0 = Inf ∧
       trace (generation_body graph initial_mutation_rate minimum_mutation_rate
                all_start_end_points decay_rate) (range generations) st0 t0
         = Ok (states, t') ∧
       foldM (generation_body graph initial_mutation_rate minimum_mutation_rate
                all_start_end_points decay_rate) (range generations) st0 t0
         = Ok (final, t') ∧
       length states = Z.to_nat generations ∧
       path = bestPath final ∧ fitness = bestFitness final ∧
       (∀ s p, s ∈ states → p ∈ population s →
               ∃ d, calculate_path_distance graph p = Ok d ∧ wle fitness d) ∧
       ((fitness = Inf ∧ path = []) ∨
        (∃ s, s ∈ states ∧ path ∈ population s ∧
              calculate_path_distance graph path = Ok fitness)) ∧
       (∀ i a b, (states ++ [final]) !! i = Some a →
                 (states ++ [final]) !! S i = Some b →
                 wle (bestFitness b) (bestFitness a) ∧
                 ((bestPath b = bestPath a ∧ bestFitness b = bestFitness a) ∨
                  wlt (bestFitness b) (bestFitness a)))) ∧
  (start_attraction ≠ end_attraction →
   start_attraction ∈ dom graph → end_attraction ∈ dom graph →
   3 ≤ final_path_size →
   interior_universe graph all_start_end_points start_attraction end_attraction ≠ ∅ →
   generations ≠ 0 →
   ∃ decay_rate st0 t0,
     initialise graph initial_pop_size start_attraction end_attraction
       final_path_size generations initial_mutation_rate minimum_mutation_rate
       all_start_end_points t = Ok ((decay_rate, st0), t0) ∧
     ((4 ≤ length (population st0))%nat →
      ∃ path fitness t',
        run_genetic_algorithm graph initial_pop_size start_attraction end_attraction
          final_path_size generations initial_mutation_rate minimum_mutation_rate
          all_start_end_points t = Ok ((path, fitness), t'))).
Proof.
  split.
  - intros path fitness t'. apply run_returns_best_observed.
  - apply run_total.
Qed.

(** ** Malformed configurations *)

Section Configuration.
Context (graph : Graph) (initial_pop_size : Z)
        (start_attraction end_attraction : Node) (final_path_size generations : Z)
        (initial_mutation_rate minimum_mutation_rate : Q)
        (all_start_end_points : list Node).

Local Abbreviation init :=
  (initialise graph initial_pop_size start_attraction end_attraction
              final_path_size generations initial_mutation_rate
              minimum_mutation_rate all_start_end_points).
Local Abbreviation run :=
  (run_genetic_algorithm graph initial_pop_size start_attraction
             end_attraction final_path_size generations initial_mutation_rate
             minimum_mutation_rate all_start_end_points).
Local Abbreviation body :=
  (generation_body graph initial_mutation_rate minimum_mutation_rate
              all_start_end_points).

Lemma run_raises_with_initialise t e : init t = Raise e → run t = Raise e.
Proof. intros H. unfold run_genetic_algorithm. by apply bindM_Raise. Qed.

Lemma initialise_no_generations t :
  generations = 0 → init t = Raise ZeroDivisionError.
Proof. intros ->. reflexivity. Qed.

Lemma initialise_Ok t :
  generations ≠ 0 → 2 ≤ final_path_size →
  ∃ population t0,
    CreateInitialPopulation initial_pop_size graph start_attraction end_attraction
      final_path_size all_start_end_points t = Ok (population, t0) ∧
    init t = Ok (((initial_mutation_rate - minimum_mutation_rate)
                  / inject_Z generations)%Q, Driver population [] Inf, t0).
Proof.
  intros Hgen Hfps.
  destruct (CreateInitialPopulation_total initial_pop_size graph start_attraction
              end_attraction final_path_size all_start_end_points t)
    as (pop & t0 & Hpop & _ & _); [lia|].
  exists pop, t0. split; [done|].
  unfold initialise, divide.
  destruct (Z.eqb_spec generations 0) as [|_]; [done|].
  by rewrite (bindM_step _ _ _ _ _ (eq_refl : lift (Ok _) t = Ok (_, t))),
    (bindM_step _ _ _ _ _ Hpop).
Qed.

Lemma initialise_short_path t :
  generations ≠ 0 → final_path_size < 2 → 1 ≤ initial_pop_size →
  init t = Raise ValueError.
Proof.
  intros Hgen Hfps Hsize. unfold initialise, divide.
  destruct (Z.eqb_spec generations 0) as [|_]; [done|].
  rewrite (bindM_step _ _ _ _ _ (eq_refl : lift (Ok _) t = Ok (_, t))).
  apply bindM_Raise. unfold CreateInitialPopulation.
  destruct (range_nonempty initial_pop_size) as [l ->]; [lia|].
  apply foldM_first_raises.
  match goal with |- context [list_of_set ?s] =>
    destruct (list_of_set_total s t) as (cand & t1 & Hcand & _) end.
  rewrite (bindM_step _ _ _ _ _ Hcand).
  apply bindM_Raise, sample_invalid. lia.
Qed.

(** With fewer than three paths the first tournament cannot be drawn, and
    with none there is no first entry in the rank list. *)
Lemma generation_small_population decay_rate st generation t :
  (length (population st) < 3)%nat → ∃ e, body decay_rate st generation t = Raise e.
Proof.
  intros Hsize. unfold generation_body.
  destruct (rank graph (population st)) as [R|e] eqn:HR; [|by exists e].
  erewrite (bindM_step (lift _)); [|reflexivity].
  destruct (record_best st (sort_by_fitness R)) as [st1|e] eqn:Hst1; [|by exists e].
  erewrite (bindM_step (lift _)); [|reflexivity].
  destruct (record_best_Ok _ _ _ Hst1) as (top & Htop & Hsame & _).
  exists ValueError. apply bindM_Raise. rewrite Hsame.
  assert (length (sort_by_fitness R) = length (population st)) as Hlen
    by (by rewrite sort_by_fitness_Permutation, (proj1 (rank_Ok _ _ _ HR))).
  apply CreateMatingPool_raises; unfold len.
  - destruct (sort_by_fitness R); [done|]. simpl in Hlen. lia.
  - left. lia.
Qed.

(** A path that starts with a node that is no key of the graph cannot be
    evaluated. *)
Lemma missing_start_distance path :
  (2 ≤ length path)%nat → head path = Some start_attraction →
  start_attraction ∉ dom graph →
  calculate_path_distance graph path = Raise KeyError.
Proof.
  intros Hlen Hhead Hkey. unfold calculate_path_distance.
  destruct (range_nonempty (len path - 1)) as [l ->]; [unfold len; lia|].
  simpl. apply getitem_0 in Hhead. rewrite Hhead. simpl.
  unfold subscript. apply not_elem_of_dom in Hkey. by rewrite Hkey.
Qed.

Lemma generation_missing_start decay_rate st generation t :
  Forall (λ path, (2 ≤ length path)%nat ∧ head path = Some start_attraction)
         (population st) →
  start_attraction ∉ dom graph →
  ∃ e, body decay_rate st generation t = Raise e.
Proof.
  intros Hpop Hkey.
  destruct (population st) as [|p rest] eqn:E.
  - apply generation_small_population. rewrite E. simpl. lia.
  - unfold generation_body. exists KeyError. apply bindM_Raise.
    rewrite E. unfold rank. simpl.
    apply Forall_cons in Hpop as [[Hlen Hhead] _].
    by rewrite missing_start_distance.
Qed.

Lemma run_raises_in_first_generation t decay_rate st0 t0 e :
  init t = Ok ((decay_rate, st0), t0) → 1 ≤ generations →
  body decay_rate st0 0 t0 = Raise e → run t = Raise e.
Proof.
  intros Hinit Hgen Hbody. unfold run_genetic_algorithm.
  rewrite (bindM_step _ _ _ _ _ Hinit). simpl.
  apply bindM_Raise.
  destruct (range_nonempty generations) as [l ->]; [lia|].
  by apply foldM_first_raises.
Qed.

Lemma run_negative_generations t :
  generations < 0 → 2 ≤ final_path_size → ∃ t', run t = Ok (([], Inf), t').
Proof.
  intros Hgen Hfps.
  destruct (initialise_Ok t) as (pop & t0 & _ & Hinit); [lia | done |].
  exists t0. unfold run_genetic_algorithm.
  rewrite (bindM_step _ _ _ _ _ Hinit). simpl.
  by rewrite range_empty by lia.
Qed.
End Configuration.

(** C4, as the code has it. [run_genetic_algorithm] checks nothing; what it
    does with a malformed configuration follows from its first failing
    operation. With [generations = 0] the run raises [ZeroDivisionError],
    and with a path length below 2 (one path at least being asked for, and
    [generations] not 0) it raises [ValueError]: both before the population
    is complete and so before any generation. With a population size below
    3, so below the tournament size, or with a start that is no key of the
    graph, the population is built and the error is raised by the first
    generation. With a negative number of generations nothing is raised:
    the run returns the empty path with fitness +infinity. *)
Theorem configuration_errors (graph : Graph) (initial_pop_size : Z)
    (start_attraction end_attraction : Node) (final_path_size generations : Z)
    (initial_mutation_rate minimum_mutation_rate : Q)
    (all_start_end_points : list Node) (t : tape) :
  let init := initialise graph initial_pop_size start_attraction end_attraction
                final_path_size generations initial_mutation_rate
                minimum_mutation_rate all_start_end_points in
  let run := run_genetic_algorithm graph initial_pop_size start_attraction
               end_attraction final_path_size generations initial_mutation_rate
               minimum_mutation_rate all_start_end_points in
  (generations = 0 →
   init t = Raise ZeroDivisionError ∧ run t = Raise ZeroDivisionError) ∧
  (generations ≠ 0 → final_path_size < 2 → 1 ≤ initial_pop_size →
   init t = Raise ValueError ∧ run t = Raise ValueError) ∧
  (1 ≤ generations → 2 ≤ final_path_size →
   initial_pop_size < 3 ∨ start_attraction ∉ dom graph →
   ∃ decay_rate st0 t0 e,
     init t = Ok ((decay_rate, st0), t0) ∧
     generation_body graph initial_mutation_rate minimum_mutation_rate
       all_start_end_points decay_rate st0 0 t0 = Raise e ∧
     run t = Raise e) ∧
  (generations < 0 → 2 ≤ final_path_size → ∃ t', run t = Ok (([], Inf), t')).
Proof.
  intros init run. split; [|split; [|split]].
  - intros Hgen.
    pose proof (initialise_no_generations graph initial_pop_size start_attraction
                  end_attraction final_path_size generations initial_mutation_rate
                  minimum_mutation_rate all_start_end_points t Hgen) as H.
    split; [exact H | by apply run_raises_with_initialise].
  - intros Hgen Hfps Hsize.
    pose proof (initialise_short_path graph initial_pop_size start_attraction
                  end_attraction final_path_size generations initial_mutation_rate
                  minimum_mutation_rate all_start_end_points t Hgen Hfps Hsize) as H.
    split; [exact H | by apply run_raises_with_initialise].
  - intros Hgen Hfps Hbad.
    destruct (initialise_Ok graph initial_pop_size start_attraction end_attraction
                final_path_size generations initial_mutation_rate
                minimum_mutation_rate all_start_end_points t)
      as (pop & t0 & Hpop & Hinit); [lia | done |].
    destruct (CreateInitialPopulation_total initial_pop_size graph start_attraction
                end_attraction final_path_size all_start_end_points t Hfps)
      as (pop' & t0' & Hpop' & Hsize & Hshape).
    rewrite Hpop in Hpop'. injection Hpop' as <- <-.
    set (decay_rate := ((initial_mutation_rate - minimum_mutation_rate)
                        / inject_Z generations)%Q) in *.
    assert (∃ e, generation_body graph initial_mutation_rate minimum_mutation_rate
                   all_start_end_points decay_rate (Driver pop [] Inf) 0 t0 = Raise e)
      as [e He].
    { destruct Hbad as [Hsmall|Hkey].
      - apply generation_small_population. simpl. lia.
      - apply (generation_missing_start graph start_attraction); [|done]. simpl.
        eapply Forall_impl; [exact Hshape|]. simpl.
        intros path (Hlen & Hhead & _). split; [|done].
        pose proof (Nat2Z.is_nonneg (size (interior_universe graph all_start_end_points
                                             start_attraction end_attraction))).
        unfold len in Hlen. lia. }
    exists decay_rate, (Driver pop [] Inf), t0, e.
    split; [exact Hinit|]. split; [exact He|].
    by eapply run_raises_in_first_generation.
  - by apply run_negative_generations.
Qed.

(** C4 as stated fails: a negative number of generations is accepted, and
    so is an end that is no node of the graph. Both runs return the empty
    path and +infinity. *)
Lemma malformed_configurations_accepted :
  run_genetic_algorithm example_graph 4 "A" "D" 5 (-1) (1 # 2) (1 # 10) ["A"; "D"]
    example_tape
  = Ok (([], Inf), drop 24 example_tape) ∧
  ("Z" ∉ dom example_graph) ∧
  run_genetic_algorithm example_graph 4 "A" "Z" 5 3 (1 # 2) (1 # 10) ["A"; "Z"]
    wide_tape
  = Ok (([], Inf), []).
Proof.
  split; [by vm_compute|]. split; [|by vm_compute].
  apply not_elem_of_dom. by vm_compute.
Qed.

(** ** Replacement *)

(** C5, as the code has it. A generation that completes on a population of
    [n] paths leaves [2 * (n // 2)] paths: as many as before when [n] is
    even, one fewer when [n] is odd. A generation started from at least
    four breedable paths does complete. *)
Theorem generation_population_size (graph : Graph)
    (initial_mutation_rate minimum_mutation_rate : Q)
    (all_start_end_points : list Node) (decay_rate : Q)
    (st : driver) (generation : Z) (t : tape) :
  let n := length (population st) in
  (∀ st' t',
     generation_body graph initial_mutation_rate minimum_mutation_rate
       all_start_end_points decay_rate st generation t = Ok (st', t') →
     length (population st') = (2 * (n / 2))%nat ∧
     ((n mod 2 = 0)%nat → length (population st') = n) ∧
     ((n mod 2 = 1)%nat → S (length (population st')) = n)) ∧
  (viable graph st →
   ∃ st' t',
     generation_body graph initial_mutation_rate minimum_mutation_rate
       all_start_end_points decay_rate st generation t = Ok (st', t')).
Proof.
  intros n. split.
  - intros st' t' H.
    apply generation_body_Ok in H
      as (R & st1 & pool & children & _ & _ & _ & _ & Hclen & Hpop & _).
    fold n in Hclen, Hpop.
    pose proof (Nat.div_mod_eq n 2) as Hdiv.
    assert (length (population st') = (2 * (n / 2))%nat) as Hlen.
    { rewrite Hpop, length_app, length_take, Hclen. fold n. lia. }
    split; [exact Hlen|]. split; intros Hmod; lia.
  - intros Hst.
    destruct (generation_total graph initial_mutation_rate minimum_mutation_rate
                all_start_end_points decay_rate st generation t Hst)
      as (st' & t' & H & _).
    by exists st', t'.
Qed.

(** C5 as stated fails on an odd population: a generation takes three
    paths to two. *)
Lemma odd_population_shrinks :
  ∃ st' t',
    generation_body example_graph 0 0 ["A"; "D"] 0
      (Driver (take 3 example_population) [] Inf) 0 [] = Ok (st', t') ∧
    length (take 3 example_population) = 3%nat ∧
    length (population st') = 2%nat.
Proof. eexists _, _. split; [by vm_compute|]. split; reflexivity. Qed.

(** C2, on the code. The comment in the source announces that the best
    [size / 2] individuals are retained; the code retains
    [population[:size//2]], the first [size // 2] paths in population
    order. On [example_population], ranked 9, 7, 5, 4, the generation
    completes and the two paths it retains, behind the two children, are
    those of fitness 9 and 7, not the two best; and this is so for every
    outcome of the draws for which the generation completes. *)
Theorem elitism_retains_first_half :
  rank example_graph example_population
  = Ok [(0, Fin 9); (1, Fin 7); (2, Fin 5); (3, Fin 4)] ∧
  (∃ st' t',
     generation_body example_graph 0 0 ["A"; "D"] 0
       (Driver example_population [] Inf) 0 [] = Ok (st', t') ∧
     length (population st') = 4%nat) ∧
  (∀ t st' t',
     generation_body example_graph 0 0 ["A"; "D"] 0
       (Driver example_population [] Inf) 0 t = Ok (st', t') →
     drop 2 (population st') = [["A"; "B"; "C"; "D"]; ["A"; "C"; "B"; "D"]]).
Proof.
  split; [by vm_compute|]. split.
  - eexists _, _. split; [by vm_compute | reflexivity].
  - intros t st' t' H.
    apply generation_body_Ok in H
      as (R & st1 & pool & children & _ & _ & _ & _ & Hclen & Hpop & _).
    simpl in Hclen, Hpop. rewrite Hpop.
    by rewrite drop_app_length' by (by rewrite Hclen).
Qed.

(** ** The properties at work on the examples *)

(** Decide a closed decidable proposition by evaluation. *)
Ltac by_evaluation :=
  match goal with
  | |- ?P => apply (bool_decide_unpack P); vm_compute; exact I
  end.

(** With a requested length of 2 every path is the pair of the two ends,
    and the population holds one path at most. *)
Lemma two_node_population (pop_size : Z) (graph : Graph) (s e : Node)
    (anchors : list Node) (t : tape) pop t' :
  CreateInitialPopulation pop_size graph s e 2 anchors t = Ok (pop, t') →
  (length pop ≤ 1)%nat.
Proof.
  unfold CreateInitialPopulation. intros H.
  apply (foldM_invariant (λ acc, acc = [] ∨ acc = [[s; e]])) in H.
  - destruct H as [-> | ->]; simpl; lia.
  - intros acc i t0 acc' t0' _ Hacc Hstep.
    apply bindM_Ok in Hstep as (cand & t1 & _ & Hstep).
    apply bindM_Ok in Hstep as (inner & t2 & Hinner & Hstep).
    apply retM_Ok in Hstep as [-> _].
    apply sample_Ok in Hinner as (_ & Hlen & _).
    assert (inner = []) as ->.
    { apply length_zero_iff_nil. pose proof (len_nonneg cand). unfold len in *. lia. }
    destruct Hacc as [-> | ->]; [by right|].
    rewrite bool_decide_eq_true_2 by (by left). by right.
  - by left.
Qed.

(** C1 as stated fails in two ways. A well-formed configuration with
    [final_path_size = 2] raises whatever the draws: every path is the pair
    of the two ends, the population holds one path, and no tournament of
    three can be drawn. And on a graph without roads a run returns the
    empty list with +infinity, although the empty list has fitness 0 and
    never was in a population. *)
Lemma run_raises_or_returns_no_path :
  (∀ t, ∃ e, run_genetic_algorithm example_graph 4 "A" "D" 2 1 (1 # 2) (1 # 10)
               ["A"; "D"] t = Raise e) ∧
  run_genetic_algorithm roadless_graph 4 "A" "D" 5 2 (1 # 2) (1 # 10)
    ["A"; "D"] example_tape = Ok (([], Inf), []) ∧
  calculate_path_distance roadless_graph [] = Ok (Fin 0).
Proof.
  split; [|split; by vm_compute].
  intros t.
  destruct (initialise_Ok example_graph 4 "A" "D" 2 1 (1 # 2) (1 # 10) ["A"; "D"] t)
    as (pop & t0 & Hpop & Hinit); [done..|].
  apply two_node_population in Hpop.
  destruct (generation_small_population example_graph (1 # 2) (1 # 10) ["A"; "D"]
              (((1 # 2) - (1 # 10)) / inject_Z 1)%Q (Driver pop [] Inf) 0 t0)
    as [e He]; [simpl; lia|].
  exists e. by eapply run_raises_in_first_generation.
Qed.

(** A run of two generations over [example_graph]: the configuration meets
    the conditions under which the run returns, and what it returns is
    the least fitness of the two populations it evaluated. *)
Lemma run_genetic_algorithm_best_so_far_witness :
  ∃ path fitness t' decay_rate st0 t0 states,
    run_genetic_algorithm example_graph 4 "A" "D" 5 2 (1 # 2) (1 # 10) ["A"; "D"]
      example_tape = Ok ((path, fitness), t') ∧
    initialise example_graph 4 "A" "D" 5 2 (1 # 2) (1 # 10) ["A"; "D"] example_tape
      = Ok ((decay_rate, st0), t0) ∧
    trace (generation_body example_graph (1 # 2) (1 # 10) ["A"; "D"] decay_rate)
      (range 2) st0 t0 = Ok (states, t') ∧
    (∀ s p, s ∈ states → p ∈ population s →
            ∃ d, calculate_path_distance example_graph p = Ok d ∧ wle fitness d).
Proof.
  destruct (run_genetic_algorithm_best_so_far example_graph 4 "A" "D" 5 2
              (1 # 2) (1 # 10) ["A"; "D"] example_tape) as [Hbest Hreturns].
  destruct Hreturns as (decay_rate & st0 & t0 & Hinit & Hrun);
    [done | by_evaluation | by_evaluation | lia | by_evaluation | done |].
  destruct Hrun as (path & fitness & t' & Hrun).
  { vm_compute in Hinit. injection Hinit as _ <- _. simpl. lia. }
  destruct (Hbest path fitness t' Hrun)
    as (decay_rate' & st0' & t0' & states & final & Hinit' & _ & _ & Htrace
        & _ & _ & _ & _ & Hleast & _).
  exists path, fitness, t', decay_rate', st0', t0', states.
  split; [exact Hrun|]. split; [exact Hinit'|]. split; [exact Htrace | exact Hleast].
Defined.

(** The population that the generation leaves on the empty tape. *)
Lemma elitism_retains_first_half_witness :
  drop 2 [["A"; "E"; "B"; "D"]; ["A"; "E"; "B"; "D"];
          ["A"; "B"; "C"; "D"]; ["A"; "C"; "B"; "D"]]
  = [["A"; "B"; "C"; "D"]; ["A"; "C"; "B"; "D"]].
Proof.
  destruct elitism_retains_first_half as (_ & _ & Hretained).
  apply (Hretained [] (Driver [["A"; "E"; "B"; "D"]; ["A"; "E"; "B"; "D"];
                                ["A"; "B"; "C"; "D"]; ["A"; "C"; "B"; "D"]]
                         ["A"; "E"; "B"; "D"] (Fin 4)) []).
  by vm_compute.
Defined.

(** Two valid parents that differ in one interior node. *)
Lemma Crossover_keeps_anchors_and_uniqueness_witness :
  valid_path "A" "D" ["A"; "D"] ["A"; "B"; "C"; "D"] ∧
  valid_path "A" "D" ["A"; "D"] ["A"; "C"; "E"; "D"] ∧
  ∃ child t',
    Crossover ["A"; "B"; "C"; "D"] ["A"; "C"; "E"; "D"] 2 2 ["A"; "D"] [] = Ok (child, t') ∧
    (∀ x, x ∉ ["A"; "D"] → count x child ≤ 1) ∧
    head child = Some "A" ∧ last child = Some "D" ∧
    Forall (λ x, x ∉ ["A"; "D"]) (interior child).
Proof.
  assert (valid_path "A" "D" ["A"; "D"] ["A"; "B"; "C"; "D"]) as H1 by by_evaluation.
  assert (valid_path "A" "D" ["A"; "D"] ["A"; "C"; "E"; "D"]) as H2 by by_evaluation.
  split; [exact H1|]. split; [exact H2|].
  apply (Crossover_keeps_anchors_and_uniqueness "A" "D" ["A"; "D"]
           ["A"; "B"; "C"; "D"] ["A"; "C"; "E"; "D"] 2 2 []);
    [by_evaluation | by_evaluation | exact H1 | exact H2 | reflexivity].
Defined.

(** One malformed configuration of each kind. *)
Lemma configuration_errors_witness :
  run_genetic_algorithm example_graph 4 "A" "D" 5 0 (1 # 2) (1 # 10) ["A"; "D"] []
    = Raise ZeroDivisionError ∧
  run_genetic_algorithm example_graph 4 "A" "D" 1 3 (1 # 2) (1 # 10) ["A"; "D"] []
    = Raise ValueError ∧
  (∃ e, run_genetic_algorithm example_graph 2 "A" "D" 5 3 (1 # 2) (1 # 10) ["A"; "D"]
          example_tape = Raise e) ∧
  (∃ t', run_genetic_algorithm example_graph 4 "A" "D" 5 (-1) (1 # 2) (1 # 10)
           ["A"; "D"] example_tape = Ok (([], Inf), t')).
Proof.
  split; [|split; [|split]].
  - apply (configuration_errors example_graph 4 "A" "D" 5 0 (1 # 2) (1 # 10)
             ["A"; "D"] []). reflexivity.
  - apply (configuration_errors example_graph 4 "A" "D" 1 3 (1 # 2) (1 # 10)
             ["A"; "D"] []); lia.
  - destruct (configuration_errors example_graph 2 "A" "D" 5 3 (1 # 2) (1 # 10)
                ["A"; "D"] example_tape) as (_ & _ & Hfirst & _).
    destruct Hfirst as (decay_rate & st0 & t0 & e & _ & _ & Hrun); [lia | lia | left; lia |].
    by exists e.
  - apply (configuration_errors example_graph 4 "A" "D" 5 (-1) (1 # 2) (1 # 10)
             ["A"; "D"] example_tape); lia.
Defined.

(** A generation on the four paths of [example_population]. *)
Lemma generation_population_size_witness :
  viable example_graph (Driver example_population [] Inf) ∧
  ∃ st' t',
    generation_body example_graph (1 # 2) (1 # 10) ["A"; "D"] (1 # 5)
      (Driver example_population [] Inf) 0 example_tape = Ok (st', t') ∧
    length (population st') = length example_population.
Proof.
  assert (viable example_graph (Driver example_population [] Inf)) as Hv
    by by_evaluation.
  split; [exact Hv|].
  destruct (generation_population_size example_graph (1 # 2) (1 # 10) ["A"; "D"]
              (1 # 5) (Driver example_population [] Inf) 0 example_tape)
    as [Hsize Hreturns].
  destruct (Hreturns Hv) as (st' & t' & Hrun).
  exists st', t'. split; [exact Hrun|].
  destruct (Hsize st' t' Hrun) as (_ & Heven & _). apply Heven. reflexivity.
Defined.

(** Four paths of length 5 over [example_graph]. *)
Lemma CreateInitialPopulation_paths_witness :
  ∃ initial_population t',
    CreateInitialPopulation 4 example_graph "A" "D" 5 ["A"; "D"] example_tape
      = Ok (initial_population, t') ∧
    Forall (λ path,
              len path
              = Z.min 5 (Z.of_nat (size (interior_universe example_graph
                                           ["A"; "D"] "A" "D")) + 2) ∧
              head path = Some "A" ∧
              last path = Some "D" ∧
              Forall (λ x, x ∈ interior_universe example_graph ["A"; "D"] "A" "D")
                     (interior path) ∧
              NoDup (interior path))
           initial_population.
Proof.
  apply (CreateInitialPopulation_paths 4 example_graph "A" "D" 5 ["A"; "D"]
           example_tape). lia.
Defined.

(** On [sparse_graph] the path through [B] costs 9 and the path that
    leaves [A] for [C] costs +infinity. *)
Lemma calculate_path_distance_sums_edges_witness :
  calculate_path_distance sparse_graph ["A"; "B"; "C"; "D"] = Ok (Fin 9) ∧
  calculate_path_distance sparse_graph ["A"; "C"; "B"; "D"] = Ok Inf.
Proof.
  split.
  - destruct (calculate_path_distance_sums_edges sparse_graph ["A"; "B"; "C"; "D"])
      as [Hsum _]; [by_evaluation|].
    rewrite Hsum. by vm_compute.
  - destruct (calculate_path_distance_sums_edges sparse_graph ["A"; "C"; "B"; "D"])
      as [_ Hinf]; [by_evaluation|].
    apply (Hinf "A" "C"); [by left | by vm_compute].
Defined.

(** Four tournaments of three over the ranking of [example_population]. *)
Lemma CreateMatingPool_selects_witness :
  ∃ matingPool t',
    CreateMatingPool example_population [(3, Fin 4); (2, Fin 5); (1, Fin 7); (0, Fin 9)]
      3 example_tape = Ok (matingPool, t') ∧
    len matingPool = 4 ∧
    Forall (λ path, path ∈ example_population) matingPool.
Proof.
  destruct (CreateMatingPool_selects example_population
              [(3, Fin 4); (2, Fin 5); (1, Fin 7); (0, Fin 9)] 3 example_tape)
    as (Hpool & _ & _); [reflexivity | by_evaluation |].
  destruct Hpool as (pool & t' & Hrun & Hlen & Hmem); [done|].
  exists pool, t'. split; [exact Hrun|]. split; [exact Hlen|].
  eapply Forall_impl; [exact Hmem|]. by intros path [Hin _].
Defined.

(** Two arrangements of the same five nodes. *)
Lemma Crossover_preserves_length_witness :
  ∃ child t',
    Crossover ["A"; "B"; "C"; "E"; "D"] ["A"; "E"; "C"; "B"; "D"] 2 3 ["A"; "D"]
      example_tape = Ok (child, t') ∧
    length child = 5%nat.
Proof.
  destruct (Crossover_preserves_length ["A"; "B"; "C"; "E"; "D"]
              ["A"; "E"; "C"; "B"; "D"] 2 3 ["A"; "D"] example_tape)
    as (child & t' & Hrun & Hlen & _); [by_evaluation | by_evaluation | |].
  - intros x. rewrite !elem_of_cons, !elem_of_nil. tauto.
  - by exists child, t'.
Defined.

(** ** The hypotheses are needed *)

(** Parents over different node sets: the child is longer than both. *)
Example Crossover_grows :
  Crossover ["A"; "B"; "C"; "D"] ["A"; "C"; "E"; "D"] 1 1 ["A"; "D"] []
  = Ok (["A"; "B"; "C"; "E"; "D"], []).
Proof. reflexivity. Qed.

(** Valid parents of different lengths: the end leaves the last position,
    and the repair pass, which overwrites it in the interior, does not
    bring it back, whichever missing node it writes. *)
Example Crossover_loses_the_end (t : tape) :
  ∃ child t',
    Crossover ["A"; "B"; "C"; "E"; "F"; "D"] ["A"; "E"; "F"; "D"] 3 4 ["A"; "D"] t
    = Ok (child, t') ∧
    last child = Some "F".
Proof.
  destruct (list_of_set_total (list_to_set ["B"; "C"]) t) as (missing & t' & Hrun & Hperm).
  assert (missing = ["B"; "C"] ∨ missing = ["C"; "B"]) as Hcases.
  { assert (length missing = 2%nat) as Hlen by (by rewrite Hperm).
    assert (NoDup missing) as Hnd by (rewrite Hperm; apply NoDup_elements).
    assert (∀ x, x ∈ missing → x = "B" ∨ x = "C") as Hin.
    { intros x. rewrite Hperm, elem_of_elements, elem_of_list_to_set.
      rewrite !elem_of_cons, elem_of_nil. tauto. }
    destruct missing as [|x [|y [|z rest]]]; try discriminate.
    apply NoDup_cons in Hnd as [Hxy _].
    rewrite list_elem_of_singleton in Hxy.
    destruct (Hin x) as [-> | ->]; [by left|..];
      (destruct (Hin y) as [-> | ->]; [right; by left|..]); tauto. }
  unfold Crossover.
  replace (list_to_set ["A"; "B"; "C"; "E"; "F"; "D"] ∖ list_to_set ["A"; "D"]
           ∖ list_to_set (splice ["A"; "B"; "C"; "E"; "F"; "D"]
                            ["A"; "E"; "F"; "D"] 3 4))
    with (list_to_set ["B"; "C"] : gset string)
    by by_evaluation.
  rewrite (bindM_step _ _ _ _ _ Hrun).
  destruct Hcases as [-> | ->]; eexists _, _; split; reflexivity.
Qed.

(** A run of two generations, evaluated. *)
Example run_example :
  run_genetic_algorithm example_graph 4 "A" "D" 5 2 (1 # 2) (1 # 10) ["A"; "D"]
    example_tape
  = Ok ((["A"; "E"; "C"; "B"; "D"], Fin 5), []).
Proof. by vm_compute. Qed.

(** * Further properties of the code *)

(** ** create_graph_with_manhattan_distances *)

Section fold_insert.
Context {X V : Type} (key : X → string) (val : X → V).

Local Abbreviation put :=
  (fold_left (λ (g : gmap string V) y, <[key y := val y]> g)).

Lemma fold_insert_other l (g : gmap string V) k :
  (∀ y, y ∈ l → key y ≠ k) → put l g !! k = g !! k.
Proof.
  revert g. induction l as [|x l IH]; intros g Hk; simpl; [done|].
  rewrite IH by (intros; apply Hk; by right).
  apply lookup_insert_ne, Hk. by left.
Qed.

(** The last element with a given key decides what is stored under it. *)
Lemma fold_insert_last l1 x l2 (g : gmap string V) :
  (∀ y, y ∈ l2 → key y ≠ key x) → put (l1 ++ x :: l2) g !! key x = Some (val x).
Proof.
  intros Hk. rewrite fold_left_app. simpl.
  rewrite fold_insert_other by done. apply lookup_insert_eq.
Qed.

Lemma fold_insert_dom l (g : gmap string V) k :
  k ∈ dom (put l g) ↔ k ∈ dom g ∨ k ∈ key <$> l.
Proof.
  revert g. induction l as [|x l IH]; intros g; simpl.
  - rewrite elem_of_nil. tauto.
  - rewrite IH, dom_insert_L, elem_of_union, elem_of_singleton, elem_of_cons. tauto.
Qed.

Lemma fold_insert_unique l x (g : gmap string V) :
  x ∈ l → (∀ y, y ∈ l → key y = key x → y = x) → put l g !! key x = Some (val x).
Proof.
  induction l as [|z l IH] using rev_ind; intros Hx Huniq.
  - by apply elem_of_nil in Hx.
  - rewrite fold_left_app. simpl.
    destruct (decide (key z = key x)) as [Hkey|Hkey].
    + rewrite (Huniq z) by (done || (apply elem_of_app; right; by left)).
      apply lookup_insert_eq.
    + rewrite lookup_insert_ne by done. apply IH.
      * apply elem_of_app in Hx as [Hx|Hx%list_elem_of_singleton]; [done|].
        by subst.
      * intros y Hy. apply Huniq, elem_of_app. by left.
Qed.
End fold_insert.

Lemma enumerate_elem {A} (l : list A) i x : (i, x) ∈ enumerate l ↔ l !! i = Some x.
Proof.
  unfold enumerate. rewrite elem_of_lookup_imap. split.
  - by intros (j & y & [= -> ->] & Hj).
  - intros Hi. by exists i, x.
Qed.

Lemma fold_left_if {A B} (c : B → Prop) `{∀ y, Decision (c y)} (f : A → B → A) l a :
  fold_left (λ a y, if bool_decide (c y) then f a y else a) l a
  = fold_left f (filter c l) a.
Proof.
  revert a. induction l as [|y l IH]; intros a; simpl; [done|].
  rewrite IH. case_bool_decide.
  - by rewrite filter_cons_True.
  - by rewrite filter_cons_False.
Qed.

(** The inner loop of the builder only rewrites the row it was given. *)
Lemma inner_loop_row (ip1 : nat * place) l (graph : gmap string (gmap string Q)) row :
  graph !! name ip1.2 = Some row →
  fold_left
    (λ graph jp2,
       if bool_decide (ip1.1 ≠ jp2.1) then
         alter (insert (name jp2.2)
                  (Qabs (lat ip1.2 - lat jp2.2) + Qabs (lon ip1.2 - lon jp2.2))%Q)
               (name ip1.2) graph
       else graph) l graph
  = <[name ip1.2 :=
        fold_left (λ row jp2,
                     if bool_decide (ip1.1 ≠ jp2.1)
                     then <[name jp2.2 := manhattan ip1.2 jp2.2]> row else row)
                  l row]> graph.
Proof.
  revert graph row. induction l as [|jp2 l IH]; intros graph row Hrow; cbn [fold_left].
  - by rewrite insert_id.
  - case_bool_decide; [|by apply IH].
    erewrite IH.
    + rewrite insert_alter_eq. reflexivity.
    + rewrite lookup_alter, decide_True by done. by rewrite Hrow.
Qed.

Lemma create_graph_rows (places : list place) :
  create_graph_with_manhattan_distances places
  = fold_left (λ graph ip1, <[name ip1.2 := row_of places ip1]> graph)
              (enumerate places) ∅.
Proof.
  unfold create_graph_with_manhattan_distances.
  generalize (∅ : gmap string (gmap string Q)).
  generalize (enumerate places) at 2 3.
  induction l as [|ip1 l IH]; intros graph; cbn [fold_left]; [done|].
  rewrite (inner_loop_row ip1 _ _ ∅) by apply lookup_insert_eq.
  rewrite insert_insert_eq, IH. unfold row_of. by rewrite fold_left_if.
Qed.

Lemma enumerate_names (places : list place) :
  (λ ip : nat * place, name ip.2) <$> enumerate places = name <$> places.
Proof. unfold enumerate. rewrite fmap_imap. apply imap_const. Qed.

Lemma enumerate_unique (places : list place) (ip iq : nat * place) :
  NoDup (name <$> places) → ip ∈ enumerate places → iq ∈ enumerate places →
  name ip.2 = name iq.2 → ip = iq.
Proof.
  destruct ip as [i p], iq as [j q]. simpl.
  intros Hnd Hp%enumerate_elem Hq%enumerate_elem Hname.
  assert (i = j) as ->.
  { apply (NoDup_lookup _ _ _ (name p) Hnd); rewrite list_lookup_fmap.
    - by rewrite Hp.
    - by rewrite Hq, Hname. }
  rewrite Hp in Hq. by injection Hq as ->.
Qed.

Lemma create_graph_row (places : list place) (i : nat) (p : place) :
  NoDup (name <$> places) → places !! i = Some p →
  create_graph_with_manhattan_distances places !! name p = Some (row_of places (i, p)).
Proof.
  intros Hnd Hp. rewrite create_graph_rows.
  apply (fold_insert_unique (λ ip : nat * place, name ip.2) (row_of places) _ (i, p)).
  - by apply enumerate_elem.
  - intros y Hy Hname. apply (enumerate_unique places); [done..| |done].
    by apply enumerate_elem.
Qed.

Lemma row_of_other (places : list place) (i j : nat) (p q : place) :
  NoDup (name <$> places) → places !! i = Some p → places !! j = Some q → i ≠ j →
  row_of places (i, p) !! name q = Some (manhattan p q).
Proof.
  intros Hnd Hp Hq Hij. unfold row_of.
  apply (fold_insert_unique (λ jp2 : nat * place, name jp2.2)
           (λ jp2, manhattan p jp2.2) _ (j, q)).
  - apply list_elem_of_filter. split; [done | by apply enumerate_elem].
  - intros y [_ Hy]%list_elem_of_filter Hname.
    apply (enumerate_unique places); [done..| |done]. by apply enumerate_elem.
Qed.

Lemma row_of_self (places : list place) (i : nat) (p : place) :
  NoDup (name <$> places) → places !! i = Some p →
  row_of places (i, p) !! name p = None.
Proof.
  intros Hnd Hp. unfold row_of.
  rewrite fold_insert_other; [done|].
  intros y [Hne Hy]%list_elem_of_filter Hname. apply Hne. simpl.
  assert (y = (i, p)) as ->; [|done].
  apply (enumerate_unique places); [done..| |done]. by apply enumerate_elem.
Qed.

Lemma create_graph_dom (places : list place) :
  dom (create_graph_with_manhattan_distances places) = list_to_set (name <$> places).
Proof.
  apply set_eq. intros a. rewrite create_graph_rows.
  rewrite (fold_insert_dom (λ ip : nat * place, name ip.2)), enumerate_names.
  rewrite dom_empty_L, elem_of_list_to_set, elem_of_empty. tauto.
Qed.

(** X1. The nodes of the built graph are the names of the places, whether
    or not a name occurs twice. *)
Theorem create_graph_nodes (places : list place) :
  dom (create_graph_with_manhattan_distances places) = list_to_set (name <$> places).
Proof. apply create_graph_dom. Qed.

(** X2. When no two places share a name, the built graph has, from every
    place to every other place, exactly one edge, weighted by their
    Manhattan distance, and it has no edge from a place to itself. *)
Theorem create_graph_edges (places : list place) (i j : nat) (p q : place) :
  NoDup (name <$> places) → places !! i = Some p → places !! j = Some q →
  edge (create_graph_with_manhattan_distances places) (name p) (name q)
  = if decide (i = j) then None else Some (manhattan p q).
Proof.
  intros Hnd Hp Hq. unfold edge.
  rewrite (create_graph_row places i p Hnd Hp). simpl.
  destruct (decide (i = j)) as [->|Hij].
  - rewrite Hp in Hq. injection Hq as <-. by apply row_of_self.
  - by eapply row_of_other.
Qed.






Lemma fold_insert_some_last {X V} (key : X → string) (val : X → V) l
    (g : gmap string V) a :
  a ∈ key <$> l →
  ∃ x, x ∈ l ∧ key x = a ∧
       fold_left (λ (g : gmap string V) y, <[key y := val y]> g) l g !! a = Some (val x).
Proof.
  induction l as [|z l IH] using rev_ind; intros Ha.
  - by apply elem_of_nil in Ha.
  - rewrite fold_left_app. simpl.
    destruct (decide (key z = a)) as [<-|Hkey].
    + exists z. split; [apply elem_of_app; right; by left|].
      split; [done | apply lookup_insert_eq].
    + rewrite fmap_app, elem_of_app in Ha. destruct Ha as [Ha|Ha].
      * destruct (IH Ha) as (x & Hx & Hkx & Hlook).
        exists x. split; [apply elem_of_app; by left|]. split; [done|].
        by rewrite lookup_insert_ne.
      * simpl in Ha. apply list_elem_of_singleton in Ha. by subst.
Qed.

(** X4. A name borne by two places makes an edge from that name to
    itself: the row kept for the name is the row of the last place that
    bears it, and that row has an entry for every place at another index. *)
Theorem create_graph_duplicate_name (places : list place) (i j : nat) (p q : place) :
  places !! i = Some p → places !! j = Some q → i ≠ j → name p = name q →
  is_Some (edge (create_graph_with_manhattan_distances places) (name p) (name p)).
Proof.
  intros Hp Hq Hij Hname. unfold edge. rewrite create_graph_rows.
  destruct (fold_insert_some_last (λ ip : nat * place, name ip.2) (row_of places)
              (enumerate places) ∅ (name p)) as ([k r] & Hk & Hkey & ->).
  { rewrite enumerate_names. apply list_elem_of_fmap. exists p.
    split; [done | by eapply list_elem_of_lookup_2]. }
  simpl in *. apply elem_of_dom. unfold row_of.
  apply (fold_insert_dom (λ jp2 : nat * place, name jp2.2)). right.
  apply list_elem_of_fmap.
  destruct (decide (k = i)) as [->|Hki].
  - exists (j, q). split; [by rewrite Hname|].
    apply list_elem_of_filter. split; [done | by apply enumerate_elem].
  - exists (i, p). split; [done|].
    apply list_elem_of_filter. split; [done | by apply enumerate_elem].
Qed.

Lemma created_distance (places : list place) (p q : place) :
  NoDup (name <$> places) → p ∈ places → q ∈ places → name p ≠ name q →
  calculate_distance_attraction (create_graph_with_manhattan_distances places)
    (name p) (name q) = Fin (manhattan p q).
Proof.
  intros Hnd [i Hp]%list_elem_of_lookup [j Hq]%list_elem_of_lookup Hne.
  unfold calculate_distance_attraction, get_or_inf.
  rewrite (create_graph_row places i p Hnd Hp). simpl.
  rewrite (row_of_other places i j p q); [done..|]. intros ->.
  rewrite Hp in Hq. by injection Hq as ->.
Qed.

Lemma created_cost (places ps : list place) (total : Q) :
  NoDup (name <$> places) → Forall (λ p, p ∈ places) ps →
  (∀ p q, (p, q) ∈ zip ps (tail ps) → name p ≠ name q) →
  fold_left (λ total ab,
               wadd total (calculate_distance_attraction
                             (create_graph_with_manhattan_distances places) ab.1 ab.2))
            (segments (name <$> ps)) (Fin total)
  = Fin (fold_left (λ total pq, total + manhattan pq.1 pq.2)%Q (zip ps (tail ps)) total).
Proof.
  intros Hnd Hin. revert total.
  induction Hin as [|p ps Hp Hps IH]; intros total Hne; [done|].
  destruct ps as [|q ps]; [done|].
  unfold segments in *. cbn [fmap list_fmap tail zip zip_with fold_left fst snd] in *.
  rewrite created_distance; [|done..| |].
  - cbn [wadd]. apply IH. intros p' q' Hpq. apply Hne. by right.
  - by apply Forall_cons in Hps as [? _].
  - apply Hne. by left.
Qed.

(** X5. On the graph built from places with pairwise different names,
    the distance of a path that runs through places of the list, no two
    consecutive ones the same, is finite: it is the sum of the Manhattan
    distances of its consecutive places, and nothing is raised. *)
Theorem distance_on_created_graph (places ps : list place) :
  NoDup (name <$> places) → Forall (λ p, p ∈ places) ps →
  (∀ p q, (p, q) ∈ zip ps (tail ps) → name p ≠ name q) →
  calculate_path_distance (create_graph_with_manhattan_distances places) (name <$> ps)
  = Ok (Fin (fold_left (λ total pq, total + manhattan pq.1 pq.2)%Q
                       (zip ps (tail ps)) 0%Q)).
Proof.
  intros Hnd Hin Hne.
  rewrite calculate_path_distance_total.
  - unfold path_cost. by rewrite created_cost.
  - apply Forall_forall. intros a Ha. apply elem_of_dom.
    rewrite create_graph_dom, elem_of_list_to_set.
    assert (a ∈ name <$> ps) as (p & -> & Hp)%list_elem_of_fmap.
    { eapply elem_of_sublist; [exact Ha|].
      rewrite removelast_firstn_len. apply sublist_take. }
    apply list_elem_of_fmap. exists p. split; [done|].
    by apply (proj1 (Forall_forall _ _) Hin).
Qed.

(** The edge from [A] to [B] over [example_places], and no loop at [A]. *)
Lemma create_graph_edges_witness :
  edge (create_graph_with_manhattan_distances example_places) "A" "B" = Some 7%Q ∧
  edge (create_graph_with_manhattan_distances example_places) "A" "A" = None.
Proof.
  assert (NoDup (name <$> example_places)) as Hnd by by_evaluation.
  split.
  - apply (create_graph_edges example_places 0 1 (Place "A" 0 0) (Place "B" 3 4) Hnd);
      reflexivity.
  - apply (create_graph_edges example_places 0 0 (Place "A" 0 0) (Place "A" 0 0) Hnd);
      reflexivity.
Defined.


(** The name [A] of [homonymous_places]. *)
Lemma create_graph_duplicate_name_witness :
  is_Some (edge (create_graph_with_manhattan_distances homonymous_places) "A" "A").
Proof.
  apply (create_graph_duplicate_name homonymous_places 0 2
           (Place "A" 0 0) (Place "A" 1 1)); [reflexivity | reflexivity | lia | reflexivity].
Defined.

(** The path from [A] through [C] and [B] to [D] over [example_places]. *)
Lemma distance_on_created_graph_witness :
  calculate_path_distance (create_graph_with_manhattan_distances example_places)
    ["A"; "C"; "B"; "D"]
  = Ok (Fin (0 + 2 + 5 + 7)%Q).
Proof.
  apply (distance_on_created_graph example_places
           [Place "A" 0 0; Place "C" 1 1; Place "B" 3 4; Place "D" 6 0]).
  - by_evaluation.
  - unfold example_places. repeat constructor.
  - intros p q. cbn [zip zip_with tail]. rewrite !elem_of_cons, elem_of_nil.
    intros [Hpq | [Hpq | [Hpq | []]]]; injection Hpq as -> ->; discriminate.
Defined.

(** ** calculate_path_distance: what it raises *)

(** The loop of [calculate_path_distance], started at index [s], when a
    node that it has yet to subscript the graph with is not a key. *)
Lemma distance_loop_raises (graph : Graph) (path : Path) n s total :
  (s + n = length path - 1)%nat →
  Exists (λ a, graph !! a = None) (drop s (removelast path)) →
  foldR (λ total_distance i,
           a ← getitem path i;
           row ← subscript graph a;
           b ← getitem path (i + 1);
           Ok (wadd total_distance (get_or_inf row b)))
        (Z.of_nat <$> seq s n) total
  = Raise KeyError.
Proof.
  intros Hn Hmiss. revert s total Hn Hmiss.
  induction n as [|n IH]; intros s total Hn Hmiss.
  - rewrite drop_ge in Hmiss; [by apply Exists_nil in Hmiss|].
    rewrite removelast_firstn_len, length_take. lia.
  - destruct (lookup_lt_is_Some_2 path s) as [a Ha]; [lia|].
    destruct (lookup_lt_is_Some_2 path (S s)) as [b Hb]; [lia|].
    assert (removelast path !! s = Some a) as Hrl.
    { rewrite removelast_firstn_len, lookup_take_lt; [done | lia]. }
    rewrite (drop_S _ a s Hrl) in Hmiss.
    cbn [seq fmap list_fmap foldR].
    rewrite (getitem_lookup _ _ _ Ha), (result_bind_Ok _ a).
    destruct (graph !! a) as [row|] eqn:Hrow.
    + rewrite (subscript_Some _ _ _ Hrow), (result_bind_Ok _ row).
      replace (Z.of_nat s + 1) with (Z.of_nat (S s)) by lia.
      rewrite (getitem_lookup _ _ _ Hb), !result_bind_Ok.
      apply IH; [lia|].
      apply Exists_cons in Hmiss as [Hmiss | Hmiss]; [congruence | done].
    + unfold subscript. by rewrite Hrow.
Qed.

Lemma calculate_path_distance_missing (graph : Graph) (path : Path) (a : Node) :
  a ∈ removelast path → graph !! a = None →
  calculate_path_distance graph path = Raise KeyError.
Proof.
  intros Ha Hmiss. unfold calculate_path_distance, range.
  apply distance_loop_raises; [unfold len; lia|].
  rewrite drop_0. apply Exists_exists. by exists a.
Qed.

(** X6. The only exception [calculate_path_distance] raises is
    [KeyError], and it raises it exactly when a node of the path other
    than the last one is not a key of the graph; the last node is never
    looked up as a key. *)
Theorem calculate_path_distance_raises (graph : Graph) (path : Path) (e : exn) :
  calculate_path_distance graph path = Raise e ↔
  e = KeyError ∧ ∃ a, a ∈ removelast path ∧ graph !! a = None.
Proof.
  split.
  - intros Hraise.
    destruct (decide (Forall (λ a, is_Some (graph !! a)) (removelast path)))
      as [Hkeys | Hkeys].
    + rewrite (calculate_path_distance_total _ _ Hkeys) in Hraise. discriminate.
    + apply not_Forall_Exists in Hkeys; [|apply _].
      apply Exists_exists in Hkeys as (a & Ha & Hmiss). simpl in Hmiss.
      assert (graph !! a = None) as Hnone.
      { destruct (graph !! a); [|done]. by destruct Hmiss. }
      rewrite (calculate_path_distance_missing _ _ a Ha Hnone) in Hraise.
      injection Hraise as <-. split; [done|]. by exists a.
  - intros (-> & a & Ha & Hmiss). by apply (calculate_path_distance_missing _ _ a).
Qed.

Lemma calculate_path_distance_raises_witness :
  calculate_path_distance roadless_graph ["A"; "Z"; "B"] = Raise KeyError.
Proof.
  apply (calculate_path_distance_raises roadless_graph ["A"; "Z"; "B"] KeyError).
  split; [reflexivity|]. exists "Z". split; [|reflexivity].
  cbn [removelast]. right. by left.
Defined.

(** X7. A path of fewer than two nodes costs [0] on every graph, also on
    one that does not know its node. *)
Theorem calculate_path_distance_short (graph : Graph) (path : Path) :
  (length path ≤ 1)%nat → calculate_path_distance graph path = Ok (Fin 0).
Proof.
  intros Hlen. rewrite calculate_path_distance_total.
  - by destruct path as [|a [|b path]]; [..|simpl in Hlen; lia].
  - by destruct path as [|a [|b path]]; [..|simpl in Hlen; lia].
Qed.

Lemma calculate_path_distance_short_witness :
  calculate_path_distance ∅ ["A"] = Ok (Fin 0).
Proof. apply calculate_path_distance_short. simpl. lia. Defined.

(** ** Mutate: what it keeps *)

Lemma interior_Permutation (s e : Node) (inner : Path) (path : Path) :
  length path = length (s :: inner ++ [e]) →
  head path = Some s → last path = Some e →
  path ≡ₚ s :: inner ++ [e] → interior path ≡ₚ inner.
Proof.
  intros Hlen Hhead Hlast Hperm.
  rewrite (path_shape s e path) in Hperm;
    [|cbn [length] in Hlen; rewrite length_app in Hlen; cbn [length] in Hlen; lia|done..].
  apply Permutation_cons_inv in Hperm.
  by apply Permutation_app_inv_r in Hperm.
Qed.

Lemma Mutate_valid_cases (s e : Node) (anchors : list Node) (Child : Path)
    (graph : Graph) (t : tape) :
  valid_path s e anchors Child →
  ∃ Child' t',
    Mutate Child graph anchors t = Ok (Child', t') ∧
    valid_path s e anchors Child' ∧
    length Child' = length Child ∧
    (interior Child' ≡ₚ interior Child ∨
     ∃ (j : nat) (x : Node),
       (j < length (interior Child))%nat ∧
       x ∈ dom graph ∧ (x ∉ Child) ∧ (x ∉ anchors) ∧
       interior Child' = <[j:=x]> (interior Child)).
Proof.
  intros Hvalid.
  destruct (proj1 (valid_path_shape s e anchors Child) Hvalid)
    as (inner & -> & Hnd & Hna).
  destruct (Mutate_cases (s :: inner ++ [e]) graph anchors t)
    as (Child' & t' & Hrun & Hcase).
  exists Child', t'. split; [exact Hrun|]. rewrite interior_shape.
  destruct Hcase as [->|[(a & b & Ha & Hab & Hb & ->)|(i & x & Hi & Hi' & Hx & Hfresh & Hanchor & ->)]].
  - split; [done|]. split; [done|]. left. by rewrite interior_shape.
  - destruct (replace_segment_frame (s :: inner ++ [e])
                (reverse (take (b - a) (drop a (s :: inner ++ [e])))) a b Ha Hab Hb)
      as (Hlen & Hhead & Hlast).
    { rewrite length_reverse, length_take, length_drop. lia. }
    cbn [length] in Hb. rewrite length_app in Hb. cbn [length] in Hb.
    cbn zeta in Hlen, Hhead, Hlast.
    assert (interior (take a (s :: inner ++ [e])
                      ++ reverse (take (b - a) (drop a (s :: inner ++ [e])))
                      ++ drop b (s :: inner ++ [e])) ≡ₚ inner) as Hperm.
    { apply (interior_Permutation s e); [done|done| |].
      - rewrite Hlast. by rewrite last_cons, last_snoc.
      - by apply reverse_segment_Permutation. }
    split; [|split; [done | by left]].
    apply valid_path_shape. eexists. split.
    + apply (path_shape s e);
        [rewrite Hlen; cbn [length]; rewrite length_app; cbn [length]; lia | done |].
      rewrite Hlast. by rewrite last_cons, last_snoc.
    + by rewrite Hperm.
  - destruct i as [|j]; [lia|].
    cbn [length] in Hi'. rewrite length_app in Hi'. cbn [length] in Hi'.
    assert (<[S j:=x]> (s :: inner ++ [e]) = s :: <[j:=x]> inner ++ [e]) as ->.
    { change (<[S j:=x]> (s :: inner ++ [e])) with (s :: <[j:=x]> (inner ++ [e])).
      by rewrite insert_app_l by lia. }
    assert (x ∉ inner) as Hfresh'.
    { intros Hin. apply Hfresh. right. apply elem_of_app. by left. }
    split; [|split].
    + apply valid_path_shape. exists (<[j:=x]> inner). split; [done|].
      split; [by apply NoDup_insert_fresh | by apply Forall_insert].
    + simpl. by rewrite !length_app, length_insert.
    + right. exists j, x. rewrite interior_shape.
      split; [lia|]. done.
Qed.

(** X8. [Mutate] keeps a valid path valid: the start and the end stay
    at the two ends, the interior keeps pairwise different nodes none of
    which is an anchor, and the length does not change. The interior is
    either rearranged, or one of its positions receives a node of the graph
    that was not on the path and is no anchor. *)
Theorem Mutate_keeps_valid_paths (start_attraction end_attraction : Node)
    (all_start_end_points : list Node) (Child : Path) (graph : Graph) (t : tape) :
  valid_path start_attraction end_attraction all_start_end_points Child →
  ∃ Child' t',
    Mutate Child graph all_start_end_points t = Ok (Child', t') ∧
    valid_path start_attraction end_attraction all_start_end_points Child' ∧
    length Child' = length Child ∧
    (interior Child' ≡ₚ interior Child ∨
     ∃ (j : nat) (x : Node),
       (j < length (interior Child))%nat ∧
       x ∈ dom graph ∧ (x ∉ Child) ∧ (x ∉ all_start_end_points) ∧
       interior Child' = <[j:=x]> (interior Child)).
Proof. apply Mutate_valid_cases. Qed.

Lemma Mutate_keeps_valid_paths_witness :
  ∃ Child' t',
    Mutate ["A"; "B"; "C"; "D"] example_graph ["A"; "D"] example_tape = Ok (Child', t') ∧
    valid_path "A" "D" ["A"; "D"] Child' ∧
    length Child' = 4%nat ∧
    (interior Child' ≡ₚ ["B"; "C"] ∨
     ∃ (j : nat) (x : Node),
       (j < 2)%nat ∧
       x ∈ dom example_graph ∧ (x ∉ ["A"; "B"; "C"; "D"]) ∧ (x ∉ ["A"; "D"]) ∧
       interior Child' = <[j:=x]> ["B"; "C"]).
Proof.
  apply (Mutate_keeps_valid_paths "A" "D" ["A"; "D"] ["A"; "B"; "C"; "D"]
           example_graph example_tape).
  by_evaluation.
Defined.

(** X9. [Mutate] brings in no node when it has none to bring: if every
    node of the graph is on the path or is an anchor, it returns a
    rearrangement of the path it was given; and a path of at most two
    nodes comes back unchanged. *)
Theorem Mutate_without_candidates (Child : Path) (graph : Graph)
    (all_start_end_points : list Node) (t : tape) :
  ∃ Child' t',
    Mutate Child graph all_start_end_points t = Ok (Child', t') ∧
    ((∀ x, x ∈ dom graph → x ∈ Child ∨ x ∈ all_start_end_points) → Child' ≡ₚ Child) ∧
    ((length Child ≤ 2)%nat → Child' = Child).
Proof.
  destruct (Mutate_cases Child graph all_start_end_points t)
    as (Child' & t' & Hrun & Hcase).
  exists Child', t'. split; [exact Hrun|].
  destruct Hcase as [->|[(a & b & Ha & Hab & Hb & ->)|(i & x & Hi & Hi' & Hx & Hfresh & Hanchor & ->)]].
  - done.
  - split; [intros _; by apply reverse_segment_Permutation|].
    intros Hlen. replace (b - a)%nat with 0%nat by lia.
    replace b with a by lia. cbn [take reverse]. simpl. apply take_drop.
  - split; [|lia]. intros Hall. destruct (Hall x Hx); done.
Qed.

Lemma Mutate_without_candidates_witness :
  ∃ Child' t',
    Mutate ["A"; "B"; "C"; "E"; "D"] example_graph ["A"; "D"] example_tape
      = Ok (Child', t') ∧
    Child' ≡ₚ ["A"; "B"; "C"; "E"; "D"].
Proof.
  destruct (Mutate_without_candidates ["A"; "B"; "C"; "E"; "D"] example_graph
              ["A"; "D"] example_tape) as (Child' & t' & Hrun & Hperm & _).
  exists Child', t'. split; [exact Hrun|]. apply Hperm.
  intros x Hx. left. revert x Hx.
  apply (bool_decide_unpack (∀ x, x ∈ dom example_graph → x ∈ ["A"; "B"; "C"; "E"; "D"])).
  vm_compute. exact I.
Defined.

(** ** Crossover: every input *)

(** The repair loop on indices of the child: it raises nothing, keeps the
    length, and writes only missing attractions. *)
Lemma repair_in_range (anchors : list Node) (indices : list Z) (child : Path)
    (missing : list Node) :
  (∀ i, i ∈ indices → 0 ≤ i < len child) → missing ≠ [] →
  ∃ child', repair anchors indices child missing = Ok child' ∧
            length child' = length child ∧
            ∀ x, x ∈ child' → x ∈ child ∨ x ∈ missing.
Proof.
  revert child missing.
  induction indices as [|i indices IH]; intros child missing Hidx Hne; simpl.
  { exists child. split; [done|]. split; [done|]. by left. }
  assert (0 ≤ i < len child) as Hi by (apply Hidx; by left).
  destruct (getitem_in_range child i) as (c & -> & _); [lia|]. simpl.
  destruct (bool_decide (c ∈ anchors) || (1 <? count c child)).
  - assert (∃ missing' m, missing = missing' ++ [m]) as (missing' & m & ->).
    { destruct (last missing) as [m|] eqn:E.
      - apply last_Some in E as [l' ->]. eauto.
      - by apply last_None in E. }
    unfold pop. rewrite last_snoc, removelast_last. simpl.
    rewrite setitem_nonneg by lia. simpl.
    destruct missing' as [|m' rest].
    + eexists. split; [reflexivity|]. split; [by rewrite length_insert|].
      intros x [->|Hx]%insert_elem_of; [right; by left | by left].
    + destruct (IH (<[Z.to_nat i:=m]> child) (m' :: rest))
        as (child' & Hrun & Hlen & Hfrom); [| done |].
      * unfold len. rewrite length_insert. intros j Hj. apply Hidx. by right.
      * exists child'. rewrite Hrun.
        split; [done|]. split; [by rewrite Hlen, length_insert|].
        intros x Hx. destruct (Hfrom x Hx) as [[->|Hin]%insert_elem_of | Hin].
        -- right. apply elem_of_app. right. by left.
        -- by left.
        -- right. apply elem_of_app. by left.
  - destruct (IH child missing) as (child' & Hrun & Hlen & Hfrom); [| done |].
    + intros j Hj. apply Hidx. by right.
    + by exists child'.
Qed.

Lemma Crossover_Ok (Parent1 Parent2 : Path) (Start_Index End_Index : Z)
    (anchors : list Node) (t : tape) :
  ∃ child t',
    Crossover Parent1 Parent2 Start_Index End_Index anchors t = Ok (child, t') ∧
    length child = length (splice Parent1 Parent2 Start_Index End_Index) ∧
    ∀ x, x ∈ child → x ∈ Parent1 ∨ x ∈ Parent2.
Proof.
  pose proof (splice_Permutation Parent1 Parent2 Start_Index End_Index) as Hperm.
  simpl in Hperm.
  set (sec := slice Parent1 _ _) in Hperm.
  assert (sec `sublist_of` Parent1) as Hsub by apply slice_sublist.
  set (child := splice Parent1 Parent2 Start_Index End_Index) in *.
  assert (∀ x, x ∈ child → x ∈ Parent1 ∨ x ∈ Parent2) as Hfrom.
  { intros x. rewrite Hperm, elem_of_app, list_elem_of_filter.
    intros [Hx | [_ Hx]]; [left | by right]. eapply elem_of_sublist; eauto. }
  unfold Crossover. fold child.
  match goal with |- context [list_of_set ?m] =>
    destruct (list_of_set_total m t) as (missing & t' & Hm & Hmperm) end.
  rewrite (bindM_step _ _ _ _ _ Hm).
  destruct (decide (missing = [])) as [->|Hmne]; [by exists child, t'|].
  destruct (repair_in_range anchors (range2 1 (len child - 1)) child missing)
    as (child' & Hrun & Hlen' & Hfrom'); [| done |].
  - intros i Hi%range2_elem. lia.
  - exists child', t'. unfold lift. rewrite Hrun.
    split; [by destruct missing|]. split; [done|].
    intros x Hx. destruct (Hfrom' x Hx) as [Hin | Hin]; [by apply Hfrom|].
    left. revert Hin.
    rewrite Hmperm, elem_of_elements, !elem_of_difference, !elem_of_list_to_set.
    tauto.
Qed.

(** X10. [Crossover] raises nothing, whatever the parents, the window
    and the anchors: it returns a child, every node of which is a node of
    one of the parents, and whose length is that of the donor segment plus
    that of what the second parent keeps outside the segment. *)
Theorem Crossover_never_raises (Parent1 Parent2 : Path) (Start_Index End_Index : Z)
    (all_start_end_points : list Node) (t : tape) :
  let p1_section :=
    slice Parent1 (Z.max Start_Index 1) (Z.min End_Index (len Parent1 - 2) + 1) in
  ∃ child t',
    Crossover Parent1 Parent2 Start_Index End_Index all_start_end_points t
      = Ok (child, t') ∧
    (∀ x, x ∈ child → x ∈ Parent1 ∨ x ∈ Parent2) ∧
    length child
    = (length p1_section
       + length (filter (λ attraction, attraction ∉ p1_section) Parent2))%nat.
Proof.
  intros p1_section.
  destruct (Crossover_Ok Parent1 Parent2 Start_Index End_Index all_start_end_points t)
    as (child & t' & Hrun & Hlen & Hfrom).
  exists child, t'. split; [exact Hrun|]. split; [exact Hfrom|].
  rewrite Hlen, (splice_Permutation Parent1 Parent2 Start_Index End_Index).
  by rewrite length_app.
Qed.

Lemma Crossover_never_raises_witness :
  ∃ child t', Crossover ["A"] [] 5 (-3) [] example_tape = Ok (child, t').
Proof.
  destruct (Crossover_never_raises ["A"] [] 5 (-3) [] example_tape)
    as (child & t' & Hrun & _).
  by exists child, t'.
Defined.

(** ** Crossover: where the donor segment goes *)

Lemma filter_all {A} (P : A → Prop) `{∀ x, Decision (P x)} (l : list A) :
  Forall P l → filter P l = l.
Proof.
  induction 1 as [|x l Hx Hl IH]; [done|].
  by rewrite filter_cons_True, IH.
Qed.

Lemma filter_none {A} (P : A → Prop) `{∀ x, Decision (P x)} (l : list A) :
  Forall (λ x, ¬ P x) l → filter P l = [].
Proof.
  induction 1 as [|x l Hx Hl IH]; [done|].
  by rewrite filter_cons_False.
Qed.

(** [l[lo:hi]] for bounds inside the list. *)
Lemma slice_inside {A} (l : list A) lo hi :
  0 ≤ lo ≤ hi → hi ≤ len l →
  slice l lo hi = take (Z.to_nat (hi - lo)) (drop (Z.to_nat lo) l).
Proof.
  intros Hlo Hhi. unfold slice. rewrite !clip_inside by lia. f_equal. lia.
Qed.

Lemma slice_middle {A} (l1 l2 l3 : list A) lo hi :
  lo = len l1 → hi = len l1 + len l2 → slice (l1 ++ l2 ++ l3) lo hi = l2.
Proof.
  intros -> ->. unfold len. rewrite slice_inside.
  - rewrite Nat2Z.id, drop_app_length.
    replace (Z.to_nat _) with (length l2) by lia. apply take_app_length.
  - lia.
  - unfold len. rewrite !length_app. lia.
Qed.

(** What the construction step leaves outside the donor segment is the
    second parent without the segment's nodes, in the second parent's order. *)
Lemma splice_remainder (Parent1 Parent2 : Path) (Start_Index End_Index : Z) :
  let p1_section :=
    slice Parent1 (Z.max Start_Index 1) (Z.min End_Index (len Parent1 - 2) + 1) in
  filter (λ x, x ∉ p1_section) (splice Parent1 Parent2 Start_Index End_Index)
  = filter (λ x, x ∉ p1_section) Parent2.
Proof.
  intros sec. unfold splice. fold sec. unfold slice_to, slice_from.
  set (rem := filter (λ a, a ∉ sec) Parent2).
  set (k := clip rem (Z.max Start_Index 1)).
  rewrite !filter_app, (filter_none _ sec), app_nil_l, <- filter_app, take_drop.
  - unfold rem. apply list_filter_filter_r. done.
  - apply Forall_forall. intros x Hx Hnot. done.
Qed.

Lemma Crossover_valid (s e : Node) (anchors : list Node) (Parent1 Parent2 : Path)
    (Start_Index End_Index : Z) (t : tape) :
  s ∈ anchors → e ∈ anchors →
  valid_path s e anchors Parent1 → valid_path s e anchors Parent2 →
  length Parent1 = length Parent2 →
  ∃ t', Crossover Parent1 Parent2 Start_Index End_Index anchors t
        = Ok (splice Parent1 Parent2 Start_Index End_Index, t').
Proof.
  intros Hs He Hv1 Hv2 Hlen.
  pose proof (splice_valid _ _ _ _ _ Start_Index End_Index Hs He Hv1 Hv2 Hlen) as Hv.
  unfold Crossover.
  match goal with |- context [list_of_set ?m] =>
    destruct (list_of_set_total m t) as (missing & t' & Hm & _) end.
  exists t'. rewrite (bindM_step _ _ _ _ _ Hm).
  destruct missing; [done|]. unfold lift.
  by rewrite (repair_valid s e).
Qed.

Lemma splice_segment (s e : Node) (anchors : list Node) (Parent1 Parent2 : Path)
    (Start_Index End_Index : Z) :
  s ∈ anchors → e ∈ anchors →
  valid_path s e anchors Parent1 → valid_path s e anchors Parent2 →
  length Parent1 = length Parent2 →
  1 ≤ Start_Index → Start_Index ≤ End_Index → End_Index ≤ len Parent1 - 2 →
  slice (splice Parent1 Parent2 Start_Index End_Index) Start_Index (End_Index + 1)
  = slice Parent1 Start_Index (End_Index + 1).
Proof.
  intros Hs He Hv1 Hv2 Hlen HS HSE HE.
  pose proof Hv1 as (i1 & HP1 & Hnd1 & Hna1)%valid_path_shape.
  pose proof Hv2 as (i2 & HP2 & Hnd2 & Hna2)%valid_path_shape.
  destruct (section_of_interior s e i1 Start_Index End_Index) as [Hsub _].
  rewrite <- HP1 in Hsub. rewrite Z.max_l, Z.min_l in Hsub by lia.
  unfold splice.
  rewrite Z.max_l, Z.min_l by lia.
  set (sec := slice Parent1 Start_Index (End_Index + 1)) in *.
  assert (length sec = Z.to_nat (End_Index + 1 - Start_Index)) as Hlensec.
  { unfold sec. rewrite slice_inside by (unfold len in *; lia).
    rewrite length_take, length_drop. unfold len in *. lia. }
  assert (∀ x, x ∈ anchors → x ∉ sec) as Hanchor.
  { intros x Hx Hin.
    eapply (proj1 (Forall_forall _ _) Hna1); [|exact Hx].
    eapply elem_of_sublist; [exact Hin | exact Hsub]. }
  rewrite HP2.
  rewrite filter_cons_True, filter_app, (filter_cons_True _ e), filter_nil by auto.
  set (r2 := filter (λ a, a ∉ sec) i2).
  assert (length i2 ≤ length r2 + length sec)%nat as Hcount
    by (by apply filter_section_length).
  assert (length (s :: r2 ++ [e]) = S (S (length r2))) as Hrem.
  { simpl. rewrite length_app. simpl. lia. }
  assert (length Parent2 = S (S (length i2))) as HlenP2.
  { rewrite HP2. simpl. rewrite length_app. simpl. lia. }
  unfold slice_to, slice_from.
  rewrite clip_inside by (unfold len in *; lia).
  apply slice_middle.
  - unfold len. rewrite length_take. unfold len in *. lia.
  - unfold len. rewrite length_take. unfold len in *. lia.
Qed.

(** X11. On valid parents of one length, with a window inside the
    interior, [Crossover] is an order crossover: the child carries the
    first parent's nodes of the window at the positions of the window, and
    outside the window the nodes of the second parent that the window does
    not hold, in the order the second parent has them. *)
Theorem Crossover_places_segment (start_attraction end_attraction : Node)
    (all_start_end_points : list Node) (Parent1 Parent2 : Path)
    (Start_Index End_Index : Z) (t : tape) :
  start_attraction ∈ all_start_end_points →
  end_attraction ∈ all_start_end_points →
  valid_path start_attraction end_attraction all_start_end_points Parent1 →
  valid_path start_attraction end_attraction all_start_end_points Parent2 →
  length Parent1 = length Parent2 →
  1 ≤ Start_Index → Start_Index ≤ End_Index → End_Index ≤ len Parent1 - 2 →
  let p1_section := slice Parent1 Start_Index (End_Index + 1) in
  ∃ child t',
    Crossover Parent1 Parent2 Start_Index End_Index all_start_end_points t
      = Ok (child, t') ∧
    slice child Start_Index (End_Index + 1) = p1_section ∧
    filter (λ x, x ∉ p1_section) child = filter (λ x, x ∉ p1_section) Parent2.
Proof.
  intros Hs He Hv1 Hv2 Hlen HS HSE HE p1_section.
  destruct (Crossover_valid _ _ _ _ _ Start_Index End_Index t Hs He Hv1 Hv2 Hlen)
    as [t' Hrun].
  exists (splice Parent1 Parent2 Start_Index End_Index), t'.
  split; [exact Hrun|]. split.
  - by apply (splice_segment start_attraction end_attraction all_start_end_points).
  - pose proof (splice_remainder Parent1 Parent2 Start_Index End_Index) as Hrem.
    cbn zeta in Hrem. by rewrite Z.max_l, Z.min_l in Hrem by lia.
Qed.

Lemma Crossover_places_segment_witness :
  ∃ child t',
    Crossover ["A"; "B"; "C"; "E"; "D"] ["A"; "E"; "C"; "B"; "D"] 2 3 ["A"; "D"]
      example_tape = Ok (child, t') ∧
    slice child 2 (3 + 1) = ["C"; "E"] ∧
    filter (λ x, x ∉ ["C"; "E"]) child = ["A"; "B"; "D"].
Proof.
  apply (Crossover_places_segment "A" "D" ["A"; "D"] ["A"; "B"; "C"; "E"; "D"]
           ["A"; "E"; "C"; "B"; "D"] 2 3 example_tape);
    [by_evaluation | by_evaluation | by_evaluation | by_evaluation | reflexivity
    | lia | lia | by vm_compute].
Defined.

(** ** Crossover of a path with itself *)

Lemma filter_outside_segment (path : Path) (lo n : nat) :
  NoDup path →
  filter (λ x, x ∉ take n (drop lo path)) path = take lo path ++ drop (lo + n) path.
Proof.
  intros Hnd.
  set (sec := take n (drop lo path)).
  assert (path = take lo path ++ sec ++ drop (lo + n) path) as Hsplit.
  { unfold sec. rewrite <- drop_drop. by rewrite !take_drop. }
  rewrite Hsplit in Hnd.
  apply NoDup_app in Hnd as (_ & Hleft & Hnd).
  apply NoDup_app in Hnd as (_ & Hright & _).
  rewrite Hsplit at 1.
  rewrite !filter_app, (filter_none _ sec), app_nil_l.
  - rewrite !filter_all; [done|..].
    + apply Forall_forall. intros x Hx Hin. by apply (Hright x).
    + apply Forall_forall. intros x Hx Hin. apply (Hleft x Hx).
      apply elem_of_app. by left.
  - apply Forall_forall. intros x Hx Hnot. done.
Qed.

Lemma splice_self (path : Path) (Start_Index End_Index : Z) :
  NoDup path → splice path path Start_Index End_Index = path.
Proof.
  intros Hnd. unfold splice, slice.
  set (lo := clip path (Z.max Start_Index 1)).
  set (hi := clip path (Z.min End_Index (len path - 2) + 1)).
  rewrite filter_outside_segment by done.
  unfold slice_to, slice_from.
  set (rem := take lo path ++ drop (lo + (hi - lo)) path).
  assert (lo = (Z.to_nat (Z.max Start_Index 1) `min` length path)%nat) as Hlo
    by (apply clip_nonneg; lia).
  assert (clip rem (Z.max Start_Index 1) = lo) as ->.
  { rewrite clip_nonneg by lia.
    unfold rem. rewrite length_app, length_take, length_drop. lia. }
  unfold rem.
  rewrite take_app_le, take_take, Nat.min_id by (rewrite length_take; lia).
  rewrite drop_app_ge, length_take by (rewrite length_take; lia).
  replace (lo - lo `min` length path)%nat with 0%nat by lia.
  rewrite drop_0, <- drop_drop. by rewrite !take_drop.
Qed.

(** X12. Crossing a path without repeated nodes with itself gives the
    path back, for every window and every anchor set, and consumes nothing
    of the oracle. *)
Theorem Crossover_same_parent (Parent : Path) (Start_Index End_Index : Z)
    (all_start_end_points : list Node) (t : tape) :
  NoDup Parent →
  Crossover Parent Parent Start_Index End_Index all_start_end_points t
  = Ok (Parent, t).
Proof.
  intros Hnd. unfold Crossover. rewrite splice_self by done.
  replace (list_to_set Parent ∖ list_to_set all_start_end_points ∖ list_to_set Parent)
    with (∅ : gset Node).
  - by rewrite (bindM_step _ _ _ _ _ (list_of_set_empty t)).
  - symmetry. apply leibniz_equiv, elem_of_equiv_empty. intros x.
    rewrite !elem_of_difference. tauto.
Qed.

Lemma Crossover_same_parent_witness :
  Crossover ["A"; "B"; "C"; "D"] ["A"; "B"; "C"; "D"] 1 2 ["A"; "D"] example_tape
  = Ok (["A"; "B"; "C"; "D"], example_tape).
Proof. apply Crossover_same_parent. by_evaluation. Defined.

(** ** CreateInitialPopulation: the population as a whole *)

(** What every returning run of the factory leaves: no path twice, no more
    paths than asked for, and a path as soon as one is asked for. *)
Lemma CreateInitialPopulation_Ok (pop_size : Z) (graph : Graph) (s e : Node)
    (final_path_size : Z) (anchors : list Node) (t : tape) pop t' :
  CreateInitialPopulation pop_size graph s e final_path_size anchors t = Ok (pop, t') →
  NoDup pop ∧ (length pop ≤ Z.to_nat pop_size)%nat ∧ (1 ≤ pop_size → pop ≠ []).
Proof.
  unfold CreateInitialPopulation. intros H.
  apply (foldM_invariant_at
           (λ k acc, NoDup acc ∧ (length acc ≤ k)%nat ∧ ((0 < k)%nat → acc ≠ [])))
    with (k := 0%nat) in H.
  - rewrite range_length in H. destruct H as (Hnd & Hlen & Hne).
    split; [done|]. split; [done|]. intros Hsize. apply Hne. lia.
  - intros k acc i t0 acc' t0' _ (Hnd & Hlen & Hne) Hstep.
    apply bindM_Ok in Hstep as (cand & t1 & _ & Hstep).
    apply bindM_Ok in Hstep as (inner & t2 & _ & Hstep).
    apply retM_Ok in Hstep as [-> _].
    case_bool_decide as Hin.
    + split; [done|]. split; [lia|]. intros _ ->. by apply elem_of_nil in Hin.
    + split; [|split].
      * apply NoDup_app. split; [done|]. split; [|apply NoDup_singleton].
        intros x Hx ->%list_elem_of_singleton. done.
      * rewrite length_app. simpl. lia.
      * intros _ Hnil. by apply app_eq_nil in Hnil as [_ ?].
  - split; [apply NoDup_nil_2|]. split; [done | lia].
Qed.

(** X13. The population that [CreateInitialPopulation] returns holds no
    path twice. It can therefore hold fewer paths than the [size] asked
    for, never more, and it holds at least one when [size] is positive. *)
Theorem CreateInitialPopulation_distinct_paths (pop_size : Z) (graph : Graph)
    (start_attraction end_attraction : Node) (final_path_size : Z)
    (all_start_end_points : list Node) (t : tape) :
  2 ≤ final_path_size →
  ∃ initial_population t',
    CreateInitialPopulation pop_size graph start_attraction end_attraction
      final_path_size all_start_end_points t = Ok (initial_population, t') ∧
    NoDup initial_population ∧
    (length initial_population ≤ Z.to_nat pop_size)%nat ∧
    (1 ≤ pop_size → initial_population ≠ []).
Proof.
  intros Hfps.
  destruct (CreateInitialPopulation_total pop_size graph start_attraction
              end_attraction final_path_size all_start_end_points t Hfps)
    as (pop & t' & Hrun & _).
  exists pop, t'. split; [exact Hrun|].
  by apply CreateInitialPopulation_Ok in Hrun.
Qed.

Lemma CreateInitialPopulation_distinct_paths_witness :
  ∃ initial_population t',
    CreateInitialPopulation 4 example_graph "A" "D" 5 ["A"; "D"] example_tape
      = Ok (initial_population, t') ∧
    NoDup initial_population ∧
    (length initial_population ≤ Z.to_nat 4)%nat ∧
    (1 ≤ 4 → initial_population ≠ []).
Proof.
  apply (CreateInitialPopulation_distinct_paths 4 example_graph "A" "D" 5 ["A"; "D"]
           example_tape).
  lia.
Defined.

Lemma CreateInitialPopulation_short_path (pop_size : Z) (graph : Graph) (s e : Node)
    (final_path_size : Z) (anchors : list Node) (t : tape) :
  1 ≤ pop_size → final_path_size < 2 →
  CreateInitialPopulation pop_size graph s e final_path_size anchors t
  = Raise ValueError.
Proof.
  intros Hsize Hfps. unfold CreateInitialPopulation.
  destruct (range_nonempty pop_size) as [l ->]; [lia|].
  apply foldM_first_raises.
  match goal with |- context [list_of_set ?s] =>
    destruct (list_of_set_total s t) as (cand & t1 & Hcand & _) end.
  rewrite (bindM_step _ _ _ _ _ Hcand).
  apply bindM_Raise, sample_invalid. lia.
Qed.

(** X14. [CreateInitialPopulation] raises in one case only: asked for
    at least one path of fewer than two nodes, it raises [ValueError], from
    the sample of a negative number of interior nodes. Asked for no path,
    it returns the empty population whatever the other arguments. *)
Theorem CreateInitialPopulation_raises (pop_size : Z) (graph : Graph)
    (start_attraction end_attraction : Node) (final_path_size : Z)
    (all_start_end_points : list Node) (t : tape) (e : exn) :
  (CreateInitialPopulation pop_size graph start_attraction end_attraction
     final_path_size all_start_end_points t = Raise e ↔
   e = ValueError ∧ 1 ≤ pop_size ∧ final_path_size < 2) ∧
  (pop_size ≤ 0 →
   CreateInitialPopulation pop_size graph start_attraction end_attraction
     final_path_size all_start_end_points t = Ok ([], t)).
Proof.
  assert (pop_size ≤ 0 →
          CreateInitialPopulation pop_size graph start_attraction end_attraction
            final_path_size all_start_end_points t = Ok ([], t)) as Hnone.
  { intros Hsize. unfold CreateInitialPopulation. by rewrite range_empty. }
  split; [|exact Hnone]. split.
  - intros Hraise.
    destruct (Z_le_gt_dec pop_size 0) as [Hsize | Hsize].
    { rewrite Hnone in Hraise by done. discriminate. }
    destruct (Z_lt_ge_dec final_path_size 2) as [Hfps | Hfps].
    + rewrite CreateInitialPopulation_short_path in Hraise by lia.
      injection Hraise as <-. split; [done | lia].
    + destruct (CreateInitialPopulation_total pop_size graph start_attraction
                  end_attraction final_path_size all_start_end_points t)
        as (pop & t' & Hrun & _); [lia|].
      rewrite Hrun in Hraise. discriminate.
  - intros (-> & Hsize & Hfps). by apply CreateInitialPopulation_short_path.
Qed.

Lemma CreateInitialPopulation_raises_witness :
  CreateInitialPopulation 4 example_graph "A" "D" 1 ["A"; "D"] example_tape
  = Raise ValueError ∧
  CreateInitialPopulation 0 example_graph "A" "D" 1 ["A"; "D"] example_tape
  = Ok ([], example_tape).
Proof.
  destruct (CreateInitialPopulation_raises 4 example_graph "A" "D" 1 ["A"; "D"]
              example_tape ValueError) as [Hraises _].
  destruct (CreateInitialPopulation_raises 0 example_graph "A" "D" 1 ["A"; "D"]
              example_tape ValueError) as [_ Hnone].
  split; [apply Hraises; split; [reflexivity | lia] | apply Hnone; lia].
Defined.

(** A list without repetition that draws from a set and has its size lists
    the set. *)
Lemma NoDup_covers (l : Path) (universe : gset Node) :
  NoDup l → Forall (λ x, x ∈ universe) l → length l = size universe →
  l ≡ₚ elements universe.
Proof.
  intros Hnd Hin Hlen.
  apply submseteq_length_Permutation.
  - apply NoDup_submseteq; [done|]. intros x Hx. apply elem_of_elements.
    by apply (proj1 (Forall_forall _ _) Hin).
  - by rewrite Hlen.
Qed.

Lemma full_tour_of_valid (s e : Node) (universe : gset Node) (path : Path) :
  len path = Z.of_nat (size universe) + 2 →
  head path = Some s → last path = Some e →
  Forall (λ x, x ∈ universe) (interior path) → NoDup (interior path) →
  full_tour s e universe path.
Proof.
  intros Hlen Hhead Hlast Hin Hnd. unfold len in Hlen.
  split; [lia|]. split; [done|]. split; [done|].
  apply NoDup_covers; [done..|].
  rewrite (path_shape s e path) in Hlen by (done || lia).
  cbn [length] in Hlen. rewrite length_app in Hlen. cbn [length] in Hlen. lia.
Qed.

(** X15. When the graph has no more eligible interior nodes than a path
    has room for, every path of the initial population is a full tour: it
    runs from the start to the end through every eligible node once. With
    no eligible node at all, the population is the single path of the two
    ends, however many paths were asked for. *)
Theorem CreateInitialPopulation_full_tours (pop_size : Z) (graph : Graph)
    (start_attraction end_attraction : Node) (final_path_size : Z)
    (all_start_end_points : list Node) (t : tape) :
  let universe :=
    interior_universe graph all_start_end_points start_attraction end_attraction in
  Z.of_nat (size universe) + 2 ≤ final_path_size →
  ∃ initial_population t',
    CreateInitialPopulation pop_size graph start_attraction end_attraction
      final_path_size all_start_end_points t = Ok (initial_population, t') ∧
    Forall (full_tour start_attraction end_attraction universe) initial_population ∧
    (universe = ∅ → 1 ≤ pop_size →
     initial_population = [[start_attraction; end_attraction]]).
Proof.
  intros universe Hroom.
  destruct (CreateInitialPopulation_total pop_size graph start_attraction
              end_attraction final_path_size all_start_end_points t)
    as (pop & t' & Hrun & _ & Hpaths); [lia|].
  fold universe in Hpaths.
  assert (Forall (full_tour start_attraction end_attraction universe) pop) as Htours.
  { eapply Forall_impl; [exact Hpaths|].
    intros path (Hlen & Hhead & Hlast & Hin & Hnd).
    apply full_tour_of_valid; [lia | done..]. }
  exists pop, t'. split; [exact Hrun|]. split; [exact Htours|].
  intros Hempty Hsize.
  apply CreateInitialPopulation_Ok in Hrun as (Hnd & _ & Hne).
  assert (∀ path, path ∈ pop → path = [start_attraction; end_attraction]) as Hone.
  { intros path Hpath.
    apply (proj1 (Forall_forall _ _) Htours) in Hpath as (Hlen & Hhead & Hlast & Hperm).
    rewrite Hempty, elements_empty in Hperm. apply Permutation_nil_r in Hperm.
    rewrite (path_shape start_attraction end_attraction path) by done.
    by rewrite Hperm. }
  destruct pop as [|p [|q pop]]; [by destruct Hne | |].
  - f_equal. apply Hone. by left.
  - exfalso. apply NoDup_cons in Hnd as [Hnotin _]. apply Hnotin.
    rewrite (Hone p), (Hone q); [by left | right; by left | by left].
Qed.

Lemma CreateInitialPopulation_full_tours_witness :
  ∃ initial_population t',
    CreateInitialPopulation 4 example_graph "A" "D" 5 ["A"; "D"] example_tape
      = Ok (initial_population, t') ∧
    Forall (full_tour "A" "D" (interior_universe example_graph ["A"; "D"] "A" "D"))
      initial_population.
Proof.
  destruct (CreateInitialPopulation_full_tours 4 example_graph "A" "D" 5 ["A"; "D"]
              example_tape) as (pop & t' & Hrun & Htours & _).
  - by vm_compute.
  - by exists pop, t'.
Defined.

(** ** The mutation rate over the generations *)











(** ** The driver: where the paths of a population come from *)

(** A pass of [breed] that completes has crossed two paths of the mating
    pool and returned the child, mutated or not. *)
Lemma breed_Ok (graph : Graph) (anchors : list Node) (mutation_rate : Q)
    (matingPool : list Path) (t : tape) (child : Path) (t' : tape) :
  breed graph anchors mutation_rate matingPool t = Ok (child, t') →
  ∃ Parent1 Parent2 start_index end_index crossed t1 t2,
    Parent1 ∈ matingPool ∧ Parent2 ∈ matingPool ∧
    Crossover Parent1 Parent2 start_index end_index anchors t1 = Ok (crossed, t2) ∧
    (child = crossed ∨ ∃ t3, Mutate crossed graph anchors t3 = Ok (child, t')).
Proof.
  unfold breed. intros H.
  apply bindM_Ok in H as (i1 & t1 & _ & H).
  apply bindM_Ok in H as (Parent1 & t1' & Hget1 & H). apply lift_Ok in Hget1 as [Hget1 ->].
  apply bindM_Ok in H as (i2 & t2 & _ & H).
  apply bindM_Ok in H as (Parent2 & t2' & Hget2 & H). apply lift_Ok in Hget2 as [Hget2 ->].
  apply bindM_Ok in H as (start_index & t3 & _ & H).
  apply bindM_Ok in H as (end_index & t4 & _ & H).
  apply bindM_Ok in H as (crossed & t5 & Hcross & H).
  apply bindM_Ok in H as (u & t6 & _ & H).
  exists Parent1, Parent2, start_index, end_index, crossed, t4, t5.
  split; [by eapply getitem_elem_of|]. split; [by eapply getitem_elem_of|].
  split; [done|].
  destruct (Qltb u mutation_rate).
  - right. by exists t6.
  - left. by apply retM_Ok in H as [-> _].
Qed.

(** A generation that completes: every path of the new population is
    either a child bred from a mating pool of paths of the old population,
    or one of the first [size // 2] paths of the old population. *)
Lemma generation_children (graph : Graph) (initial_mutation_rate minimum_mutation_rate : Q)
    (anchors : list Node) (decay_rate : Q) (st : driver) (generation : Z)
    (t : tape) (st' : driver) (t' : tape) :
  generation_body graph initial_mutation_rate minimum_mutation_rate anchors decay_rate
    st generation t = Ok (st', t') →
  ∃ matingPool children,
    Forall (λ path, path ∈ population st) matingPool ∧
    length children = (length (population st) / 2)%nat ∧
    population st' = children ++ take (length (population st) / 2) (population st) ∧
    Forall (λ child,
              ∃ t1 t2,
                breed graph anchors
                  (pymax (initial_mutation_rate - inject_Z generation * decay_rate)
                     minimum_mutation_rate) matingPool t1 = Ok (child, t2))
           children.
Proof.
  intros H.
  destruct (generation_body_Ok _ _ _ _ _ _ _ _ _ _ H)
    as (RankList & st1 & pool0 & children0 & _ & Hbest0 & _ & _ & Hclen & Hpop & _).
  unfold generation_body in H.
  apply bindM_Ok in H as (RankList' & t1 & Hrank & H). apply lift_Ok in Hrank as [Hrank ->].
  apply bindM_Ok in H as (st1' & t1 & Hbest & H). apply lift_Ok in Hbest as [Hbest ->].
  apply bindM_Ok in H as (matingPool & t2 & Hpool & H).
  apply bindM_Ok in H as (children & t3 & Hchildren & H).
  apply retM_Ok in H as [-> ->].
  destruct (record_best_Ok _ _ _ Hbest) as (top & _ & Hsame & _).
  rewrite Hsame in *.
  exists matingPool, children. cbn [population] in *.
  assert (Forall (λ path, path ∈ population st) matingPool) as Hpmem.
  { unfold CreateMatingPool in Hpool.
    apply (foldM_invariant (Forall (λ path, path ∈ population st))) in Hpool;
      [done | | apply Forall_nil_2].
    intros pool i t0 pool' t0' _ Hmem Hstep.
    apply bindM_Ok in Hstep as (tournament & t4 & _ & Hstep).
    apply bindM_Ok in Hstep as (winner & t5 & _ & Hstep).
    apply bindM_Ok in Hstep as (chosen & t6 & Hchosen & Hstep).
    apply lift_Ok in Hchosen as [Hchosen ->].
    apply retM_Ok in Hstep as [-> ->].
    rewrite Forall_app, Forall_singleton.
    split; [done|]. by eapply getitem_elem_of. }
  split; [done|].
  rewrite slice_to_half in Hpop |- *.
  assert (length children = (length (population st) / 2)%nat) as Hlen.
  { apply (f_equal length) in Hpop. rewrite !length_app in Hpop. lia. }
  split; [done|]. split; [done|].
  match type of Hchildren with foldM ?f ?l ?a0 ?t0 = _ =>
    apply (foldM_invariant
             (Forall (λ child,
                ∃ t1 t2,
                  breed graph anchors
                    (pymax (initial_mutation_rate - inject_Z generation * decay_rate)
                       minimum_mutation_rate) matingPool t1 = Ok (child, t2)))
             f l) in Hchildren
  end; [done | | apply Forall_nil_2].
  intros acc i t0 acc' t0' _ Hacc Hstep.
  apply bindM_Ok in Hstep as (child & t4 & Hchild & Hstep).
  apply retM_Ok in Hstep as [-> ->].
  rewrite Forall_app, Forall_singleton. split; [done|]. by exists t0, t4.
Qed.

(** A property of paths that crossover and mutation preserve is kept by
    a generation, and by any number of them. *)
Section Inheritance.
Context (graph : Graph) (initial_mutation_rate minimum_mutation_rate : Q)
        (all_start_end_points : list Node) (decay_rate : Q).
Context (good : Path → Prop).
Context (Crossover_good : ∀ Parent1 Parent2 Start_Index End_Index t child t',
           good Parent1 → good Parent2 →
           Crossover Parent1 Parent2 Start_Index End_Index all_start_end_points t
             = Ok (child, t') →
           good child).
Context (Mutate_good : ∀ Child t Child' t',
           good Child → Mutate Child graph all_start_end_points t = Ok (Child', t') →
           good Child').

Local Abbreviation body :=
  (generation_body graph initial_mutation_rate minimum_mutation_rate
              all_start_end_points decay_rate).

Lemma generation_inherits (st : driver) (generation : Z) (t : tape)
    (st' : driver) (t' : tape) :
  Forall good (population st) → body st generation t = Ok (st', t') →
  Forall good (population st').
Proof.
  intros Hpop H.
  apply generation_children in H as (pool & children & Hpool & _ & -> & Hbred).
  apply Forall_app. split; [|by apply Forall_take].
  eapply Forall_impl; [exact Hbred|].
  intros child (t1 & t2 & Hchild). cbv beta in Hchild.
  apply breed_Ok in Hchild
    as (Parent1 & Parent2 & S' & E' & crossed & t3 & t4 & H1 & H2 & Hcross & Hcase).
  assert (good crossed) as Hcrossed.
  { eapply Crossover_good; [| |exact Hcross].
    - apply (proj1 (Forall_forall _ _) Hpop).
      by apply (proj1 (Forall_forall _ _) Hpool).
    - apply (proj1 (Forall_forall _ _) Hpop).
      by apply (proj1 (Forall_forall _ _) Hpool). }
  destruct Hcase as [-> | [t5 Hmut]]; [done|]. by eapply Mutate_good.
Qed.

Lemma trace_inherits (gens : list Z) (st : driver) (t : tape)
    (states : list driver) (t' : tape) :
  Forall good (population st) → trace body gens st t = Ok (states, t') →
  Forall (λ s, Forall good (population s)) states.
Proof.
  revert st t states. induction gens as [|g gens IH]; intros st t states Hst H;
    simpl in H.
  - apply retM_Ok in H as [-> _]. apply Forall_nil_2.
  - apply bindM_Ok in H as (st1 & t1 & Hstep & H).
    apply bindM_Ok in H as (rest & t2 & Hrest & H).
    apply retM_Ok in H as [-> ->].
    apply Forall_cons. split; [done|].
    eapply IH; [|exact Hrest]. by eapply generation_inherits.
Qed.
End Inheritance.

(** ** Runs in which every eligible node fits on a path *)

Section FullTours.
Context (graph : Graph) (all_start_end_points : list Node)
        (start_attraction end_attraction : Node).

Local Abbreviation universe :=
  (interior_universe graph all_start_end_points start_attraction end_attraction).
Local Abbreviation tour := (full_tour start_attraction end_attraction universe).

Lemma universe_elem (x : Node) :
  x ∈ universe ↔
  x ∈ dom graph ∧ (x ∉ all_start_end_points) ∧ x ≠ start_attraction ∧ x ≠ end_attraction.
Proof.
  unfold interior_universe.
  rewrite !elem_of_difference, elem_of_list_to_set, elem_of_union, !elem_of_singleton.
  tauto.
Qed.

Lemma full_tour_shape (path : Path) :
  tour path ↔
  ∃ inner, path = start_attraction :: inner ++ [end_attraction] ∧
           inner ≡ₚ elements universe.
Proof.
  split.
  - intros (Hlen & Hhead & Hlast & Hperm).
    exists (interior path). split; [by apply path_shape | done].
  - intros (inner & -> & Hperm). unfold full_tour. rewrite interior_shape.
    cbn [length head]. rewrite length_app. cbn [length].
    split; [lia|]. split; [done|]. split; [|done].
    by rewrite last_cons, last_snoc.
Qed.

Lemma full_tour_valid (path : Path) :
  tour path →
  valid_path start_attraction end_attraction
    (start_attraction :: end_attraction :: all_start_end_points) path.
Proof.
  intros (inner & -> & Hperm)%full_tour_shape.
  apply valid_path_shape. exists inner. split; [done|].
  split; [rewrite Hperm; apply NoDup_elements|].
  apply Forall_forall. intros x Hx.
  rewrite Hperm, elem_of_elements, universe_elem in Hx.
  rewrite !elem_of_cons. tauto.
Qed.

Lemma full_tour_nodes (path : Path) (x : Node) :
  tour path →
  x ∈ path ↔ x = start_attraction ∨ x = end_attraction ∨ x ∈ universe.
Proof.
  intros (inner & -> & Hperm)%full_tour_shape.
  rewrite elem_of_cons, elem_of_app, list_elem_of_singleton, Hperm, elem_of_elements.
  tauto.
Qed.

Lemma splice_full_tour (Parent1 Parent2 : Path) (Start_Index End_Index : Z) :
  tour Parent1 → tour Parent2 →
  tour (splice Parent1 Parent2 Start_Index End_Index).
Proof.
  intros H1 H2.
  assert (length Parent1 = length Parent2) as Hlen.
  { apply full_tour_shape in H1 as (i1 & -> & Hp1).
    apply full_tour_shape in H2 as (i2 & -> & Hp2).
    cbn [length]. by rewrite !length_app, Hp1, Hp2. }
  pose proof (splice_valid start_attraction end_attraction
                (start_attraction :: end_attraction :: all_start_end_points)
                Parent1 Parent2 Start_Index End_Index) as Hvalid.
  destruct (proj1 (valid_path_shape _ _ _ _)
              (Hvalid ltac:(by left) ltac:(right; by left)
                 (full_tour_valid _ H1) (full_tour_valid _ H2) Hlen))
    as (inner & Hshape & Hnd & Hna).
  apply full_tour_shape. exists inner. split; [done|].
  apply NoDup_Permutation; [done | apply NoDup_elements|].
  intros x. rewrite elem_of_elements.
  pose proof (splice_Permutation Parent1 Parent2 Start_Index End_Index) as Hperm.
  cbn zeta in Hperm.
  set (sec := slice Parent1 _ _) in Hperm.
  assert (x ∈ inner ↔
          x ∈ splice Parent1 Parent2 Start_Index End_Index ∧
          x ≠ start_attraction ∧ x ≠ end_attraction) as ->.
  { rewrite Hshape, elem_of_cons, elem_of_app, list_elem_of_singleton.
    split; [|tauto]. intros Hx.
    apply (proj1 (Forall_forall _ _) Hna) in Hx as Hx'.
    rewrite !elem_of_cons in Hx'. tauto. }
  rewrite Hperm, elem_of_app, list_elem_of_filter.
  assert (x ∈ sec → x ∈ Parent1) as Hsec.
  { intros Hx. eapply elem_of_sublist; [exact Hx | apply slice_sublist]. }
  pose proof (full_tour_nodes Parent1 x H1) as Hn1.
  pose proof (full_tour_nodes Parent2 x H2) as Hn2.
  pose proof (universe_elem x) as Hu.
  destruct (decide (x ∈ sec)); tauto.
Qed.

Lemma Crossover_full_tour (Parent1 Parent2 : Path) (Start_Index End_Index : Z)
    (t : tape) :
  tour Parent1 → tour Parent2 →
  Crossover Parent1 Parent2 Start_Index End_Index all_start_end_points t
  = Ok (splice Parent1 Parent2 Start_Index End_Index, t).
Proof.
  intros H1 H2. pose proof (splice_full_tour _ _ Start_Index End_Index H1 H2) as Hc.
  unfold Crossover.
  replace (list_to_set Parent1 ∖ list_to_set all_start_end_points
           ∖ list_to_set (splice Parent1 Parent2 Start_Index End_Index))
    with (∅ : gset Node).
  - by rewrite (bindM_step _ _ _ _ _ (list_of_set_empty t)).
  - symmetry. apply leibniz_equiv, elem_of_equiv_empty. intros x.
    rewrite !elem_of_difference, !elem_of_list_to_set.
    rewrite (full_tour_nodes _ x H1), (full_tour_nodes _ x Hc). tauto.
Qed.

Lemma Mutate_full_tour (Child : Path) (t : tape) (Child' : Path) (t' : tape) :
  tour Child → Mutate Child graph all_start_end_points t = Ok (Child', t') →
  tour Child'.
Proof.
  intros Htour Hrun.
  assert (valid_path start_attraction end_attraction all_start_end_points Child)
    as Hvalid.
  { pose proof (full_tour_valid _ Htour) as (Hlen & Hhead & Hlast & Hnd & Hna).
    split; [done|]. split; [done|]. split; [done|]. split; [done|].
    eapply Forall_impl; [exact Hna|]. intros x Hx Hin. apply Hx. by do 2 right. }
  destruct (Mutate_valid_cases _ _ _ _ graph t Hvalid)
    as (Child'' & t'' & Hrun' & (Hlen & Hhead & Hlast & _) & _ & Hcase).
  rewrite Hrun in Hrun'. injection Hrun' as <- <-.
  destruct Hcase as [Hperm | (j & x & _ & Hdom & Hfresh & Hanchor & _)].
  - split; [done|]. split; [done|]. split; [done|].
    rewrite Hperm. by destruct Htour as (_ & _ & _ & ?).
  - exfalso. apply Hfresh.
    apply (full_tour_nodes _ x Htour).
    destruct (decide (x = start_attraction)); [by left|].
    destruct (decide (x = end_attraction)); [right; by left|].
    do 2 right. by apply universe_elem.
Qed.

Lemma initial_population_full_tours (pop_size final_path_size : Z) (t : tape)
    (pop : list Path) (t' : tape) :
  Z.of_nat (size universe) + 2 ≤ final_path_size →
  CreateInitialPopulation pop_size graph start_attraction end_attraction
    final_path_size all_start_end_points t = Ok (pop, t') →
  Forall tour pop.
Proof.
  intros Hroom Hrun.
  destruct (CreateInitialPopulation_total pop_size graph start_attraction
              end_attraction final_path_size all_start_end_points t)
    as (pop' & t'' & Hrun' & _ & Hpaths); [lia|].
  rewrite Hrun in Hrun'. injection Hrun' as <- <-.
  eapply Forall_impl; [exact Hpaths|].
  intros path (Hlen & Hhead & Hlast & Hin & Hnd).
  apply full_tour_of_valid; [lia | done..].
Qed.

Lemma run_full_tours (initial_pop_size final_path_size generations : Z)
    (initial_mutation_rate minimum_mutation_rate : Q) (t : tape)
    (path : Path) (fitness : weight) (t' : tape) :
  Z.of_nat (size universe) + 2 ≤ final_path_size →
  run_genetic_algorithm graph initial_pop_size start_attraction end_attraction
    final_path_size generations initial_mutation_rate minimum_mutation_rate
    all_start_end_points t = Ok ((path, fitness), t') →
  (path = [] ∧ fitness = Inf) ∨
  (tour path ∧ calculate_path_distance graph path = Ok fitness).
Proof.
  intros Hroom Hrun.
  destruct (run_returns_best_observed _ _ _ _ _ _ _ _ _ _ _ _ _ Hrun)
    as (decay_rate & st0 & t0 & states & final & Hinit & _ & _ & Htrace & _ & _
        & _ & _ & _ & Hcase & _).
  destruct Hcase as [[-> ->] | (s & Hs & Hpath & Hfit)]; [by left | right].
  split; [|done].
  assert (Forall tour (population st0)) as Hpop0.
  { unfold initialise in Hinit.
    apply bindM_Ok in Hinit as (d & t1 & Hd & Hinit). apply lift_Ok in Hd as [_ ->].
    apply bindM_Ok in Hinit as (pop & t2 & Hpop & Hinit).
    apply retM_Ok in Hinit as [[= -> ->] ->].
    by eapply initial_population_full_tours. }
  pose proof (trace_inherits graph initial_mutation_rate minimum_mutation_rate
                all_start_end_points decay_rate tour) as Hinherit.
  assert (Forall (λ s, Forall tour (population s)) states) as Hall.
  { eapply Hinherit; [| |exact Hpop0|exact Htrace].
    - intros Parent1 Parent2 Start_Index End_Index t1 child t2 H1 H2 Hcross.
      rewrite (Crossover_full_tour _ _ _ _ _ H1 H2) in Hcross.
      injection Hcross as <- _. by apply splice_full_tour.
    - intros Child t1 Child' t2. apply Mutate_full_tour. }
  apply (proj1 (Forall_forall _ _) (proj1 (Forall_forall _ _) Hall s Hs) path Hpath).
Qed.
End FullTours.

(** X17. When the graph has no more eligible interior nodes than a path
    has room for, a run that returns a path returns a full tour: a path
    from the start to the end through every eligible node once, together
    with its distance. Crossover and mutation then only rearrange the
    interior of a path, so no generation loses or repeats a node. The
    only other outcome is the empty path with infinite fitness. *)
Theorem run_returns_full_tour (graph : Graph) (initial_pop_size : Z)
    (start_attraction end_attraction : Node) (final_path_size generations : Z)
    (initial_mutation_rate minimum_mutation_rate : Q)
    (all_start_end_points : list Node) (t : tape)
    (path : Path) (fitness : weight) (t' : tape) :
  let universe :=
    interior_universe graph all_start_end_points start_attraction end_attraction in
  Z.of_nat (size universe) + 2 ≤ final_path_size →
  run_genetic_algorithm graph initial_pop_size start_attraction end_attraction
    final_path_size generations initial_mutation_rate minimum_mutation_rate
    all_start_end_points t = Ok ((path, fitness), t') →
  (path = [] ∧ fitness = Inf) ∨
  (full_tour start_attraction end_attraction universe path ∧
   calculate_path_distance graph path = Ok fitness).
Proof. intros universe. apply run_full_tours. Qed.

Lemma run_returns_full_tour_witness :
  full_tour "A" "D" (interior_universe example_graph ["A"; "D"] "A" "D")
    ["A"; "E"; "C"; "B"; "D"] ∧
  calculate_path_distance example_graph ["A"; "E"; "C"; "B"; "D"] = Ok (Fin 5).
Proof.
  destruct (run_returns_full_tour example_graph 4 "A" "D" 5 2 (1 # 2) (1 # 10)
              ["A"; "D"] example_tape ["A"; "E"; "C"; "B"; "D"] (Fin 5) [])
    as [[Hempty _] | Htour]; [by vm_compute | by vm_compute | discriminate Hempty|].
  exact Htour.
Defined.

(** ** The driver: the size and the make-up of the population over a run *)

Lemma even_half (n : nat) : (2 * (n / 2) / 2 = n / 2)%nat.
Proof. by rewrite Nat.mul_comm, Nat.div_mul. Qed.

Section Sizes.
Context (graph : Graph) (initial_mutation_rate minimum_mutation_rate : Q)
        (all_start_end_points : list Node) (decay_rate : Q).

Local Abbreviation body :=
  (generation_body graph initial_mutation_rate minimum_mutation_rate
              all_start_end_points decay_rate).

Lemma generation_size (st : driver) (generation : Z) (t : tape)
    (st' : driver) (t' : tape) :
  body st generation t = Ok (st', t') →
  length (population st') = (2 * (length (population st) / 2))%nat.
Proof.
  intros H. apply generation_children in H as (pool & children & _ & Hlen & -> & _).
  rewrite length_app, length_take, Hlen.
  pose proof (Nat.Div0.div_le_upper_bound (length (population st)) 2
                (length (population st))).
  lia.
Qed.

Lemma loop_sizes (gens : list Z) (st : driver) (t : tape)
    (final : driver) (t' : tape) :
  foldM body gens st t = Ok (final, t') →
  ∃ states,
    trace body gens st t = Ok (states, t') ∧
    head (states ++ [final]) = Some st ∧
    ∀ i s, (states ++ [final]) !! S i = Some s →
           length (population s) = (2 * (length (population st) / 2))%nat.
Proof.
  revert st t. induction gens as [|g gens IH]; intros st t H; simpl in H.
  - apply retM_Ok in H as [-> ->]. exists []. simpl.
    split; [done|]. split; [done|]. intros i s Hs. done.
  - apply bindM_Ok in H as (st1 & t1 & Hstep & H).
    destruct (IH _ _ H) as (states & Htrace & Hhead & Hsizes).
    exists (st :: states). simpl.
    rewrite (bindM_step _ _ _ _ _ Hstep), (bindM_step _ _ _ _ _ Htrace).
    split; [done|]. split; [done|].
    pose proof (generation_size _ _ _ _ _ Hstep) as Hsize1.
    intros [|i] s Hs; simpl in Hs.
    + rewrite <- head_lookup, Hhead in Hs. by injection Hs as <-.
    + rewrite (Hsizes i s Hs), Hsize1. by rewrite even_half.
Qed.
End Sizes.

(** X18. Over a run the size of the population changes at most once.
    The first generation leaves [2 * (n // 2)] paths of the [n] it started
    from, one fewer when [n] is odd, and every later generation leaves as
    many as it started from. *)
Theorem population_size_settles (graph : Graph)
    (initial_mutation_rate minimum_mutation_rate : Q)
    (all_start_end_points : list Node) (decay_rate : Q)
    (generations : list Z) (st : driver) (t : tape) (final : driver) (t' : tape) :
  foldM (generation_body graph initial_mutation_rate minimum_mutation_rate
           all_start_end_points decay_rate) generations st t = Ok (final, t') →
  ∃ states,
    trace (generation_body graph initial_mutation_rate minimum_mutation_rate
             all_start_end_points decay_rate) generations st t = Ok (states, t') ∧
    head (states ++ [final]) = Some st ∧
    ∀ i s, (states ++ [final]) !! S i = Some s →
           length (population s) = (2 * (length (population st) / 2))%nat.
Proof. apply loop_sizes. Qed.

(** A population of five paths: four are left from the second generation on. *)
Lemma population_size_settles_witness :
  ∃ states final t',
    trace (generation_body example_graph (1 # 2) (1 # 10) ["A"; "D"] (1 # 5))
      (range 3) (Driver (["A"; "C"; "E"; "D"] :: example_population) [] Inf)
      example_tape
    = Ok (states, t') ∧
    ∀ i s, (states ++ [final]) !! S i = Some s → length (population s) = 4%nat.
Proof.
  eassert (foldM (generation_body example_graph (1 # 2) (1 # 10) ["A"; "D"] (1 # 5))
             (range 3) (Driver (["A"; "C"; "E"; "D"] :: example_population) [] Inf)
             example_tape = Ok (_, _)) as Hrun by (vm_compute; reflexivity).
  destruct (population_size_settles _ _ _ _ _ _ _ _ _ _ Hrun)
    as (states & Htrace & _ & Hsizes).
  eexists states, _, _. split; [exact Htrace | exact Hsizes].
Defined.

(** X19. What a generation retains of the population is its first half
    in population order, and from the second generation on that half is
    the children of the generation before: after two generations the
    population is the children of the second followed by the children of
    the first, and no path is there because the first population held it. *)
Theorem survivors_are_previous_children (graph : Graph)
    (initial_mutation_rate minimum_mutation_rate : Q)
    (all_start_end_points : list Node) (decay_rate : Q)
    (st : driver) (generation generation' : Z) (t : tape)
    (st1 : driver) (t1 : tape) (st2 : driver) (t2 : tape) :
  let body := generation_body graph initial_mutation_rate minimum_mutation_rate
                all_start_end_points decay_rate in
  let bred (rate : Q) (from : list Path) (child : Path) :=
    ∃ matingPool t3 t4,
      Forall (λ path, path ∈ from) matingPool ∧
      breed graph all_start_end_points rate matingPool t3 = Ok (child, t4) in
  let rate (generation : Z) :=
    pymax (initial_mutation_rate - inject_Z generation * decay_rate)
      minimum_mutation_rate in
  body st generation t = Ok (st1, t1) →
  body st1 generation' t1 = Ok (st2, t2) →
  ∃ children1 children2,
    population st1
    = children1 ++ take (length (population st) / 2) (population st) ∧
    population st2 = children2 ++ children1 ∧
    length children1 = (length (population st) / 2)%nat ∧
    length children2 = (length (population st) / 2)%nat ∧
    Forall (bred (rate generation) (population st)) children1 ∧
    Forall (bred (rate generation') (population st1)) children2.
Proof.
  intros body bred rate H1 H2.
  apply generation_children in H1
    as (pool1 & children1 & Hpool1 & Hlen1 & Hpop1 & Hbred1).
  apply generation_children in H2
    as (pool2 & children2 & Hpool2 & Hlen2 & Hpop2 & Hbred2).
  assert (length (population st1) / 2 = length (population st) / 2)%nat as Hhalf.
  { rewrite Hpop1, length_app, length_take, Hlen1.
    rewrite Nat.min_l by (apply Nat.Div0.div_le_upper_bound; lia).
    set (h := (length (population st) / 2)%nat).
    replace (h + h)%nat with (2 * h)%nat by lia.
    apply even_half. }
  exists children1, children2.
  split; [done|]. split.
  - rewrite Hpop2, Hhalf. f_equal. rewrite Hpop1.
    by rewrite take_app_length' by done.
  - split; [done|]. split; [by rewrite Hlen2, Hhalf|]. split.
    + eapply Forall_impl; [exact Hbred1|].
      intros child (t3 & t4 & Hchild). by exists pool1, t3, t4.
    + eapply Forall_impl; [exact Hbred2|].
      intros child (t3 & t4 & Hchild). by exists pool2, t3, t4.
Qed.

(** Two generations from [example_population]. *)
Lemma survivors_are_previous_children_witness :
  ∃ st1 st2 children1 children2,
    population st1 = children1 ++ take 2 example_population ∧
    population st2 = children2 ++ children1 ∧
    length children1 = 2%nat ∧ length children2 = 2%nat.
Proof.
  eassert (generation_body example_graph (1 # 2) (1 # 10) ["A"; "D"] (1 # 5)
             (Driver example_population [] Inf) 0 example_tape = Ok (_, _))
    as Hfirst by (vm_compute; reflexivity).
  match type of Hfirst with
  | _ = Ok (?st1, ?t1) =>
      eassert (generation_body example_graph (1 # 2) (1 # 10) ["A"; "D"] (1 # 5)
                 st1 1 t1 = Ok (_, _))
        as Hsecond by (vm_compute; reflexivity)
  end.
  destruct (survivors_are_previous_children _ _ _ _ _ _ _ _ _ _ _ _ _ Hfirst Hsecond)
    as (children1 & children2 & Hpop1 & Hpop2 & Hlen1 & Hlen2 & _).
  eexists _, _, children1, children2.
  split; [exact Hpop1|]. split; [exact Hpop2|]. split; [exact Hlen1 | exact Hlen2].
Defined.

(** ** Crossover: how long the child is *)

Lemma filter_common (l k : Path) :
  NoDup l → NoDup k →
  length (filter (λ x, x ∈ k) l) = length (filter (λ x, x ∈ l) k).
Proof.
  intros Hl Hk. apply Permutation_length, NoDup_Permutation.
  - by apply NoDup_filter.
  - by apply NoDup_filter.
  - intros x. rewrite !list_elem_of_filter. tauto.
Qed.

Lemma filter_split_length (P : Node → Prop) `{∀ x, Decision (P x)} (l : Path) :
  length l = (length (filter P l) + length (filter (λ x, ¬ P x) l))%nat.
Proof. by rewrite <- length_app, filter_app_complement. Qed.

Lemma splice_length (Parent1 Parent2 : Path) (Start_Index End_Index : Z) :
  NoDup Parent1 → NoDup Parent2 →
  let p1_section :=
    slice Parent1 (Z.max Start_Index 1) (Z.min End_Index (len Parent1 - 2) + 1) in
  length (splice Parent1 Parent2 Start_Index End_Index)
  = (length Parent2 + length (filter (λ x, x ∉ Parent2) p1_section))%nat.
Proof.
  intros Hnd1 Hnd2 sec.
  rewrite (splice_Permutation Parent1 Parent2 Start_Index End_Index). fold sec.
  assert (NoDup sec) as Hndsec.
  { eapply sublist_NoDup; [exact Hnd1 | apply slice_sublist]. }
  rewrite length_app.
  rewrite (filter_split_length (λ x, x ∈ sec) Parent2).
  rewrite (filter_split_length (λ x, x ∈ Parent2) sec) at 1.
  rewrite (filter_common Parent2 sec Hnd2 Hndsec). lia.
Qed.

(** X20. For parents without repeated nodes, the child of [Crossover] is
    longer than the second parent by the number of nodes of the donor
    segment that the second parent does not hold: it is never shorter, and
    it has the second parent's length exactly when the second parent holds
    every node of the segment. *)
Theorem Crossover_child_length (Parent1 Parent2 : Path) (Start_Index End_Index : Z)
    (all_start_end_points : list Node) (t : tape) :
  NoDup Parent1 → NoDup Parent2 →
  let p1_section :=
    slice Parent1 (Z.max Start_Index 1) (Z.min End_Index (len Parent1 - 2) + 1) in
  ∃ child t',
    Crossover Parent1 Parent2 Start_Index End_Index all_start_end_points t
      = Ok (child, t') ∧
    length child
    = (length Parent2 + length (filter (λ x, x ∉ Parent2) p1_section))%nat ∧
    (length child = length Parent2 ↔ Forall (λ x, x ∈ Parent2) p1_section).
Proof.
  intros Hnd1 Hnd2 sec.
  destruct (Crossover_Ok Parent1 Parent2 Start_Index End_Index all_start_end_points t)
    as (child & t' & Hrun & Hlen & _).
  exists child, t'. split; [exact Hrun|].
  rewrite Hlen, splice_length by done. fold sec. split; [done|].
  split.
  - intros Heq. apply Forall_forall. intros x Hx.
    destruct (decide (x ∈ Parent2)) as [|Hnot]; [done|]. exfalso.
    assert (x ∈ filter (λ x, x ∉ Parent2) sec) as Hin
      by (by apply list_elem_of_filter).
    destruct (filter (λ x, x ∉ Parent2) sec); [by apply elem_of_nil in Hin|].
    simpl in Heq. lia.
  - intros Hall. rewrite filter_none; [simpl; lia|].
    eapply Forall_impl; [exact Hall|]. intros x Hx Hnot. done.
Qed.

(** Parents over different node sets: the child is longer than both. *)
Lemma Crossover_child_length_witness :
  ∃ child t',
    Crossover ["A"; "B"; "C"; "D"] ["A"; "C"; "E"; "D"] 1 1 ["A"; "D"] example_tape
      = Ok (child, t') ∧
    length child = 5%nat.
Proof.
  destruct (Crossover_child_length ["A"; "B"; "C"; "D"] ["A"; "C"; "E"; "D"] 1 1
              ["A"; "D"] example_tape) as (child & t' & Hrun & Hlen & _);
    [by_evaluation | by_evaluation|].
  by exists child, t'.
Defined.

(** ** Runs in general: what the returned path is sure to be *)

Lemma Mutate_Ok_length (Child : Path) (graph : Graph) (anchors : list Node)
    (t : tape) (Child' : Path) (t' : tape) :
  Mutate Child graph anchors t = Ok (Child', t') → length Child' = length Child.
Proof.
  intros Hrun.
  destruct (Mutate_cases Child graph anchors t) as (Child'' & t'' & Hrun' & Hcase).
  rewrite Hrun in Hrun'. injection Hrun' as <- <-.
  destruct Hcase as [->|[(a & b & Ha & Hab & Hb & ->)|(i & x & _ & _ & _ & _ & _ & ->)]].
  - done.
  - apply (replace_segment_frame Child _ a b Ha Hab Hb).
    rewrite length_reverse, length_take, length_drop. lia.
  - apply length_insert.
Qed.

Lemma Crossover_Ok_length (Parent1 Parent2 : Path) (Start_Index End_Index : Z)
    (anchors : list Node) (t : tape) (child : Path) (t' : tape) :
  NoDup Parent1 → NoDup Parent2 →
  Crossover Parent1 Parent2 Start_Index End_Index anchors t = Ok (child, t') →
  (length Parent2 ≤ length child)%nat.
Proof.
  intros Hnd1 Hnd2 Hrun.
  destruct (Crossover_Ok Parent1 Parent2 Start_Index End_Index anchors t)
    as (child' & t'' & Hrun' & Hlen & _).
  rewrite Hrun in Hrun'. injection Hrun' as <- <-.
  rewrite Hlen, splice_length by done. lia.
Qed.

Lemma run_simple_paths (graph : Graph) (initial_pop_size : Z)
    (start_attraction end_attraction : Node) (final_path_size generations : Z)
    (initial_mutation_rate minimum_mutation_rate : Q)
    (all_start_end_points : list Node) (t : tape)
    (path : Path) (fitness : weight) (t' : tape) :
  let universe :=
    interior_universe graph all_start_end_points start_attraction end_attraction in
  start_attraction ≠ end_attraction →
  start_attraction ∈ dom graph → end_attraction ∈ dom graph →
  3 ≤ final_path_size → universe ≠ ∅ →
  run_genetic_algorithm graph initial_pop_size start_attraction end_attraction
    final_path_size generations initial_mutation_rate minimum_mutation_rate
    all_start_end_points t = Ok ((path, fitness), t') →
  (path = [] ∧ fitness = Inf) ∨
  (breedable graph path ∧
   Z.min final_path_size (Z.of_nat (size universe) + 2) ≤ len path ∧
   calculate_path_distance graph path = Ok fitness).
Proof.
  intros universe Hse Hs He Hfps Hne Hrun.
  destruct (run_returns_best_observed _ _ _ _ _ _ _ _ _ _ _ _ _ Hrun)
    as (decay_rate & st0 & t0 & states & final & Hinit & _ & _ & Htrace & _ & _
        & _ & _ & _ & Hcase & _).
  destruct Hcase as [[-> ->] | (s & Hs' & Hpath & Hfit)]; [by left | right].
  set (least := Z.min final_path_size (Z.of_nat (size universe) + 2)).
  set (good := λ p : Path, breedable graph p ∧ least ≤ len p).
  assert (Forall good (population st0)) as Hpop0.
  { unfold initialise in Hinit.
    apply bindM_Ok in Hinit as (d & t1 & Hd & Hinit). apply lift_Ok in Hd as [_ ->].
    apply bindM_Ok in Hinit as (pop & t2 & Hpop & Hinit).
    apply retM_Ok in Hinit as [[= -> ->] ->].
    pose proof (initial_population_breedable _ _ _ _ _ _ _ _ _
                  Hse Hs He Hfps Hne Hpop) as Hbreedable.
    destruct (CreateInitialPopulation_total initial_pop_size graph start_attraction
                end_attraction final_path_size all_start_end_points t)
      as (pop' & t'' & Hpop' & _ & Hpaths); [lia|].
    rewrite Hpop in Hpop'. injection Hpop' as <- <-.
    cbn [population]. apply Forall_forall. intros p Hp. split.
    - by apply (proj1 (Forall_forall _ _) Hbreedable).
    - apply (proj1 (Forall_forall _ _) Hpaths) in Hp as (Hlen & _).
      unfold least. fold universe in Hlen. lia. }
  assert (Forall (λ s, Forall good (population s)) states) as Hall.
  { eapply (trace_inherits graph initial_mutation_rate minimum_mutation_rate
              all_start_end_points decay_rate good); [| |exact Hpop0|exact Htrace].
    - intros Parent1 Parent2 Start_Index End_Index t1 child t2 [H1 _] [H2 Hlen2] Hcross.
      destruct (Crossover_breedable graph Parent1 Parent2 Start_Index End_Index
                  all_start_end_points t1 H1 H2) as (child' & t2' & Hcross' & Hchild).
      rewrite Hcross in Hcross'. injection Hcross' as <- <-.
      split; [done|].
      apply Crossover_Ok_length in Hcross; [|by destruct H1|by destruct H2].
      unfold len in *. lia.
    - intros Child t1 Child' t2 [H1 Hlen1] Hmut.
      destruct (Mutate_breedable graph Child all_start_end_points t1 H1)
        as (Child'' & t2' & Hmut' & Hchild).
      rewrite Hmut in Hmut'. injection Hmut' as <- <-.
      split; [done|]. apply Mutate_Ok_length in Hmut. unfold len in *. lia. }
  destruct (proj1 (Forall_forall _ _) (proj1 (Forall_forall _ _) Hall s Hs') path Hpath)
    as [Hb Hlen].
  done.
Qed.

(** X21. Under the conditions that make a run return, the path it
    returns, if it is not the empty path of a run without generations,
    repeats no node, holds only nodes of the graph, and is at least as long
    as the paths of the initial population. Crossover and mutation never
    shorten a path of the population and never repeat a node on it. *)
Theorem run_returns_simple_path (graph : Graph) (initial_pop_size : Z)
    (start_attraction end_attraction : Node) (final_path_size generations : Z)
    (initial_mutation_rate minimum_mutation_rate : Q)
    (all_start_end_points : list Node) (t : tape)
    (path : Path) (fitness : weight) (t' : tape) :
  let universe :=
    interior_universe graph all_start_end_points start_attraction end_attraction in
  start_attraction ≠ end_attraction →
  start_attraction ∈ dom graph → end_attraction ∈ dom graph →
  3 ≤ final_path_size → universe ≠ ∅ →
  run_genetic_algorithm graph initial_pop_size start_attraction end_attraction
    final_path_size generations initial_mutation_rate minimum_mutation_rate
    all_start_end_points t = Ok ((path, fitness), t') →
  (path = [] ∧ fitness = Inf) ∨
  (NoDup path ∧ Forall (λ x, x ∈ dom graph) path ∧
   Z.min final_path_size (Z.of_nat (size universe) + 2) ≤ len path ∧
   calculate_path_distance graph path = Ok fitness).
Proof.
  intros universe Hse Hs He Hfps Hne Hrun.
  destruct (run_simple_paths _ _ _ _ _ _ _ _ _ _ _ _ _ Hse Hs He Hfps Hne Hrun)
    as [Hempty | [(Hnd & _ & Hdom) [Hlen Hfit]]]; [by left | right].
  done.
Qed.

(** Three attractions compete for the two interior positions of a path. *)
Lemma run_returns_simple_path_witness :
  ∃ path fitness t',
    run_genetic_algorithm example_graph 6 "A" "D" 4 2 (1 # 2) (1 # 10) ["A"; "D"]
      general_tape = Ok ((path, fitness), t') ∧
    NoDup path ∧ Forall (λ x, x ∈ dom example_graph) path ∧
    Z.min 4 (Z.of_nat (size (interior_universe example_graph ["A"; "D"] "A" "D")) + 2)
    ≤ len path ∧
    calculate_path_distance example_graph path = Ok fitness.
Proof.
  eassert (run_genetic_algorithm example_graph 6 "A" "D" 4 2 (1 # 2) (1 # 10)
             ["A"; "D"] general_tape = Ok ((_, _), _)) as Hrun
    by (vm_compute; reflexivity).
  assert ("A" ∈ dom example_graph) as Hs by by_evaluation.
  assert ("D" ∈ dom example_graph) as He by by_evaluation.
  assert (interior_universe example_graph ["A"; "D"] "A" "D" ≠ ∅) as Hne
    by by_evaluation.
  assert ("A" ≠ "D") as Hse by discriminate.
  destruct (run_returns_simple_path example_graph 6 "A" "D" 4 2 (1 # 2) (1 # 10)
              ["A"; "D"] general_tape _ _ _ Hse Hs He ltac:(lia) Hne Hrun)
    as [[Hempty _] | Hpath]; [discriminate Hempty|].
  eexists _, _, _. split; [exact Hrun | exact Hpath].
Defined.

(** ** The driver: which path becomes the record *)

Lemma wlt_irrefl (a : weight) : ¬ wlt a a.
Proof. destruct a as [q|]; simpl; [apply Qlt_irrefl | tauto]. Qed.

Lemma insert_by_fitness_head (x : Z * weight) (l : list (Z * weight)) :
  head (insert_by_fitness x l)
  = match head l with
    | Some y => if wltb y.2 x.2 then Some y else Some x
    | None => Some x
    end.
Proof. destruct l as [|y l]; [done|]. simpl. by destruct (wltb y.2 x.2). Qed.

(** The stable sort puts first the earliest entry of least fitness. *)
Lemma sort_by_fitness_first (l : list (Z * weight)) (top : Z * weight) :
  head (sort_by_fitness l) = Some top →
  ∃ l1 l2, l = l1 ++ top :: l2 ∧
           Forall (λ y, wlt top.2 y.2) l1 ∧ Forall (λ y, wle top.2 y.2) l2.
Proof.
  revert top. induction l as [|x l IH]; intros top Hhead; [done|].
  cbn [sort_by_fitness foldr] in Hhead. fold (sort_by_fitness l) in Hhead.
  rewrite insert_by_fitness_head in Hhead.
  destruct (head (sort_by_fitness l)) as [y|] eqn:Hy.
  - destruct (IH y eq_refl) as (l1 & l2 & -> & Hl1 & Hl2).
    destruct (wltb y.2 x.2) eqn:Hlt; injection Hhead as <-.
    + exists (x :: l1), l2. split; [done|]. split; [|done].
      apply Forall_cons. split; [by apply wltb_true | done].
    + exists [], (l1 ++ y :: l2). split; [done|]. split; [apply Forall_nil_2|].
      apply wltb_false in Hlt.
      apply Forall_app. split; [|apply Forall_cons; split; [done|]].
      * eapply Forall_impl; [exact Hl1|]. intros z Hz.
        eapply wle_trans; [exact Hlt | by apply wlt_wle].
      * eapply Forall_impl; [exact Hl2|]. intros z Hz. by eapply wle_trans.
  - injection Hhead as <-. exists [], l. split; [done|].
    split; [apply Forall_nil_2|].
    apply head_None in Hy.
    pose proof (sort_by_fitness_Permutation l) as Hperm. rewrite Hy in Hperm.
    apply Permutation_nil_l in Hperm. rewrite <- Hperm. apply Forall_nil_2.
Qed.

Lemma generation_first_fittest (graph : Graph)
    (initial_mutation_rate minimum_mutation_rate : Q)
    (anchors : list Node) (decay_rate : Q) (st : driver) (generation : Z)
    (t : tape) (st' : driver) (t' : tape) :
  generation_body graph initial_mutation_rate minimum_mutation_rate anchors decay_rate
    st generation t = Ok (st', t') →
  wlt (bestFitness st') (bestFitness st) →
  ∃ i, population st !! i = Some (bestPath st') ∧
       calculate_path_distance graph (bestPath st') = Ok (bestFitness st') ∧
       ∀ j path d,
         population st !! j = Some path → calculate_path_distance graph path = Ok d →
         wle (bestFitness st') d ∧ ((j < i)%nat → wlt (bestFitness st') d).
Proof.
  intros H Himproved.
  apply generation_body_Ok in H
    as (R & st1 & pool & children & HR & Hbest & _ & _ & _ & _ & Hpath & Hfit).
  rewrite Hpath, Hfit in *.
  apply record_best_Ok in Hbest as (top & Htop & _ & Hcase).
  destruct Hcase as [(_ & Hfit1 & Hget) | [_ ->]]; [|by apply wlt_irrefl in Himproved].
  rewrite Hfit1.
  destruct (sort_by_fitness_first _ _ Htop) as (l1 & l2 & HRsplit & Hl1 & Hl2).
  destruct (rank_Ok _ _ _ HR) as [HRlen Hentries].
  set (i := length l1).
  assert (R !! i = Some top) as Hi.
  { rewrite HRsplit. unfold i. by rewrite lookup_app_r, Nat.sub_diag by lia. }
  destruct (lookup_lt_is_Some_2 (population st) i) as [p Hp].
  { rewrite <- HRlen. by eapply lookup_lt_Some. }
  destruct (Hentries i p Hp) as (d & Hd & Hitem).
  rewrite Hi in Hitem. injection Hitem as Htopeq.
  assert (bestPath st1 = p) as ->.
  { rewrite Htopeq in Hget. cbn [fst] in Hget.
    rewrite (getitem_lookup _ _ _ Hp) in Hget. by injection Hget as <-. }
  exists i. split; [done|]. rewrite Htopeq. cbn [snd]. split; [done|].
  intros j path d' Hj Hd'.
  destruct (Hentries j path Hj) as (d'' & Hd'' & Hitem).
  rewrite Hd' in Hd''. injection Hd'' as <-.
  rewrite HRsplit in Hitem. rewrite Htopeq in Hl1, Hl2. cbn [snd] in Hl1, Hl2.
  destruct (decide (j < i)%nat) as [Hlt | Hge].
  - rewrite lookup_app_l in Hitem by done.
    apply list_elem_of_lookup_2 in Hitem.
    apply (proj1 (Forall_forall _ _) Hl1) in Hitem. cbn [snd] in Hitem.
    split; [by apply wlt_wle | done].
  - split; [|lia].
    rewrite lookup_app_r in Hitem by (fold i; lia). fold i in Hitem.
    destruct (j - i)%nat as [|k] eqn:Hk.
    + simpl in Hitem. rewrite Htopeq in Hitem. injection Hitem as _ <-.
      apply wle_refl.
    + simpl in Hitem. apply list_elem_of_lookup_2 in Hitem.
      by apply (proj1 (Forall_forall _ _) Hl2) in Hitem.
Qed.

(** X22. When a generation improves the record, the path it records is
    the first path of the population, in population order, whose distance
    is the least: every path has at least that distance, and every path
    before it has a strictly greater one. *)
Theorem best_path_is_first_fittest (graph : Graph)
    (initial_mutation_rate minimum_mutation_rate : Q)
    (all_start_end_points : list Node) (decay_rate : Q)
    (st : driver) (generation : Z) (t : tape) (st' : driver) (t' : tape) :
  generation_body graph initial_mutation_rate minimum_mutation_rate
    all_start_end_points decay_rate st generation t = Ok (st', t') →
  wlt (bestFitness st') (bestFitness st) →
  ∃ i, population st !! i = Some (bestPath st') ∧
       calculate_path_distance graph (bestPath st') = Ok (bestFitness st') ∧
       ∀ j path d,
         population st !! j = Some path → calculate_path_distance graph path = Ok d →
         wle (bestFitness st') d ∧ ((j < i)%nat → wlt (bestFitness st') d).
Proof. apply generation_first_fittest. Qed.

(** The fittest path of [example_population] is put in a second time at
    the end: the record is taken where it comes first. *)
Lemma best_path_is_first_fittest_witness :
  ∃ st' t',
    generation_body example_graph (1 # 2) (1 # 10) ["A"; "D"] (1 # 5)
      (Driver (example_population ++ [["A"; "E"; "B"; "D"]]) [] Inf)
      0 example_tape = Ok (st', t') ∧
    ∃ i, (example_population ++ [["A"; "E"; "B"; "D"]]) !! i = Some (bestPath st') ∧
         calculate_path_distance example_graph (bestPath st') = Ok (bestFitness st') ∧
         ∀ j path d,
           (example_population ++ [["A"; "E"; "B"; "D"]]) !! j = Some path →
           calculate_path_distance example_graph path = Ok d →
           wle (bestFitness st') d ∧ ((j < i)%nat → wlt (bestFitness st') d).
Proof.
  eassert (generation_body example_graph (1 # 2) (1 # 10) ["A"; "D"] (1 # 5)
             (Driver (example_population ++ [["A"; "E"; "B"; "D"]]) [] Inf)
             0 example_tape = Ok (_, _))
    as Hrun by (vm_compute; reflexivity).
  eexists _, _. split; [exact Hrun|].
  apply (best_path_is_first_fittest _ _ _ _ _ _ _ _ _ _ Hrun). exact I.
Defined.
